(** * dlmbl/unet, [local.py]: notebook utilities of the U-Net exercise

    A shallow embedding of the helper functions of [local.py] and the
    properties its specification states about them.

    - Python integers are [Z]. A Python float is an IEEE-754 binary64 value
      ([Float.double]): a finite float is the rational it denotes, every
      operation rounds its exact result to the nearest float, ties to even,
      and a result too large becomes an infinity. The sign of a zero is not
      kept.
    - [compute_receptive_field] is given on Python numbers, as the
      interpreter runs it ([ReceptiveFieldPy]), and on exact rationals
      ([ReceptiveField]): the same statements with no rounding and no
      exceptions, which is what the function computes as long as every
      intermediate value is a float without rounding.
    - The elements of the tensors of [unnormalize] are exact rationals.
    - The libraries the file calls into (torch, torchvision, PIL, os) are
      interfaces: type classes whose methods are the calls the code makes.
    - A call that can raise returns an [outcome]. *)

From Stdlib Require Import ZArith QArith Qround Qabs Qpower Lia Lqa.
From Stdlib Require Import String Ascii DecimalString.
From stdpp Require Import base tactics option list.

Local Open Scope Z_scope.

(** ** Python values and builtins *)

Module Py.

(** The exceptions that reach a caller of [local.py]. [ValueError] is the one
    the file raises itself; the others come out of the calls it makes and
    out of the arithmetic. *)
Inductive exn : Type :=
| ValueError (msg : string)
| IndexError
| OSError (path : string)
| RuntimeError
| ZeroDivisionError
| OverflowError.

Inductive outcome (A : Type) : Type :=
| Returned (a : A)
| Raised (e : exn).
Arguments Returned {A} a.
Arguments Raised {A} e.

Definition bind {A B} (m : outcome A) (k : A -> outcome B) : outcome B :=
  match m with
  | Returned a => k a
  | Raised e => Raised e
  end.

Notation "'try' x <- m ; k" := (bind m (fun x => k))
  (at level 10, x name, m at level 100, k at level 200, only parsing).

(** A [for] loop over the list [l] whose body updates the variables [s]
    and may raise. *)
Fixpoint for_in {A S} (body : S -> A -> outcome S) (l : list A) (s : S)
  : outcome S :=
  match l with
  | [] => Returned s
  | x :: l' => try s' <- body s x ; for_in body l' s'
  end.

(** [range(n)]: the integers [0, 1, ..., n-1], empty when [n <= 0]. *)
Definition range (n : Z) : list Z :=
  map Z.of_nat (seq 0 (Z.to_nat n)).

(** [l[::-1]] *)
Definition reversed {A} (l : list A) : list A := rev l.

(** Tuple comparison [a > b]: the first position where the tuples differ
    decides; when one is a prefix of the other the longer one is greater. *)
Fixpoint tuple_gt (a b : list Z) : bool :=
  match a, b with
  | [], _ => false
  | _ :: _, [] => true
  | x :: a', y :: b' =>
      if x =? y then tuple_gt a' b' else y <? x
  end.

(** Tuple equality [a == b]. *)
Fixpoint tuple_eq (a b : list Z) : bool :=
  match a, b with
  | [], [] => true
  | x :: a', y :: b' => (x =? y) && tuple_eq a' b'
  | _, _ => false
  end.

(** [zip(a, b)] stops at the end of the shorter argument. *)
Fixpoint zip {A B} (a : list A) (b : list B) : list (A * B) :=
  match a, b with
  | x :: a', y :: b' => (x, y) :: zip a' b'
  | _, _ => []
  end.

(** [l[idx]]: a negative index counts from the end; outside
    [-len(l) <= idx < len(l)] it is an [IndexError]. *)
Definition getitem {A} (l : list A) (idx : Z) : outcome A :=
  let n := Z.of_nat (length l) in
  let i := if idx <? 0 then idx + n else idx in
  if (0 <=? i) && (i <? n) then
    match l !! Z.to_nat i with
    | Some x => Returned x
    | None => Raised IndexError
    end
  else Raised IndexError.

(** [l[idx] = x], with the same reading of [idx]. *)
Definition setitem {A} (l : list A) (idx : Z) (x : A) : outcome (list A) :=
  let n := Z.of_nat (length l) in
  let i := if idx <? 0 then idx + n else idx in
  if (0 <=? i) && (i <? n) then Returned (<[Z.to_nat i := x]> l)
  else Raised IndexError.

(** [str] of an integer, and of the two kinds of size objects a caller can
    pass: a [torch.Size] and a plain tuple. *)
Definition str_int (z : Z) : string := NilZero.string_of_int (Z.to_int z).

Fixpoint join (sep : string) (l : list string) : string :=
  match l with
  | [] => EmptyString
  | [s] => s
  | s :: l' => (s ++ sep ++ join sep l')%string
  end.

Definition str_tuple (l : list Z) : string :=
  match l with
  | [x] => ("(" ++ str_int x ++ ",)")%string
  | _ => ("(" ++ join ", " (map str_int l) ++ ")")%string
  end.

Definition str_Size (l : list Z) : string :=
  ("torch.Size([" ++ join ", " (map str_int l) ++ "])")%string.

End Py.

(** ** Floats *)

Module Float.

(** [2^e], for any integer [e]. *)
Definition two_power (e : Z) : Q := (2 ^ e)%Q.

(** The exponent of the leading bit of a rational other than zero:
    [2^(ilog2 q) <= |q| < 2^(ilog2 q + 1)]. *)
Definition ilog2 (q : Q) : Z :=
  if Qle_bool 1 (Qabs q) then Z.log2 (Qfloor (Qabs q))
  else - Z.log2_up (Qceiling (/ Qabs q)).

(** The exponent of the last bit of the float nearest to [q]: 53 bits of
    precision, and no exponent below that of the subnormal numbers. *)
Definition ulp_exponent (q : Q) : Z := Z.max (-1074) (ilog2 q - 52).

(** The integer nearest to [x], the even one when two are equally near. *)
Definition round_half_even (x : Q) : Z :=
  let f := Qfloor x in
  match Qcompare (x - inject_Z f) (1 # 2) with
  | Lt => f
  | Gt => f + 1
  | Eq => if Z.even f then f else f + 1
  end.

(** The multiple of [2^(ulp_exponent q)] nearest to [q]. *)
Definition nearest (q : Q) : Q :=
  let q := Qred q in
  if Qeq_bool q 0 then 0%Q
  else
    let e := ulp_exponent q in
    Qred (inject_Z (round_half_even (q / two_power e)) * two_power e).

Inductive double : Type :=
| Finite (q : Q)
| Infinity (negative : bool)
| NaN.

Definition negative (q : Q) : bool := negb (Qle_bool 0 q).

(** The float an operation returns for the exact result [q]. *)
Definition round (q : Q) : double :=
  let r := nearest q in
  if Qle_bool (two_power 1024) (Qabs r) then Infinity (negative r)
  else Finite r.

Definition is_zero (x : double) : bool :=
  match x with
  | Finite q => Qeq_bool q 0
  | _ => false
  end.

Definition opp (x : double) : double :=
  match x with
  | Finite q => Finite (- q)
  | Infinity s => Infinity (negb s)
  | NaN => NaN
  end.

Definition add (x y : double) : double :=
  match x, y with
  | NaN, _ | _, NaN => NaN
  | Infinity s, Infinity s' => if Bool.eqb s s' then Infinity s else NaN
  | Infinity s, Finite _ | Finite _, Infinity s => Infinity s
  | Finite a, Finite b => round (a + b)
  end.

Definition sub (x y : double) : double := add x (opp y).

Definition mul (x y : double) : double :=
  match x, y with
  | NaN, _ | _, NaN => NaN
  | Infinity s, Infinity s' => Infinity (xorb s s')
  | Infinity s, Finite q | Finite q, Infinity s =>
      if Qeq_bool q 0 then NaN else Infinity (xorb s (negative q))
  | Finite a, Finite b => round (a * b)
  end.

(** Division by a float other than zero. *)
Definition div (x y : double) : double :=
  match x, y with
  | NaN, _ | _, NaN => NaN
  | Infinity _, Infinity _ => NaN
  | Infinity s, Finite q => Infinity (xorb s (negative q))
  | Finite _, Infinity _ => Finite 0
  | Finite a, Finite b => round (a / b)
  end.

End Float.

(** ** Python numbers *)

Module PyNum.
Import Py.

(** An [int] or a [float]. *)
Inductive num : Type :=
| Int (z : Z)
| Float (x : Float.double).

(** The conversion of an [int] operand that meets a [float] operand. *)
Definition to_float (z : Z) : outcome Float.double :=
  match Float.round (inject_Z z) with
  | Float.Infinity _ => Raised OverflowError
  | x => Returned x
  end.

Definition as_float (v : num) : outcome Float.double :=
  match v with
  | Int z => to_float z
  | Float x => Returned x
  end.

(** [+], [-] and [*]: on two [int]s the exact integer, otherwise the
    operation of floats. *)
Definition binary (on_int : Z -> Z -> Z)
    (on_float : Float.double -> Float.double -> Float.double)
    (u v : num) : outcome num :=
  match u, v with
  | Int a, Int b => Returned (Int (on_int a b))
  | _, _ =>
      try x <- as_float u ;
      try y <- as_float v ;
      Returned (Float (on_float x y))
  end.

Definition py_add : num -> num -> outcome num := binary Z.add Float.add.
Definition py_sub : num -> num -> outcome num := binary Z.sub Float.sub.
Definition py_mul : num -> num -> outcome num := binary Z.mul Float.mul.

(** True division [/]. The quotient of two [int]s is the float nearest to
    the exact quotient. *)
Definition py_truediv (u v : num) : outcome num :=
  match u, v with
  | Int a, Int b =>
      if b =? 0 then Raised ZeroDivisionError
      else match Float.round (inject_Z a / inject_Z b) with
           | Float.Infinity _ => Raised OverflowError
           | x => Returned (Float x)
           end
  | _, _ =>
      try x <- as_float u ;
      try y <- as_float v ;
      if Float.is_zero y then Raised ZeroDivisionError
      else Returned (Float (Float.div x y))
  end.

(** [math.floor] and [math.ceil]. *)
Definition math_floor (v : num) : outcome Z :=
  match v with
  | Int z => Returned z
  | Float (Float.Finite q) => Returned (Qfloor q)
  | Float (Float.Infinity _) => Raised OverflowError
  | Float Float.NaN =>
      Raised (ValueError "cannot convert float NaN to integer")
  end.

Definition math_ceil (v : num) : outcome Z :=
  match v with
  | Int z => Returned z
  | Float (Float.Finite q) => Returned (Qceiling q)
  | Float (Float.Infinity _) => Raised OverflowError
  | Float Float.NaN =>
      Raised (ValueError "cannot convert float NaN to integer")
  end.

(** [math.floor(d / 2)] and [math.ceil(d / 2)] for an [int] [d]. *)
Definition floor_half (d : Z) : outcome Z :=
  try q <- py_truediv (Int d) (Int 2) ; math_floor q.
Definition ceil_half (d : Z) : outcome Z :=
  try q <- py_truediv (Int d) (Int 2) ; math_ceil q.

(** *** Notions the properties are stated with *)

(** The number [v] is the integer [z], as an [int] or as a [float]. *)
Definition exact (v : num) (z : Z) : Prop :=
  match v with
  | Int z' => z' = z
  | Float (Float.Finite q) => (q == inject_Z z)%Q
  | Float _ => False
  end.

Definition is_float (v : num) : bool :=
  match v with Int _ => false | Float _ => true end.

(** The number [v] is the rational [q]. *)
Definition denotes (v : num) (q : Q) : Prop :=
  match v with
  | Int z => (inject_Z z == q)%Q
  | Float (Float.Finite r) => (r == q)%Q
  | Float _ => False
  end.

End PyNum.

(** ** [compute_receptive_field] on exact rationals *)

Module ReceptiveField.

(** The two variables the loops update. *)
Record vars : Type := mk_vars { fov : Q; downsample_factor_prod : Q }.

Section Loops.
Variables (kernel_size downsample_factor : Q).

(** Body of the encoder loop (the loop variable [layer] is not used). *)
Definition encoder_body (v : vars) (layer : Z) : vars :=
  let fov1 := (fov v + 2 * (kernel_size - 1) * downsample_factor_prod v)%Q in
  let fov2 := (fov1 * downsample_factor)%Q in
  mk_vars fov2 (downsample_factor_prod v * downsample_factor)%Q.

(** The statement between the loops. *)
Definition bottom (v : vars) : vars :=
  mk_vars (fov v + 2 * (kernel_size - 1) * downsample_factor_prod v)%Q
          (downsample_factor_prod v).

(** Body of the decoder loop. *)
Definition decoder_body (v : vars) (layer : Z) : vars :=
  let prod' := (downsample_factor_prod v / downsample_factor)%Q in
  mk_vars (fov v + 2 * (kernel_size - 1) * prod')%Q prod'.
End Loops.

(** The values [layer] takes in each loop. *)
Definition encoder_layers (depth : Z) : list Z := Py.range (depth - 1).
Definition decoder_layers (depth : Z) : list Z :=
  Py.reversed (Py.range (depth - 1)).

Definition compute_receptive_field
    (depth : Z) (kernel_size downsample_factor : Q) : Q :=
  let v0 := mk_vars 1 1 in
  let v1 := fold_left (encoder_body kernel_size downsample_factor)
                      (encoder_layers depth) v0 in
  let v2 := bottom kernel_size v1 in
  let v3 := fold_left (decoder_body kernel_size downsample_factor)
                      (decoder_layers depth) v2 in
  fov v3.

(** *** The loops unrolled

    Neither body looks at [layer], so each loop applies one function a
    number of times. *)
Section Unrolled.
Variables (kernel_size downsample_factor : Q).

Definition enc (v : vars) : vars :=
  encoder_body kernel_size downsample_factor v 0.
Definition dec (v : vars) : vars :=
  decoder_body kernel_size downsample_factor v 0.

(** [n = depth - 1] encoder steps, the bottom layer, [n] decoder steps. *)
Definition unrolled (n : nat) : Q :=
  fov (Nat.iter n dec (bottom kernel_size (Nat.iter n enc (mk_vars 1 1)))).
End Unrolled.

(** Both variables are positive. *)
Definition positive (v : vars) : Prop :=
  (0 < fov v)%Q /\ (0 < downsample_factor_prod v)%Q.

(** Two runs are [below] each other when the first has the smaller field
    of view and both have the same, positive accumulated factor. *)
Definition below (v v' : vars) : Prop :=
  (fov v <= fov v')%Q
  /\ (downsample_factor_prod v == downsample_factor_prod v')%Q
  /\ (0 < downsample_factor_prod v)%Q.

End ReceptiveField.

(** ** [compute_receptive_field] on Python numbers *)

Module ReceptiveFieldPy.
Import Py PyNum.

Section Loops.
Variables (kernel_size downsample_factor : num).

(** [fov + 2 * (kernel_size - 1) * downsample_factor_prod] *)
Definition widened (fov downsample_factor_prod : num) : outcome num :=
  try k1 <- py_sub kernel_size (Int 1) ;
  try c <- py_mul (Int 2) k1 ;
  try w <- py_mul c downsample_factor_prod ;
  py_add fov w.

(** The bodies of the loops and the statement between them, on the pair
    [(fov, downsample_factor_prod)]. *)
Definition encoder_body_py (v : num * num) (layer : Z)
  : outcome (num * num) :=
  try fov <- widened (fst v) (snd v) ;
  try fov <- py_mul fov downsample_factor ;
  try prod <- py_mul (snd v) downsample_factor ;
  Returned (fov, prod).

Definition bottom_py (v : num * num) : outcome (num * num) :=
  try fov <- widened (fst v) (snd v) ;
  Returned (fov, snd v).

Definition decoder_body_py (v : num * num) (layer : Z)
  : outcome (num * num) :=
  try prod <- py_truediv (snd v) downsample_factor ;
  try fov <- widened (fst v) prod ;
  Returned (fov, prod).
End Loops.

Definition compute_receptive_field_py
    (depth : Z) (kernel_size downsample_factor : num) : outcome num :=
  try v1 <- for_in (encoder_body_py kernel_size downsample_factor)
              (range (depth - 1)) (Int 1, Int 1) ;
  try v2 <- bottom_py kernel_size v1 ;
  try v3 <- for_in (decoder_body_py kernel_size downsample_factor)
              (reversed (range (depth - 1))) v2 ;
  Returned (fst v3).

(** *** The square drawn by [plot_receptive_field]

    The four bounds computed from the shape [(shape0, shape1)] of the image
    array and the field of view, before they are handed to the plotting
    calls. *)
Record box : Type := mk_box { xmin : num; xmax : num; ymin : num; ymax : num }.

Definition receptive_field_box (shape0 shape1 : Z) (fov : num)
  : outcome box :=
  try half_width <- py_truediv (Int shape1) (Int 2) ;
  try half_fov <- py_truediv fov (Int 2) ;
  try xmin <- py_sub half_width half_fov ;
  try half_width <- py_truediv (Int shape1) (Int 2) ;
  try half_fov <- py_truediv fov (Int 2) ;
  try xmax <- py_add half_width half_fov ;
  try half_height <- py_truediv (Int shape0) (Int 2) ;
  try half_fov <- py_truediv fov (Int 2) ;
  try ymin <- py_sub half_height half_fov ;
  try half_height <- py_truediv (Int shape0) (Int 2) ;
  try half_fov <- py_truediv fov (Int 2) ;
  try ymax <- py_add half_height half_fov ;
  Returned (mk_box xmin xmax ymin ymax).

End ReceptiveFieldPy.

(** ** [pad_to_size] *)

Module Padding.
Import Py PyNum.

(** What the function uses of torch: the shape of a tensor
    ([small_tensor.size()] and [small_tensor.shape] are the same tuple) and
    [torch.nn.functional.pad], which returns the padded tensor or raises a
    [RuntimeError] of its own ([None]). *)
Class Torch : Type := {
  tensor : Type;
  size : tensor -> list Z;
  F_pad : tensor -> list Z -> option tensor
}.

(** The [target_size] argument: a [torch.Size] (as in [x.size()]) or a plain
    tuple. Both compare with a [torch.Size] as tuples; they differ in how
    they print. *)
Inductive size_arg : Type :=
| Size (dims : list Z)
| Tuple (dims : list Z).

Definition dims_of (s : size_arg) : list Z :=
  match s with Size d => d | Tuple d => d end.

Definition str (s : size_arg) : string :=
  match s with Size d => str_Size d | Tuple d => str_tuple d end.

(** The f-string of the error message. *)
Definition msg (small_size : list Z) (target_size : size_arg) : string :=
  ("Can't pad tensor of size " ++ str_Size small_size
     ++ " to tensor of size " ++ str target_size ++ ".")%string.

(** The loop over [zip(shape, target_size)] that fills the list
    [pad_twoside]: two entries per dimension, in the order of the
    dimensions. *)
Definition pad_twoside_body (pad_twoside : list Z) (sizes : Z * Z)
  : outcome (list Z) :=
  let '(small_size, large_size) := sizes in
  try lo <- floor_half (large_size - small_size) ;
  try hi <- ceil_half (large_size - small_size) ;
  Returned ((pad_twoside ++ [lo]) ++ [hi]).

Definition pad_twoside (shape target_size : list Z) : outcome (list Z) :=
  for_in pad_twoside_body (zip shape target_size) [].

Section WithTorch.
Context `{Torch}.

Definition functional_pad (t : tensor) (pad : list Z) : outcome tensor :=
  match F_pad t pad with
  | Some t' => Returned t'
  | None => Raised RuntimeError
  end.

Definition pad_to_size (small_tensor : tensor) (target_size : size_arg)
  : outcome tensor :=
  if tuple_gt (size small_tensor) (dims_of target_size) then
    Raised (ValueError (msg (size small_tensor) target_size))
  else if tuple_eq (size small_tensor) (dims_of target_size) then
    Returned small_tensor
  else
    try pad_twoside <- pad_twoside (size small_tensor) (dims_of target_size) ;
    functional_pad small_tensor (reversed pad_twoside).
End WithTorch.

(** [torch.nn.functional.pad] reads its [pad] argument from the last
    dimension backwards: entries [2j] and [2j+1] are the amounts added
    before and after dimension [ndim - 1 - j]. *)
Definition pad_before (pad : list Z) (ndim i : nat) : Z :=
  nth (2 * (ndim - 1 - i)) pad 0.
Definition pad_after (pad : list Z) (ndim i : nat) : Z :=
  nth (2 * (ndim - 1 - i) + 1) pad 0.

(** *** A reference tensor: a shape and a value at every index *)

Record dense : Type := mk_dense { dims : list Z; at_index : list Z -> Q }.

Fixpoint pad_pairs (pad : list Z) : list (Z * Z) :=
  match pad with
  | before :: after :: pad' => (before, after) :: pad_pairs pad'
  | _ => []
  end.

(** Amounts per dimension, last dimension first, for [ndim] dimensions:
    dimensions the [pad] argument does not reach get [(0, 0)]. *)
Definition amounts (pad : list Z) (ndim : nat) : list (Z * Z) :=
  pad_pairs pad ++ repeat (0, 0) (ndim - length (pad_pairs pad)).

Definition padded_dims (d : list Z) (pad : list Z) : list Z :=
  rev (map (fun '(n, (before, after)) => before + n + after)
           (zip (rev d) (amounts pad (length d)))).

Definition source_index (d : list Z) (pad : list Z) (idx : list Z)
  : option (list Z) :=
  let shifted :=
    map (fun '(i, (n, (before, _))) => (i - before, n))
        (zip (rev idx) (zip (rev d) (amounts pad (length d)))) in
  if forallb (fun '(i, n) => (0 <=? i) && (i <? n)) shifted
  then Some (rev (map fst shifted)) else None.

(** Constant-mode padding with zeros; a negative amount crops. It is refused
    when [pad] has odd length, reaches past the first dimension, or leaves a
    dimension negative. *)
Definition dense_pad (t : dense) (pad : list Z) : option dense :=
  if Nat.even (length pad)
     && (length (pad_pairs pad) <=? length (dims t))%nat
     && forallb (fun n => 0 <=? n) (padded_dims (dims t) pad)
  then Some (mk_dense (padded_dims (dims t) pad)
               (fun idx => match source_index (dims t) pad idx with
                           | Some src => at_index t src
                           | None => 0%Q
                           end))
  else None.

Definition dense_torch : Torch :=
  {| tensor := dense; size := dims; F_pad := dense_pad |}.

(** A tensor of the given shape filled with ones. *)
Definition ones (d : list Z) : dense := mk_dense d (fun _ => 1%Q).

(** *** Notions the properties are stated with *)

(** The lexicographic order stated on its own: the tuples agree on a prefix,
    after which the first has the larger element or the second has ended. *)
Definition lex_greater (a b : list Z) : Prop :=
  exists prefix x a',
    a = prefix ++ x :: a'
    /\ (b = prefix \/ exists y b', b = prefix ++ y :: b' /\ y < x).

(** The floor and the ceiling of half an integer, as numbers. *)
Definition exact_floor_half (d : Z) : Z := Qfloor (inject_Z d / 2).
Definition exact_ceil_half (d : Z) : Z := Qceiling (inject_Z d / 2).

(** The floor and the ceiling of the float nearest to half an integer:
    what [math.floor(d / 2)] and [math.ceil(d / 2)] return when the division
    does not overflow. *)
Definition float_floor_half (d : Z) : Z :=
  Qfloor (Float.nearest (inject_Z d / 2)).
Definition float_ceil_half (d : Z) : Z :=
  Qceiling (Float.nearest (inject_Z d / 2)).

(** The amounts of every zipped dimension, one pair after the other. *)
Definition pad_entries (shape target_size : list Z) : list Z :=
  flat_map (fun '(small_size, large_size) =>
              [float_floor_half (large_size - small_size);
               float_ceil_half (large_size - small_size)])
           (zip shape target_size).

(** The amounts of every zipped dimension as [torch.nn.functional.pad]
    takes them: before, then after. *)
Definition amount_pairs (shape target_size : list Z) : list (Z * Z) :=
  map (fun '(small_size, large_size) =>
         (float_ceil_half (large_size - small_size),
          float_floor_half (large_size - small_size)))
      (zip shape target_size).

(** Every difference between a zipped pair of dimensions is an integer that
    floats hold without rounding, together with its half. *)
Definition in_exact_range (shape target_size : list Z) : Prop :=
  Forall (fun '(small_size, large_size) =>
            Z.abs (large_size - small_size) < 2 ^ 53)
         (zip shape target_size).

End Padding.

(** ** [NucleiDataset] *)

Module NucleiDataset.
Import Py.

(** The calls the class makes into [os], PIL, torchvision and torch.
    - [obj] is what the two lists hold: a tensor, or [None] before it is
      assigned.
    - [Image_open] and [Image_load] are [Image.open(path)] and
      [image.load()]; both can raise.
    - [transforms_Grayscale], [transforms_ToTensor] and
      [transforms_Normalize mean std] are the torchvision transforms of these
      names, applied to an image or a tensor.
    - [rng] is the state of torch's default random number generator and
      [seeded seed] the state [torch.manual_seed(seed)] puts it in;
      [entropy] is the nondeterministic source [torch.seed()] draws from. *)
Class Libs : Type := {
  obj : Type;
  PyNone : obj;
  image : Type;
  rng : Type;
  entropy : Type;
  os_listdir : string -> outcome (list string);
  os_path_join : string -> string -> string -> string;
  Image_open : string -> outcome image;
  Image_load : image -> outcome image;
  transforms_Grayscale : image -> image;
  transforms_ToTensor : image -> obj;
  transforms_Normalize : list Q -> list Q -> obj -> obj;
  fresh_seed : entropy -> Z * entropy;
  seeded : Z -> rng
}.

Section WithLibs.
Context `{Libs}.

(** The [transforms.Compose] built in [__init__], applied to an image:
    Grayscale, then ToTensor, then Normalize([0.5], [0.5]). *)
Definition inp_transforms (img : image) : obj :=
  transforms_Normalize [1 # 2] [1 # 2]
    (transforms_ToTensor (transforms_Grayscale img)).

(** A transform passed by the caller: a callable on tensors that may
    draw from, and so advances, torch's generator. *)
Definition callable : Type := obj -> rng -> obj * rng.

(** The attributes of an instance. *)
Record dataset : Type := mk_dataset {
  root_dir : string;
  samples : list string;
  transform : option callable;
  img_transform : option callable;
  loaded_imgs : list obj;
  loaded_masks : list obj
}.

(** One iteration of the loading loop on the two lists. *)
Definition load_sample (root : string) (names : list string)
    (lists : list obj * list obj) (sample_ind : Z)
  : outcome (list obj * list obj) :=
  try name <- getitem names sample_ind ;
  try image <- Image_open (os_path_join root name "image.tif") ;
  try image <- Image_load image ;
  try imgs <- setitem (fst lists) sample_ind (inp_transforms image) ;
  try name <- getitem names sample_ind ;
  try mask <- Image_open (os_path_join root name "mask.tif") ;
  try mask <- Image_load mask ;
  try masks <- setitem (snd lists) sample_ind (transforms_ToTensor mask) ;
  Returned (imgs, masks).

(** A [for] loop whose body can raise. *)
Fixpoint for_each {S} (body : S -> Z -> outcome S) (l : list Z) (s : S)
  : outcome S :=
  match l with
  | [] => Returned s
  | i :: l' => try s' <- body s i ; for_each body l' s'
  end.

Definition __init__ (root : string)
    (transform0 img_transform0 : option callable) : outcome dataset :=
  try names <- os_listdir root ;
  let imgs0 := replicate (length names) PyNone in
  let masks0 := replicate (length names) PyNone in
  try lists <- for_each (load_sample root names)
                 (range (Z.of_nat (length names))) (imgs0, masks0) ;
  Returned (mk_dataset root names transform0 img_transform0
              (fst lists) (snd lists)).

(** *** Methods

    A method runs on a heap holding the instance and the state of
    torch's generator, and leaves a heap behind, also when it raises. *)
Record heap : Type := mk_heap {
  self : dataset;
  generator : rng;
  entropy_source : entropy
}.

Definition M (A : Type) : Type := heap -> outcome A * heap.

Definition ret {A} (a : A) : M A := fun h => (Returned a, h).

Definition mbind {A B} (m : M A) (k : A -> M B) : M B :=
  fun h =>
    match m h with
    | (Returned a, h') => k a h'
    | (Raised e, h') => (Raised e, h')
    end.

Definition lift {A} (o : outcome A) : M A := fun h => (o, h).

(** [self.attr] *)
Definition attr {A} (field : dataset -> A) : M A :=
  fun h => (Returned (field (self h)), h).

(** [torch.seed()]: seeds the generator with a fresh number and returns
    that number. *)
Definition torch_seed : M Z :=
  fun h =>
    let (seed, e) := fresh_seed (entropy_source h) in
    (Returned seed, mk_heap (self h) (seeded seed) e).

Definition torch_manual_seed (seed : Z) : M unit :=
  fun h => (Returned tt, mk_heap (self h) (seeded seed) (entropy_source h)).

Definition call (f : callable) (x : obj) : M obj :=
  fun h =>
    let (y, g) := f x (generator h) in
    (Returned y, mk_heap (self h) g (entropy_source h)).

Notation "'do' x <- m ; k" := (mbind m (fun x => k))
  (at level 10, x name, m at level 100, k at level 200, only parsing).

Definition __len__ : M Z :=
  do names <- attr samples ;
  ret (Z.of_nat (length names)).

Definition __getitem__ (idx : Z) : M (obj * obj) :=
  do imgs <- attr loaded_imgs ;
  do image <- lift (getitem imgs idx) ;
  do masks <- attr loaded_masks ;
  do mask <- lift (getitem masks idx) ;
  do tr <- attr transform ;
  do pair <- match tr with
          | Some f =>
              do seed <- torch_seed ;
              do _ <- torch_manual_seed seed ;
              do image <- call f image ;
              do _ <- torch_manual_seed seed ;
              do mask <- call f mask ;
              ret (image, mask)
          | None => ret (image, mask)
          end ;
  do itr <- attr img_transform ;
  do image <- match itr with
           | Some f => call f (fst pair)
           | None => ret (fst pair)
           end ;
  ret (image, snd pair).

(** The operations a user of the dataset can invoke on it. *)
Inductive operation : Type :=
| Len
| GetItem (idx : Z).

Definition perform (op : operation) (h : heap) : heap :=
  match op with
  | Len => snd (__len__ h)
  | GetItem idx => snd (__getitem__ idx h)
  end.

(** The sample at position [i] of both lists comes from the two files of
    the [i]-th listed subdirectory. *)
Definition loaded_from (root name : string) (img mask : obj) : Prop :=
  exists image0 image1 mask0 mask1,
    Image_open (os_path_join root name "image.tif") = Returned image0
    /\ Image_load image0 = Returned image1
    /\ img = inp_transforms image1
    /\ Image_open (os_path_join root name "mask.tif") = Returned mask0
    /\ Image_load mask0 = Returned mask1
    /\ mask = transforms_ToTensor mask1.

Definition aligned (d : dataset) : Prop :=
  length (loaded_imgs d) = length (loaded_masks d)
  /\ length (loaded_imgs d) = length (samples d)
  /\ forall (i : nat) name,
       samples d !! i = Some name ->
       exists img mask,
         loaded_imgs d !! i = Some img
         /\ loaded_masks d !! i = Some mask
         /\ loaded_from (root_dir d) name img mask.

(** Both files of a sample open and load. *)
Definition loadable (root name : string) : Prop :=
  exists image0 image1 mask0 mask1,
    Image_open (os_path_join root name "image.tif") = Returned image0
    /\ Image_load image0 = Returned image1
    /\ Image_open (os_path_join root name "mask.tif") = Returned mask0
    /\ Image_load mask0 = Returned mask1.

(** In the loading loop, after the samples before [k] are done: the two
    lists still have one slot per sample and hold the first [k] samples
    at their positions. *)
Definition filled (root : string) (names : list string) (k : nat)
    (lists : list obj * list obj) : Prop :=
  length (fst lists) = length names
  /\ length (snd lists) = length names
  /\ forall (i : nat) name,
       (i < k)%nat -> names !! i = Some name ->
       exists img mask,
         fst lists !! i = Some img /\ snd lists !! i = Some mask
         /\ loaded_from root name img mask.

(** A method that leaves the instance as it found it. *)
Definition keeps_self {A} (m : M A) : Prop :=
  forall h, self (snd (m h)) = self h.
End WithLibs.

End NucleiDataset.

(** ** An example directory *)

Module Example.
Import Py NucleiDataset.

(** A directory with two samples. A file is identified by its path, a
    tensor by how it was made; the generator state and the entropy source
    are counters. *)
Definition libs : Libs := {|
  obj := option string;
  PyNone := None;
  image := string;
  rng := Z;
  entropy := Z;
  os_listdir root :=
    if String.eqb root "nuclei_train_data"
    then Returned ["s1"; "s2"]%string else Raised (OSError root);
  os_path_join a b c := (a ++ "/" ++ b ++ "/" ++ c)%string;
  Image_open path := Returned path;
  Image_load img := Returned img;
  transforms_Grayscale img := ("gray " ++ img)%string;
  transforms_ToTensor img := Some img;
  transforms_Normalize mean std :=
    option_map (fun s => ("normalized " ++ s)%string);
  fresh_seed e := (e, e + 1);
  seeded seed := seed
|}.

(** A random flip: whether it flips depends on the generator state. *)
Definition random_flip : callable (H := libs) :=
  fun x g =>
    (if Z.even g then option_map (fun s => ("flipped " ++ s)%string) x else x,
     g + 1).

Definition two_samples (tr : option (callable (H := libs)))
  : dataset (H := libs) :=
  mk_dataset (H := libs) "nuclei_train_data" ["s1"; "s2"]%string tr None
    [Some "normalized gray nuclei_train_data/s1/image.tif"%string;
     Some "normalized gray nuclei_train_data/s2/image.tif"%string]
    [Some "nuclei_train_data/s1/mask.tif"%string;
     Some "nuclei_train_data/s2/mask.tif"%string].
End Example.

(** ** [unnormalize] *)

Module Normalization.

(** The elements of a tensor, in any fixed order. Arithmetic between a
    tensor and a number acts on every element. *)
Definition elements : Type := list Q.

Definition add_scalar (t : elements) (c : Q) : elements :=
  map (fun x => x + c)%Q t.
Definition sub_scalar (t : elements) (c : Q) : elements :=
  map (fun x => x - c)%Q t.
Definition div_scalar (t : elements) (c : Q) : elements :=
  map (fun x => x / c)%Q t.

Definition unnormalize (tensor : elements) : elements :=
  div_scalar (add_scalar tensor 1) 2.

(** [transforms.Normalize([mean], [std])] of torchvision with a single
    mean and standard deviation: [(input - mean) / std] on every element. *)
Definition Normalize (mean std : Q) (tensor : elements) : elements :=
  div_scalar (sub_scalar tensor mean) std.

(** The normalization [__init__] puts in [inp_transforms]. *)
Definition load_time_normalize : elements -> elements :=
  Normalize (1 # 2) (1 # 2).

End Normalization.

(** ** The closed form of [compute_receptive_field] *)

Module ReceptiveFieldMore.
Import Py ReceptiveField.

(** [f] to the power [n], and [1 + f + ... + f^(n-1)]. *)
Fixpoint power (f : Q) (n : nat) : Q :=
  match n with
  | O => 1
  | S n' => f * power f n'
  end.

Fixpoint geometric (f : Q) (n : nat) : Q :=
  match n with
  | O => 0
  | S n' => geometric f n' + power f n'
  end.

(** What the two loops add up to after [n = depth - 1] levels. *)
Definition closed_form (kernel_size downsample_factor : Q) (n : nat) : Q :=
  (power downsample_factor n
     * (1 + 2 * (kernel_size - 1) * inject_Z (Z.of_nat n + 1))
   + 2 * (kernel_size - 1) * geometric downsample_factor n)%Q.

(** The same sum on integers. *)
Fixpoint geometric_int (f : Z) (n : nat) : Z :=
  match n with
  | O => 0
  | S n' => geometric_int f n' + f ^ Z.of_nat n'
  end.

Definition closed_form_int (kernel_size downsample_factor : Z) (n : nat) : Z :=
  downsample_factor ^ Z.of_nat n
    * (1 + 2 * (kernel_size - 1) * (Z.of_nat n + 1))
  + 2 * (kernel_size - 1) * geometric_int downsample_factor n.

(** The two variables have the values [x] and [p]. *)
Definition vars_eq (v : vars) (x p : Q) : Prop :=
  (fov v == x)%Q /\ (downsample_factor_prod v == p)%Q.

End ReceptiveFieldMore.

(** ** An example directory with a missing file *)

Module BrokenExample.
Import Py NucleiDataset.

(** The directory of [Example] with a third sample, and [mask.tif] missing
    from the second. *)
Definition libs : Libs := {|
  obj := option string;
  PyNone := None;
  image := string;
  rng := Z;
  entropy := Z;
  os_listdir root :=
    if String.eqb root "nuclei_train_data"
    then Returned ["s1"; "s2"; "s3"]%string else Raised (OSError root);
  os_path_join a b c := (a ++ "/" ++ b ++ "/" ++ c)%string;
  Image_open path :=
    if String.eqb path "nuclei_train_data/s2/mask.tif"
    then Raised (OSError path) else Returned path;
  Image_load img := Returned img;
  transforms_Grayscale img := ("gray " ++ img)%string;
  transforms_ToTensor img := Some img;
  transforms_Normalize mean std :=
    option_map (fun s => ("normalized " ++ s)%string);
  fresh_seed e := (e, e + 1);
  seeded seed := seed
|}.
End BrokenExample.

(** ** More of [NucleiDataset] *)

Module NucleiDatasetMore.
Import Py NucleiDataset.

Section WithLibs.
Context `{Libs}.

(** What the loading loop does for one sample apart from storing the two
    results: open and load [image.tif], transform it, then open and load
    [mask.tif] and transform it. The first call that raises ends it. *)
Definition sample_outcome (root name : string) : outcome (obj * obj) :=
  try image <- Image_open (os_path_join root name "image.tif") ;
  try image <- Image_load image ;
  try mask <- Image_open (os_path_join root name "mask.tif") ;
  try mask <- Image_load mask ;
  Returned (inp_transforms image, transforms_ToTensor mask).

(** What [__getitem__] makes of the stored pair [(image0, mask0)] on a heap
    with generator state [g] and entropy source [e]: the pair it returns and
    the generator state and entropy source it leaves. *)
Definition paired (d : dataset) (image0 mask0 : obj) (g : rng) (e : entropy)
  : obj * obj * rng * entropy :=
  match transform d with
  | Some f =>
      let seed := fst (fresh_seed e) in
      (fst (f image0 (seeded seed)), fst (f mask0 (seeded seed)),
       snd (f mask0 (seeded seed)), snd (fresh_seed e))
  | None => (image0, mask0, g, e)
  end.

Definition served (d : dataset) (image0 mask0 : obj) (g : rng) (e : entropy)
  : outcome (obj * obj) * heap :=
  let '(image1, mask1, g1, e1) := paired d image0 mask0 g e in
  match img_transform d with
  | Some it =>
      (Returned (fst (it image1 g1), mask1),
       mk_heap d (snd (it image1 g1)) e1)
  | None => (Returned (image1, mask1), mk_heap d g1 e1)
  end.
End WithLibs.

End NucleiDatasetMore.

(** * Properties *)

(** ** Floats *)

Module FloatFacts.
Import Float.

Lemma nearest_proper q q' : (q == q')%Q -> nearest q = nearest q'.
Proof. intros Hq. unfold nearest. by rewrite (Qred_complete _ _ Hq). Qed.

Lemma two_power_nonneg e : 0 <= e -> (two_power e == inject_Z (2 ^ e))%Q.
Proof. intros He. unfold two_power. symmetry. by apply (Zpower_Qpower 2). Qed.

Lemma two_power_pos e : (0 < two_power e)%Q.
Proof. apply Qpower_0_lt. reflexivity. Qed.

Lemma two_power_add a b : (two_power (a + b) == two_power a * two_power b)%Q.
Proof. apply Qpower_plus. discriminate. Qed.

Lemma two_power_0 : (two_power 0 == 1)%Q.
Proof. reflexivity. Qed.

Lemma round_half_even_Z x z : (x == inject_Z z)%Q -> round_half_even x = z.
Proof.
  intros Hx. unfold round_half_even.
  assert (Qfloor x = z) as -> by (rewrite Hx; apply Qfloor_Z).
  assert ((x - inject_Z z ?= 1 # 2)%Q = Lt) as ->; [|reflexivity].
  apply Qlt_alt. rewrite Hx. unfold Qminus. by rewrite Qplus_opp_r.
Qed.

Lemma round_half_even_floor x :
  Qfloor x <= round_half_even x <= Qfloor x + 1.
Proof.
  unfold round_half_even.
  destruct (Qcompare _ _); [destruct (Z.even _)|..]; lia.
Qed.

Lemma round_half_even_ge c x : (inject_Z c <= x)%Q -> c <= round_half_even x.
Proof.
  intros Hc. apply Qfloor_resp_le in Hc. rewrite Qfloor_Z in Hc.
  pose proof (round_half_even_floor x). lia.
Qed.

Lemma round_half_even_le c x : (x <= inject_Z c)%Q -> round_half_even x <= c.
Proof.
  intros Hc. pose proof (Qfloor_le x) as Hfl.
  assert (Qfloor x <= c) as Hfc.
  { apply Qfloor_resp_le in Hc. by rewrite Qfloor_Z in Hc. }
  unfold round_half_even.
  destruct (Qcompare (x - inject_Z (Qfloor x)) (1 # 2)) eqn:Hcmp; [|lia|].
  - destruct (Z.even _); [lia|].
    apply Qeq_alt in Hcmp.
    destruct (Z.eq_dec (Qfloor x) c) as [Heq|Hne]; [|lia].
    rewrite Heq in Hcmp. lra.
  - apply Qgt_alt in Hcmp.
    destruct (Z.eq_dec (Qfloor x) c) as [Heq|Hne]; [|lia].
    rewrite Heq in Hcmp. lra.
Qed.

Lemma ilog2_small q k :
  1 <= k -> (Qabs q < inject_Z (2 ^ k))%Q -> ilog2 q < k.
Proof.
  intros Hk Hq. unfold ilog2. destruct (Qle_bool 1 (Qabs q)) eqn:Hone.
  - apply Qle_bool_iff in Hone.
    assert (1 <= Qfloor (Qabs q)) as Hfl.
    { apply Qfloor_resp_le in Hone. done. }
    apply Z.log2_lt_pow2; [lia|].
    pose proof (Qfloor_le (Qabs q)) as Hle.
    rewrite Zlt_Qlt. lra.
  - pose proof (Z.log2_up_nonneg (Qceiling (/ Qabs q))). lia.
Qed.

Lemma ilog2_large q :
  (1 <= Qabs q)%Q -> 0 <= ilog2 q /\ (two_power (ilog2 q) <= Qabs q)%Q.
Proof.
  intros Hone. unfold ilog2. rewrite (proj2 (Qle_bool_iff _ _) Hone).
  assert (1 <= Qfloor (Qabs q)) as Hfl.
  { apply Qfloor_resp_le in Hone. done. }
  pose proof (Z.log2_nonneg (Qfloor (Qabs q))) as Hnn. split; [done|].
  rewrite two_power_nonneg by done.
  pose proof (Qfloor_le (Qabs q)) as Hle.
  pose proof (Z.log2_spec (Qfloor (Qabs q)) ltac:(lia)) as [Hlow _].
  rewrite Zle_Qle in Hlow. lra.
Qed.

(** A value that fits the precision at its exponent is not changed. *)
Lemma nearest_exact q m e0 :
  (q == inject_Z m * two_power e0)%Q ->
  ulp_exponent (Qred q) <= e0 ->
  (nearest q == q)%Q.
Proof.
  intros Hq He. unfold nearest.
  destruct (Qeq_bool (Qred q) 0) eqn:Hz.
  - apply Qeq_bool_eq in Hz. by rewrite <- Hz, Qred_correct.
  - set (e := ulp_exponent (Qred q)) in *.
    assert (Qred q / two_power e == inject_Z (m * 2 ^ (e0 - e)))%Q as Hx.
    { rewrite Qred_correct, Hq, inject_Z_mult.
      rewrite <- two_power_nonneg by lia.
      replace e0 with ((e0 - e) + e) at 1 by lia. rewrite two_power_add.
      field. pose proof (two_power_pos e). lra. }
    rewrite (round_half_even_Z _ _ Hx), Qred_correct, inject_Z_mult.
    rewrite <- two_power_nonneg by lia. rewrite Hq.
    replace e0 with ((e0 - e) + e) at 2 by lia. rewrite two_power_add. ring.
Qed.

Lemma Qabs_inject z : Qabs (inject_Z z) = inject_Z (Z.abs z).
Proof. reflexivity. Qed.

Lemma ulp_exponent_small q k :
  1 <= k <= 53 -> (Qabs q < inject_Z (2 ^ k))%Q -> ulp_exponent q <= k - 53.
Proof.
  intros Hk Hq. unfold ulp_exponent.
  pose proof (ilog2_small q k ltac:(lia) Hq). lia.
Qed.

Lemma nearest_int z :
  Z.abs z < 2 ^ 53 -> (nearest (inject_Z z) == inject_Z z)%Q.
Proof.
  intros Hz. apply (nearest_exact _ z 0); [rewrite two_power_0; ring|].
  apply (ulp_exponent_small _ 53); [lia|].
  rewrite Qred_correct, Qabs_inject. by rewrite <- Zlt_Qlt.
Qed.

Lemma nearest_half d :
  Z.abs d < 2 ^ 53 -> (nearest (inject_Z d / 2) == inject_Z d / 2)%Q.
Proof.
  intros Hd. apply (nearest_exact _ d (-1)); [reflexivity|].
  apply (ulp_exponent_small _ 52); [lia|].
  rewrite Qred_correct. unfold Qdiv. rewrite Qabs_Qmult, Qabs_inject.
  rewrite Zlt_Qlt in Hd. change (Qabs (/ 2)) with (1 # 2)%Q.
  change (inject_Z (2 ^ 53)) with (2 * inject_Z (2 ^ 52))%Q in Hd. lra.
Qed.

Lemma nearest_scaled q :
  ~ (q == 0)%Q ->
  let e := ulp_exponent (Qred q) in
  (nearest q
   == inject_Z (round_half_even (Qred q / two_power e)) * two_power e)%Q.
Proof.
  intros Hq. cbn zeta. unfold nearest.
  destruct (Qeq_bool (Qred q) 0) eqn:Hz.
  - apply Qeq_bool_eq in Hz. rewrite Qred_correct in Hz. done.
  - by rewrite Qred_correct.
Qed.

Lemma two_power_ge_1 e : 0 <= e -> (1 <= two_power e)%Q.
Proof.
  intros He. rewrite two_power_nonneg by done.
  change 1%Q with (inject_Z 1). rewrite <- Zle_Qle.
  pose proof (Z.pow_pos_nonneg 2 e). lia.
Qed.

Lemma two_power_opp e : (two_power (- e) * two_power e == 1)%Q.
Proof.
  rewrite <- two_power_add. replace (- e + e) with 0 by lia. reflexivity.
Qed.

(** The scaled mantissa of a value of magnitude at least 1 is at least
    [2^(-e)] when the exponent [e] is not positive, and at least 1
    otherwise. *)
Lemma scaled_large q :
  (1 <= Qabs q)%Q ->
  let e := ulp_exponent q in
  (inject_Z (2 ^ Z.max 0 (- e)) <= Qabs q / two_power e)%Q.
Proof.
  intros Hone. cbn zeta. set (e := ulp_exponent q).
  pose proof (two_power_pos e) as Hpos.
  destruct (Z.le_gt_cases e 0) as [Hle|Hgt].
  - rewrite Z.max_r by lia. rewrite <- two_power_nonneg by lia.
    apply Qle_shift_div_l; [done|]. rewrite two_power_opp. done.
  - rewrite Z.max_l by lia. change (inject_Z (2 ^ 0)) with 1%Q.
    apply Qle_shift_div_l; [done|]. rewrite Qmult_1_l.
    destruct (ilog2_large q Hone) as [Hnn Hlow].
    assert (e = ilog2 q - 52) as He by (unfold e, ulp_exponent in *; lia).
    assert (two_power e <= two_power (ilog2 q))%Q; [|lra].
    replace (ilog2 q) with (52 + e) by lia. rewrite two_power_add.
    pose proof (two_power_ge_1 52 ltac:(lia)).
    rewrite <- (Qmult_1_l (two_power e)) at 1.
    apply Qmult_le_compat_r; lra.
Qed.

Lemma nearest_ge_1 q : (1 <= q)%Q -> (1 <= nearest q)%Q.
Proof.
  intros Hq. rewrite nearest_scaled by lra. cbn zeta.
  set (e := ulp_exponent (Qred q)).
  assert (1 <= Qabs (Qred q))%Q as Hone
    by (rewrite Qred_correct, Qabs_pos; lra).
  pose proof (scaled_large _ Hone) as Hx. cbn zeta in Hx. fold e in Hx.
  rewrite Qabs_pos in Hx by (rewrite Qred_correct; lra).
  apply round_half_even_ge in Hx. rewrite Zle_Qle in Hx.
  pose proof (two_power_pos e) as Hpos.
  assert (1 <= inject_Z (2 ^ Z.max 0 (- e)) * two_power e)%Q as Hc.
  { destruct (Z.le_gt_cases e 0) as [Hle|Hgt].
    - rewrite Z.max_r by lia. rewrite <- two_power_nonneg by lia.
      rewrite two_power_opp. lra.
    - rewrite Z.max_l by lia. change (inject_Z (2 ^ 0)) with 1%Q.
      rewrite Qmult_1_l. apply two_power_ge_1. lia. }
  eapply Qle_trans; [exact Hc|]. apply Qmult_le_compat_r; lra.
Qed.

Lemma nearest_le_m1 q : (q <= -1)%Q -> (nearest q <= -1)%Q.
Proof.
  intros Hq. rewrite nearest_scaled by lra. cbn zeta.
  set (e := ulp_exponent (Qred q)).
  assert (1 <= Qabs (Qred q))%Q as Hone
    by (rewrite Qred_correct, Qabs_neg; lra).
  pose proof (scaled_large _ Hone) as Hx. cbn zeta in Hx. fold e in Hx.
  rewrite Qabs_neg in Hx by (rewrite Qred_correct; lra).
  pose proof (two_power_pos e) as Hpos.
  set (c := 2 ^ Z.max 0 (- e)) in *.
  assert (Qred q / two_power e <= inject_Z (- c))%Q as Hx'.
  { rewrite inject_Z_opp. unfold Qdiv in *.
    rewrite <- (Qopp_involutive (Qred q * / two_power e)).
    apply Qopp_le_compat.
    assert (- (Qred q * / two_power e) == - Qred q * / two_power e)%Q
      as -> by ring.
    done. }
  apply round_half_even_le in Hx'. rewrite Zle_Qle in Hx'.
  assert (1 <= inject_Z c * two_power e)%Q as Hc.
  { unfold c. destruct (Z.le_gt_cases e 0) as [Hle|Hgt].
    - rewrite Z.max_r by lia. rewrite <- two_power_nonneg by lia.
      rewrite two_power_opp. lra.
    - rewrite Z.max_l by lia. change (inject_Z (2 ^ 0)) with 1%Q.
      rewrite Qmult_1_l. apply two_power_ge_1. lia. }
  rewrite inject_Z_opp in Hx'.
  assert (inject_Z (round_half_even (Qred q / two_power e)) * two_power e
          <= - inject_Z c * two_power e)%Q
    by (apply Qmult_le_compat_r; lra).
  lra.
Qed.
End FloatFacts.

(** ** Python numbers *)

Module PyNumFacts.
Import Float Py PyNum FloatFacts.

Lemma round_finite q q' :
  (nearest q == q')%Q -> (Qabs q' < two_power 1024)%Q ->
  round q = Finite (nearest q).
Proof.
  intros Hq Hb. unfold round.
  destruct (Qle_bool (two_power 1024) (Qabs (nearest q))) eqn:Hov; [|done].
  apply Qle_bool_iff in Hov. rewrite Hq in Hov. lra.
Qed.

Lemma small_in_range z :
  Z.abs z < 2 ^ 53 -> (Qabs (inject_Z z) < two_power 1024)%Q.
Proof.
  intros Hz. rewrite Qabs_inject. rewrite Zlt_Qlt in Hz.
  assert (inject_Z (2 ^ 53) < two_power 1024)%Q by reflexivity. lra.
Qed.

(** Rounding a rational that is an integer below [2^53] in magnitude. *)
Lemma round_int q z :
  (q == inject_Z z)%Q -> Z.abs z < 2 ^ 53 ->
  exists r, round q = Finite r /\ (r == inject_Z z)%Q.
Proof.
  intros Hq Hz. exists (nearest q).
  assert (nearest q == inject_Z z)%Q as Hn.
  { rewrite (nearest_proper _ _ Hq). by apply nearest_int. }
  split; [|done]. apply (round_finite _ _ Hn). by apply small_in_range.
Qed.

(** Rounding half an integer below [2^53] in magnitude. *)
Lemma round_half q d :
  (q == inject_Z d / 2)%Q -> Z.abs d < 2 ^ 53 ->
  exists r, round q = Finite r /\ (r == inject_Z d / 2)%Q.
Proof.
  intros Hq Hd. exists (nearest q).
  assert (nearest q == inject_Z d / 2)%Q as Hn.
  { rewrite (nearest_proper _ _ Hq). by apply nearest_half. }
  split; [|done]. apply (round_finite _ _ Hn).
  unfold Qdiv. rewrite Qabs_Qmult, Qabs_inject.
  change (Qabs (/ 2)) with (1 # 2)%Q. rewrite Zlt_Qlt in Hd.
  assert (inject_Z (2 ^ 53) < two_power 1024)%Q by reflexivity.
  assert (0 <= inject_Z (Z.abs d))%Q
    by (change 0%Q with (inject_Z 0); rewrite <- Zle_Qle; lia).
  lra.
Qed.

Lemma as_float_exact v z :
  exact v z -> Z.abs z < 2 ^ 53 ->
  exists q, as_float v = Returned (Finite q) /\ (q == inject_Z z)%Q.
Proof.
  intros Hv Hz. destruct v as [z'|[q| |]]; cbn in Hv; try done.
  - subst z'. cbn. unfold to_float.
    destruct (round_int (inject_Z z) z) as (r & -> & Hr); [done..|].
    by exists r.
  - by exists q.
Qed.

Lemma py_add_exact u y a b :
  exact u a -> exact (Float y) b ->
  Z.abs a < 2 ^ 53 -> Z.abs (a + b) < 2 ^ 53 ->
  exists r, py_add u (Float y) = Returned (Float r)
            /\ exact (Float r) (a + b).
Proof.
  intros Hu Hy Ha Hab.
  destruct (as_float_exact u a Hu Ha) as (x & Hx & Hxa).
  destruct y as [qy| |]; cbn in Hy; try done.
  destruct (round_int (x + qy) (a + b)) as (r & Hr & Hra); [|done|].
  { rewrite Hxa, Hy, inject_Z_plus. reflexivity. }
  exists (Finite r). split; [|done].
  unfold py_add, binary. destruct u; cbn [as_float] in *; rewrite Hx;
    cbn [bind add]; by rewrite Hr.
Qed.

Lemma py_mul_exact c y p :
  exact (Float y) p ->
  Z.abs c < 2 ^ 53 -> Z.abs (c * p) < 2 ^ 53 ->
  exists r, py_mul (Int c) (Float y) = Returned (Float r)
            /\ exact (Float r) (c * p).
Proof.
  intros Hy Hc Hcp.
  destruct (as_float_exact (Int c) c eq_refl Hc) as (x & Hx & Hxc).
  destruct y as [qy| |]; cbn in Hy; try done.
  destruct (round_int (x * qy) (c * p)) as (r & Hr & Hrp); [|done|].
  { rewrite Hxc, Hy, inject_Z_mult. reflexivity. }
  exists (Finite r). split; [|done].
  unfold py_mul, binary. cbn [as_float] in *. rewrite Hx.
  cbn [bind mul]. by rewrite Hr.
Qed.

Lemma py_truediv_exact u f p :
  exact u (f * p) -> f <> 0 ->
  Z.abs f < 2 ^ 53 -> Z.abs (f * p) < 2 ^ 53 -> Z.abs p < 2 ^ 53 ->
  exists r, py_truediv u (Int f) = Returned (Float r)
            /\ exact (Float r) p.
Proof.
  intros Hu Hf Hfb Hfp Hp.
  assert (~ (inject_Z f == 0)%Q) as Hfq.
  { intros Hz. apply Hf. unfold Qeq in Hz. cbn in Hz. lia. }
  destruct u as [z|[q| |]]; cbn in Hu; try done.
  - subst z. unfold py_truediv.
    destruct (Z.eqb_spec f 0) as [|_]; [done|].
    destruct (round_int (inject_Z (f * p) / inject_Z f) p)
      as (r & -> & Hr); [|done|].
    { rewrite inject_Z_mult. field. done. }
    by exists (Finite r).
  - destruct (as_float_exact (Int f) f eq_refl Hfb) as (x & Hx & Hxf).
    destruct (round_int (q / x) p) as (r & Hr & Hrp); [|done|].
    { rewrite Hu, Hxf, inject_Z_mult. field. done. }
    exists (Finite r). split; [|done].
    unfold py_truediv. cbn [as_float bind] in *. rewrite Hx. cbn [bind].
    assert (is_zero (Finite x) = false) as ->.
    { cbn. destruct (Qeq_bool x 0) eqn:Hz; [|done].
      apply Qeq_bool_eq in Hz. rewrite Hxf in Hz. done. }
    cbn [div]. by rewrite Hr.
Qed.
(** Halving a whole number below [2^53] in magnitude. *)
Lemma py_truediv_two v x :
  exact v x -> Z.abs x < 2 ^ 53 ->
  exists r, py_truediv v (Int 2) = Returned (Float (Finite r))
            /\ (r == inject_Z x / 2)%Q.
Proof.
  intros Hv Hx. destruct v as [z|[q| |]]; cbn in Hv; try done.
  - subst z. unfold py_truediv. change (2 =? 0) with false. cbv iota.
    destruct (round_half (inject_Z x / inject_Z 2) x) as (r & -> & Hr);
      [reflexivity|done|].
    by exists r.
  - destruct (round_half (q / 2) x) as (r & Hr & Hrx); [by rewrite Hv|done|].
    exists r. split; [|done]. unfold py_truediv. cbn [as_float bind].
    assert (to_float 2 = Returned (Finite 2)) as -> by (by vm_compute).
    cbn [bind is_zero]. change (Qeq_bool 2 0) with false. cbv iota.
    cbn [div]. by rewrite Hr.
Qed.

(** The sum and the difference of two halves. *)
Lemma py_add_halves a b p q :
  (a == inject_Z p / 2)%Q -> (b == inject_Z q / 2)%Q ->
  Z.abs (p + q) < 2 ^ 53 ->
  exists r, py_add (Float (Finite a)) (Float (Finite b))
            = Returned (Float (Finite r))
            /\ (r == (inject_Z p + inject_Z q) / 2)%Q.
Proof.
  intros Ha Hb Hpq.
  destruct (round_half (a + b) (p + q)) as (r & Hr & Hrx); [|done|].
  { rewrite Ha, Hb, inject_Z_plus. field. }
  exists r. split; [|by rewrite Hrx, inject_Z_plus].
  unfold py_add, binary. cbn [as_float bind add]. by rewrite Hr.
Qed.

Lemma py_sub_halves a b p q :
  (a == inject_Z p / 2)%Q -> (b == inject_Z q / 2)%Q ->
  Z.abs (p - q) < 2 ^ 53 ->
  exists r, py_sub (Float (Finite a)) (Float (Finite b))
            = Returned (Float (Finite r))
            /\ (r == (inject_Z p - inject_Z q) / 2)%Q.
Proof.
  intros Ha Hb Hpq.
  destruct (round_half (a + - b) (p - q)) as (r & Hr & Hrx); [|done|].
  { rewrite Ha, Hb. unfold Z.sub. rewrite inject_Z_plus, inject_Z_opp.
    field. }
  exists r. split.
  - unfold py_sub, binary. cbn [as_float bind sub opp add]. by rewrite Hr.
  - rewrite Hrx. unfold Z.sub. rewrite inject_Z_plus, inject_Z_opp.
    unfold Qminus. reflexivity.
Qed.
End PyNumFacts.

(** ** The receptive field *)

Module ReceptiveFieldFacts.
Import Py ReceptiveField.

Lemma length_range n : length (range n) = Z.to_nat n.
Proof. unfold range. by rewrite length_map, length_seq. Qed.

Lemma fold_left_const_body {S A} (g : S -> S) (l : list A) (s : S) :
  fold_left (fun s _ => g s) l s = Nat.iter (length l) g s.
Proof.
  revert s. induction l as [|x l IH]; intros s; [done|].
  cbn [fold_left length]. rewrite IH. symmetry. apply Nat.iter_succ_r.
Qed.

Lemma compute_receptive_field_unrolled depth k f :
  compute_receptive_field depth k f = unrolled k f (Z.to_nat (depth - 1)).
Proof.
  unfold compute_receptive_field, unrolled, encoder_layers, decoder_layers.
  change (encoder_body k f) with (fun v (_ : Z) => enc k f v).
  change (decoder_body k f) with (fun v (_ : Z) => dec k f v).
  rewrite !fold_left_const_body. unfold reversed.
  by rewrite length_rev, length_range.
Qed.

Lemma quotient_spec (p f : Q) :
  (1 <= f)%Q -> (p / f * f == p)%Q.
Proof. intros Hf. field. lra. Qed.

Lemma quotient_pos (p f : Q) :
  (1 <= f)%Q -> (0 < p)%Q -> (0 < p / f)%Q.
Proof.
  intros Hf Hp. apply Qlt_shift_div_l; lra.
Qed.

(** What two convolutions add to the field of view is not negative. *)
Lemma widening_nonneg (k p : Q) :
  (1 <= k)%Q -> (0 < p)%Q -> (0 <= 2 * (k - 1) * p)%Q.
Proof. intros Hk Hp. apply Qmult_le_0_compat; lra. Qed.

Lemma widening_mono (k k' p : Q) :
  (k <= k')%Q -> (0 < p)%Q -> (2 * (k - 1) * p <= 2 * (k' - 1) * p)%Q.
Proof. intros Hk Hp. apply Qmult_le_compat_r; lra. Qed.

Lemma enc_positive k f v :
  (1 <= k)%Q -> (1 <= f)%Q -> positive v -> positive (enc k f v).
Proof.
  intros Hk Hf [Hv Hp]. unfold positive, enc, encoder_body.
  cbn [fov downsample_factor_prod].
  pose proof (widening_nonneg k _ Hk Hp).
  split; apply Qmult_lt_0_compat; lra.
Qed.

Lemma bottom_positive k v :
  (1 <= k)%Q -> positive v -> positive (bottom k v).
Proof.
  intros Hk [Hv Hp]. unfold positive, bottom. cbn [fov downsample_factor_prod].
  pose proof (widening_nonneg k _ Hk Hp).
  split; lra.
Qed.

Lemma dec_positive k f v :
  (1 <= k)%Q -> (1 <= f)%Q -> positive v -> positive (dec k f v).
Proof.
  intros Hk Hf [Hv Hp]. unfold positive, dec, decoder_body.
  cbn [fov downsample_factor_prod].
  pose proof (quotient_pos _ _ Hf Hp) as Hq.
  pose proof (widening_nonneg k _ Hk Hq).
  split; [lra | done].
Qed.

Lemma iter_positive (g : vars -> vars) n v :
  (forall v, positive v -> positive (g v)) ->
  positive v -> positive (Nat.iter n g v).
Proof. intros Hg Hv. induction n; cbn; auto. Qed.

Lemma start_positive : positive (mk_vars 1 1).
Proof. split; cbn; lra. Qed.

Lemma unrolled_positive k f n :
  (1 <= k)%Q -> (1 <= f)%Q -> (0 < unrolled k f n)%Q.
Proof.
  intros Hk Hf. unfold unrolled.
  apply iter_positive; [intros; by apply dec_positive|].
  apply bottom_positive; [done|].
  apply iter_positive; [intros; by apply enc_positive|].
  apply start_positive.
Qed.

Lemma enc_below k k' f v v' :
  (k <= k')%Q -> (1 <= f)%Q -> below v v' -> below (enc k f v) (enc k' f v').
Proof.
  intros Hk Hf (Hv & Hp & Hpos). unfold below, enc, encoder_body.
  cbn [fov downsample_factor_prod].
  pose proof (widening_mono k k' _ Hk Hpos).
  split; [|split]; [| by rewrite Hp | apply Qmult_lt_0_compat; lra].
  rewrite <- Hp. apply Qmult_le_compat_r; lra.
Qed.

Lemma bottom_below k k' v v' :
  (k <= k')%Q -> below v v' -> below (bottom k v) (bottom k' v').
Proof.
  intros Hk (Hv & Hp & Hpos). unfold below, bottom.
  cbn [fov downsample_factor_prod].
  pose proof (widening_mono k k' _ Hk Hpos).
  split; [|split]; [| done | done].
  rewrite <- Hp. lra.
Qed.

Lemma dec_below k k' f v v' :
  (k <= k')%Q -> (1 <= f)%Q -> below v v' -> below (dec k f v) (dec k' f v').
Proof.
  intros Hk Hf (Hv & Hp & Hpos). unfold below, dec, decoder_body.
  cbn [fov downsample_factor_prod].
  pose proof (quotient_pos _ _ Hf Hpos) as Hq.
  pose proof (widening_mono k k' _ Hk Hq).
  split; [|split]; [| by rewrite Hp | done].
  rewrite <- Hp. lra.
Qed.

Lemma iter_below (g g' : vars -> vars) n v v' :
  (forall v v', below v v' -> below (g v) (g' v')) ->
  below v v' -> below (Nat.iter n g v) (Nat.iter n g' v').
Proof. intros Hg Hv. induction n; cbn; auto. Qed.

Lemma start_below : below (mk_vars 1 1) (mk_vars 1 1).
Proof. repeat split; cbn; lra. Qed.

Lemma unrolled_mono_kernel k k' f n :
  (k <= k')%Q -> (1 <= f)%Q -> (unrolled k f n <= unrolled k' f n)%Q.
Proof.
  intros Hk Hf. unfold unrolled.
  apply iter_below; [intros; by apply dec_below|].
  apply bottom_below; [done|].
  apply iter_below; [intros; by apply enc_below|].
  apply start_below.
Qed.

(** One more level: the extra encoder step and the extra decoder step
    around the bottom layer only add to the field of view. *)
Lemma extra_level_below k f v :
  (1 <= k)%Q -> (1 <= f)%Q -> positive v ->
  below (bottom k v) (dec k f (bottom k (enc k f v))).
Proof.
  intros Hk Hf [Hv Hp].
  unfold below, dec, decoder_body, bottom, enc, encoder_body.
  cbn [fov downsample_factor_prod].
  set (p := downsample_factor_prod v) in *.
  assert (p * f / f == p)%Q as Hq' by (field; lra).
  pose proof (widening_nonneg k _ Hk Hp) as Hw.
  assert (0 < p * f)%Q as Hpf by (apply Qmult_lt_0_compat; lra).
  pose proof (widening_nonneg k _ Hk Hpf) as Hw'.
  assert (fov v + 2 * (k - 1) * p
          <= (fov v + 2 * (k - 1) * p) * f)%Q as Hgrow.
  { rewrite <- (Qmult_1_r (fov v + 2 * (k - 1) * p)) at 1.
    apply Qmult_le_l; lra. }
  split; [|split]; [| by rewrite Hq' | done].
  rewrite Hq'. lra.
Qed.

Lemma unrolled_succ k f n :
  (1 <= k)%Q -> (1 <= f)%Q -> (unrolled k f n <= unrolled k f (S n))%Q.
Proof.
  intros Hk Hf. unfold unrolled.
  rewrite (Nat.iter_succ_r n (dec k f)). cbn [Nat.iter].
  apply iter_below; [intros; apply dec_below; [lra|done..]|].
  apply extra_level_below; [done..|].
  apply iter_positive; [intros; by apply enc_positive|].
  apply start_positive.
Qed.

Lemma unrolled_mono_depth k f n m :
  (1 <= k)%Q -> (1 <= f)%Q -> (n <= m)%nat ->
  (unrolled k f n <= unrolled k f m)%Q.
Proof.
  intros Hk Hf Hnm. induction Hnm as [|m _ IH]; [lra|].
  pose proof (unrolled_succ k f m Hk Hf). lra.
Qed.

End ReceptiveFieldFacts.

(** ** The closed form of the receptive field *)

Module ReceptiveFieldMoreFacts.
Import Py ReceptiveField ReceptiveFieldMore ReceptiveFieldFacts.

Lemma power_nonzero f n : ~ (f == 0)%Q -> ~ (power f n == 0)%Q.
Proof.
  intros Hf. induction n as [|n IH]; cbn [power]; [lra|].
  intros Hz. apply Qmult_integral in Hz. tauto.
Qed.

Lemma encoder_closed k f n :
  vars_eq (Nat.iter n (enc k f) (mk_vars 1 1))
    (power f n * (1 + 2 * (k - 1) * inject_Z (Z.of_nat n)))%Q (power f n).
Proof.
  induction n as [|n [IHx IHp]].
  - split; cbn; ring.
  - rewrite Nat.iter_succ.
    set (w := Nat.iter n (enc k f) (mk_vars 1 1)) in *.
    unfold vars_eq, enc, encoder_body.
    cbn [fov downsample_factor_prod power]. rewrite IHx, IHp.
    rewrite Nat2Z.inj_succ. unfold Z.succ. rewrite inject_Z_plus.
    split; ring.
Qed.

Lemma bottom_closed k f n :
  vars_eq (bottom k (Nat.iter n (enc k f) (mk_vars 1 1)))
    (power f n * (1 + 2 * (k - 1) * inject_Z (Z.of_nat n + 1)))%Q
    (power f n).
Proof.
  destruct (encoder_closed k f n) as [Hx Hp].
  unfold vars_eq, bottom. cbn [fov downsample_factor_prod].
  rewrite Hx, Hp, inject_Z_plus. split; ring.
Qed.

(** [j] decoder steps starting from the factor [f^(m + j)]. *)
Lemma decoder_closed k f j : forall m v x,
  ~ (f == 0)%Q ->
  vars_eq v x (power f (m + j)) ->
  vars_eq (Nat.iter j (dec k f) v)
    (x + 2 * (k - 1) * (geometric f (m + j) - geometric f m))%Q
    (power f m).
Proof.
  induction j as [|j IH]; intros m v x Hf [Hx Hp].
  - rewrite Nat.add_0_r in *. cbn [Nat.iter]. split; [rewrite Hx; ring|done].
  - rewrite Nat.iter_succ_r.
    replace (m + S j)%nat with (S (m + j)) in * by lia.
    destruct (IH m (dec k f v)
                (x + 2 * (k - 1) * power f (m + j))%Q Hf) as [IHx IHp].
    { unfold vars_eq, dec, decoder_body. cbn [fov downsample_factor_prod].
      rewrite Hx, Hp. cbn [power].
      assert (f * power f (m + j) / f == power f (m + j))%Q as ->
        by (field; done).
      split; reflexivity. }
    split; [|done]. rewrite IHx. cbn [geometric]. ring.
Qed.

Lemma unrolled_closed_form k f n :
  ~ (f == 0)%Q -> (unrolled k f n == closed_form k f n)%Q.
Proof.
  intros Hf. unfold unrolled, closed_form.
  destruct (decoder_closed k f n 0 _ _ Hf (bottom_closed k f n)) as [Hx _].
  rewrite Hx. cbn [geometric Nat.add]. ring.
Qed.

Lemma power_inject (f : Z) n :
  (power (inject_Z f) n == inject_Z (f ^ Z.of_nat n))%Q.
Proof.
  induction n as [|n IH]; [reflexivity|].
  cbn [power]. rewrite IH, Nat2Z.inj_succ, Z.pow_succ_r by lia.
  by rewrite inject_Z_mult.
Qed.

Lemma geometric_inject (f : Z) n :
  (geometric (inject_Z f) n == inject_Z (geometric_int f n))%Q.
Proof.
  induction n as [|n IH]; [reflexivity|].
  cbn [geometric geometric_int]. by rewrite IH, power_inject, inject_Z_plus.
Qed.

Lemma closed_form_inject (k f : Z) n :
  (closed_form (inject_Z k) (inject_Z f) n
   == inject_Z (closed_form_int k f n))%Q.
Proof.
  unfold closed_form, closed_form_int.
  rewrite power_inject, geometric_inject.
  unfold Z.sub.
  repeat (rewrite inject_Z_plus || rewrite inject_Z_mult).
  change (inject_Z 1) with 1%Q. change (inject_Z 2) with 2%Q.
  change (inject_Z (- (1))) with (- (1))%Q. ring.
Qed.

Lemma power_one n : (power 1 n == 1)%Q.
Proof.
  induction n as [|n IH]; cbn [power]; [reflexivity|]. rewrite IH. ring.
Qed.

Lemma geometric_one n : (geometric 1 n == inject_Z (Z.of_nat n))%Q.
Proof.
  induction n as [|n IH]; [reflexivity|].
  cbn [geometric]. rewrite IH, power_one, Nat2Z.inj_succ. unfold Z.succ.
  by rewrite inject_Z_plus.
Qed.


Lemma decoder_layers_cons depth :
  2 <= depth -> exists layer rest, decoder_layers depth = layer :: rest.
Proof.
  intros Hd. destruct (decoder_layers depth) as [|layer rest] eqn:Hl.
  - apply (f_equal (@length Z)) in Hl. unfold decoder_layers, reversed in Hl.
    rewrite length_rev, length_range in Hl. cbn in Hl. lia.
  - by exists layer, rest.
Qed.

End ReceptiveFieldMoreFacts.

(** ** The receptive field on Python numbers *)

Module ReceptiveFieldPyFacts.
Import Float Py PyNum FloatFacts PyNumFacts.
Import ReceptiveField ReceptiveFieldMore ReceptiveFieldPy.
Import ReceptiveFieldFacts ReceptiveFieldMoreFacts.

Lemma geometric_int_nonneg f n : 1 <= f -> 0 <= geometric_int f n.
Proof.
  intros Hf. induction n as [|n IH]; cbn [geometric_int]; [lia|].
  pose proof (Z.pow_pos_nonneg f (Z.of_nat n)). lia.
Qed.

Lemma pow_ge_1 f n : 1 <= f -> 1 <= f ^ Z.of_nat n.
Proof. intros Hf. pose proof (Z.pow_pos_nonneg f (Z.of_nat n)). lia. Qed.

Lemma pow_S f n : f ^ Z.of_nat (S n) = f * f ^ Z.of_nat n.
Proof. rewrite Nat2Z.inj_succ. apply Z.pow_succ_r. lia. Qed.

Lemma length_layers depth :
  length (range (depth - 1)) = Z.to_nat (depth - 1)
  /\ length (reversed (range (depth - 1))) = Z.to_nat (depth - 1).
Proof.
  unfold reversed, range. by rewrite length_rev, length_map, length_seq.
Qed.

(** *** The closed form on integers *)

Lemma inject_Z_ge_1 z : 1 <= z -> (1 <= inject_Z z)%Q.
Proof. intros Hz. change 1%Q with (inject_Z 1). by rewrite <- Zle_Qle. Qed.

Lemma inject_Z_nonzero z : z <> 0 -> ~ (inject_Z z == 0)%Q.
Proof. intros Hz Hq. apply Hz. unfold Qeq in Hq. cbn in Hq. lia. Qed.

Lemma closed_form_int_unrolled k f n :
  f <> 0 ->
  (unrolled (inject_Z k) (inject_Z f) n == inject_Z (closed_form_int k f n))%Q.
Proof.
  intros Hf. rewrite unrolled_closed_form by (by apply inject_Z_nonzero).
  apply closed_form_inject.
Qed.

Lemma closed_form_int_positive k f n :
  1 <= k -> 1 <= f -> 0 < closed_form_int k f n.
Proof.
  intros Hk Hf. rewrite Zlt_Qlt, <- closed_form_int_unrolled by lia.
  apply unrolled_positive; by apply inject_Z_ge_1.
Qed.

Lemma closed_form_int_mono_depth k f n m :
  1 <= k -> 1 <= f -> (n <= m)%nat ->
  closed_form_int k f n <= closed_form_int k f m.
Proof.
  intros Hk Hf Hnm. rewrite Zle_Qle, <- !closed_form_int_unrolled by lia.
  apply unrolled_mono_depth; [by apply inject_Z_ge_1..|done].
Qed.


Lemma geometric_int_one n : geometric_int 1 n = Z.of_nat n.
Proof.
  induction n as [|n IH]; [done|].
  cbn [geometric_int]. rewrite IH, Z.pow_1_l by lia. lia.
Qed.

Lemma closed_form_int_one_factor k n :
  closed_form_int k 1 n = 1 + 2 * (k - 1) * (2 * Z.of_nat n + 1).
Proof.
  unfold closed_form_int. rewrite geometric_int_one, Z.pow_1_l by lia. ring.
Qed.

Lemma closed_form_int_one_kernel f n : closed_form_int 1 f n = f ^ Z.of_nat n.
Proof. unfold closed_form_int. change (1 - 1) with 0. ring. Qed.

(** *** The loops on integers *)

Section Ints.
Variables (k f : Z).

Lemma widened_int x p :
  widened (Int k) (Int x) (Int p) = Returned (Int (x + 2 * (k - 1) * p)).
Proof. reflexivity. Qed.

Lemma encoder_step_int x p layer :
  encoder_body_py (Int k) (Int f) (Int x, Int p) layer
  = Returned (Int ((x + 2 * (k - 1) * p) * f), Int (p * f)).
Proof. reflexivity. Qed.

(** The encoder loop stays on integers, whatever they are. *)
Lemma encoder_loop_int l : forall j : nat,
  for_in (encoder_body_py (Int k) (Int f)) l
    (Int (f ^ Z.of_nat j * (1 + 2 * (k - 1) * Z.of_nat j)),
     Int (f ^ Z.of_nat j))
  = Returned
      (Int (f ^ Z.of_nat (j + length l)
            * (1 + 2 * (k - 1) * Z.of_nat (j + length l))),
       Int (f ^ Z.of_nat (j + length l))).
Proof.
  induction l as [|layer l IH]; intros j.
  - cbn [for_in length]. by rewrite Nat.add_0_r.
  - cbn [for_in length]. rewrite encoder_step_int. cbn [bind].
    replace (j + S (length l))%nat with (S j + length l)%nat by lia.
    rewrite <- IH. do 3 f_equal.
    + rewrite pow_S, Nat2Z.inj_succ. ring.
    + rewrite pow_S. ring.
Qed.

Lemma encoder_loop_start depth :
  for_in (encoder_body_py (Int k) (Int f)) (range (depth - 1)) (Int 1, Int 1)
  = let n := Z.to_nat (depth - 1) in
    Returned (Int (f ^ Z.of_nat n * (1 + 2 * (k - 1) * Z.of_nat n)),
              Int (f ^ Z.of_nat n)).
Proof.
  pose proof (encoder_loop_int (range (depth - 1)) 0) as Hloop.
  destruct (length_layers depth) as [Henc _].
  rewrite Henc in Hloop. cbn [Nat.add] in Hloop.
  change (Z.of_nat 0) with 0 in Hloop. rewrite Z.pow_0_r in Hloop.
  replace (1 * (1 + 2 * (k - 1) * 0)) with 1 in Hloop by ring.
  exact Hloop.
Qed.

(** One decoder step on numbers that are exact integers. *)
Lemma decoder_step_exact fov prod X P layer :
  1 <= k -> 1 <= f -> 1 <= P -> f * P <= X ->
  X + 2 * (k - 1) * P < 2 ^ 53 ->
  exact fov X -> exact prod (f * P) ->
  exists fov' prod',
    decoder_body_py (Int k) (Int f) (fov, prod) layer
    = Returned (fov', prod')
    /\ exact fov' (X + 2 * (k - 1) * P) /\ exact prod' P
    /\ is_float fov' = true.
Proof.
  intros Hk Hf HP HX Hb Hfov Hprod.
  assert (P <= f * P) by nia.
  assert (0 <= 2 * (k - 1) * P) by nia.
  assert (2 * (k - 1) <= 2 * (k - 1) * P) by nia.
  destruct (py_truediv_exact prod f P Hprod) as (r & Hr & Hrp); [lia..|].
  destruct (py_mul_exact (2 * (k - 1)) r P Hrp) as (w & Hw & Hwp); [lia..|].
  destruct (py_add_exact fov w X (2 * (k - 1) * P) Hfov Hwp)
    as (s & Hs & Hsp); [lia..|].
  exists (Float s), (Float r). split; [|done].
  unfold decoder_body_py. cbn [fst snd]. rewrite Hr. cbn [bind].
  unfold widened.
  change (py_sub (Int k) (Int 1)) with (Returned (Int (k - 1))).
  cbn [bind].
  change (py_mul (Int 2) (Int (k - 1))) with (Returned (Int (2 * (k - 1)))).
  cbn [bind]. rewrite Hw. cbn [bind]. by rewrite Hs.
Qed.

(** The decoder loop from the accumulated factor [f^m], [m] the number of
    iterations left. *)
Lemma decoder_loop_exact l : forall fov prod X,
  1 <= k -> 1 <= f ->
  f ^ Z.of_nat (length l) <= X ->
  X + 2 * (k - 1) * geometric_int f (length l) < 2 ^ 53 ->
  exact fov X -> exact prod (f ^ Z.of_nat (length l)) ->
  exists fov' prod',
    for_in (decoder_body_py (Int k) (Int f)) l (fov, prod)
    = Returned (fov', prod')
    /\ exact fov' (X + 2 * (k - 1) * geometric_int f (length l))
    /\ (l = [] /\ fov' = fov \/ l <> [] /\ is_float fov' = true).
Proof.
  induction l as [|layer l IH]; intros fov prod X Hk Hf HX Hb Hfov Hprod.
  - exists fov, prod. cbn. split; [done|]. split; [|by left].
    by replace (X + 2 * (k - 1) * 0) with X by lia.
  - cbn [length geometric_int] in *. rewrite pow_S in HX, Hprod.
    pose proof (pow_ge_1 f (length l) Hf) as Hp.
    pose proof (geometric_int_nonneg f (length l) Hf) as Hg.
    assert (0 <= 2 * (k - 1) * geometric_int f (length l)) by nia.
    destruct (decoder_step_exact fov prod X (f ^ Z.of_nat (length l)) layer)
      as (fov1 & prod1 & Hstep & Hfov1 & Hprod1 & Hfl); [done..|nia|done|done|].
    destruct (IH fov1 prod1 (X + 2 * (k - 1) * f ^ Z.of_nat (length l)))
      as (fov' & prod' & Hloop & Hfov' & Hkind); [done|done|nia|nia|done|done|].
    exists fov', prod'. cbn [for_in]. rewrite Hstep. cbn [bind].
    split; [done|]. split.
    + replace (X + 2 * (k - 1)
                   * (geometric_int f (length l) + f ^ Z.of_nat (length l)))
        with (X + 2 * (k - 1) * f ^ Z.of_nat (length l)
              + 2 * (k - 1) * geometric_int f (length l)) by ring.
      done.
    + right. split; [done|]. by destruct Hkind as [[_ ->]|[_ ?]].
Qed.
End Ints.

(** As long as the closed form is below [2^53] no operation of the
    function rounds: it returns the closed form, as an [int] when no
    division was made and as a [float] otherwise. *)
Lemma compute_receptive_field_py_exact depth k f :
  1 <= k -> 1 <= f ->
  closed_form_int k f (Z.to_nat (depth - 1)) < 2 ^ 53 ->
  exists v,
    compute_receptive_field_py depth (Int k) (Int f) = Returned v
    /\ exact v (closed_form_int k f (Z.to_nat (depth - 1)))
    /\ is_float v = (2 <=? depth).
Proof.
  intros Hk Hf Hb. unfold compute_receptive_field_py.
  rewrite encoder_loop_start. cbn zeta.
  destruct (length_layers depth) as [Henc Hdec].
  set (n := Z.to_nat (depth - 1)) in *.
  cbn [bind]. unfold bottom_py. cbn [fst snd].
  rewrite widened_int. cbn [bind].
  pose proof (pow_ge_1 f n Hf) as Hp.
  unfold closed_form_int in Hb |- *.
  destruct (decoder_loop_exact k f (reversed (range (depth - 1)))
              (Int (f ^ Z.of_nat n * (1 + 2 * (k - 1) * Z.of_nat n)
                    + 2 * (k - 1) * f ^ Z.of_nat n))
              (Int (f ^ Z.of_nat n))
              (f ^ Z.of_nat n * (1 + 2 * (k - 1) * (Z.of_nat n + 1))))
    as (fov' & prod' & Hfinal & Hexact & Hkind); [done|done|..].
  - rewrite Hdec. nia.
  - rewrite Hdec. done.
  - cbn. ring.
  - rewrite Hdec. reflexivity.
  - rewrite Hfinal. cbn [bind fst]. exists fov'. split; [done|].
    rewrite Hdec in Hexact. split; [done|].
    destruct Hkind as [[Hnil ->]|[Hcons ->]].
    + apply (f_equal (@length Z)) in Hnil. rewrite Hdec in Hnil.
      cbn in Hnil. symmetry. apply Z.leb_gt. lia.
    + symmetry. apply Z.leb_le.
      destruct (Z.le_gt_cases 2 depth) as [|Hlt]; [done|].
      exfalso. apply Hcons. apply length_zero_iff_nil. rewrite Hdec. lia.
Qed.

(** *** The exceptions of the arithmetic *)

Lemma round_not_NaN q : round q <> NaN.
Proof. unfold round. by destruct (Qle_bool _ _). Qed.

Lemma bind_raises {A B} (m : outcome A) (k : A -> outcome B) e0 :
  (forall e, m = Raised e -> e = e0) ->
  (forall a e, k a = Raised e -> e = e0) ->
  forall e, bind m k = Raised e -> e = e0.
Proof.
  intros Hm Hk e. destruct m as [a|e']; cbn [bind]; [apply Hk|].
  intros [= <-]. by apply Hm.
Qed.

Lemma to_float_raises z e : to_float z = Raised e -> e = OverflowError.
Proof.
  unfold to_float. destruct (round (inject_Z z)); [done| |done].
  by intros [= <-].
Qed.

Lemma as_float_raises v e : as_float v = Raised e -> e = OverflowError.
Proof. destruct v; [apply to_float_raises|done]. Qed.

Lemma binary_raises on_int on_float u v e :
  binary on_int on_float u v = Raised e -> e = OverflowError.
Proof.
  revert e. unfold binary. destruct u as [a|x], v as [b|y]; [done|..];
    (apply bind_raises; [intros e; apply as_float_raises|]; intros x' e;
     revert e;
     apply bind_raises; [intros e; apply as_float_raises|]; done).
Qed.

Lemma widened_raises k fov prod e :
  widened k fov prod = Raised e -> e = OverflowError.
Proof.
  revert e. unfold widened.
  apply bind_raises; [intros e; apply binary_raises|]. intros k1 e. revert e.
  apply bind_raises; [intros e; apply binary_raises|]. intros c e. revert e.
  apply bind_raises; [intros e; apply binary_raises|]. intros w e.
  apply binary_raises.
Qed.

(** The float of an integer other than zero is not zero. *)
Lemma to_float_nonzero z x :
  z <> 0 -> to_float z = Returned x -> is_zero x = false.
Proof.
  intros Hz. unfold to_float, round.
  destruct (Qle_bool _ _); [done|]. intros [= <-]. cbn [is_zero].
  destruct (Qeq_bool _ _) eqn:Hq; [|done]. apply Qeq_bool_eq in Hq.
  destruct (Z.le_gt_cases 1 z) as [Hpos|Hneg].
  - pose proof (nearest_ge_1 (inject_Z z) (inject_Z_ge_1 z Hpos)). lra.
  - assert (inject_Z z <= -1)%Q as Hle.
    { change (-1)%Q with (inject_Z (-1)). rewrite <- Zle_Qle. lia. }
    pose proof (nearest_le_m1 _ Hle). lra.
Qed.

Lemma py_truediv_raises u f e :
  f <> 0 -> py_truediv u (Int f) = Raised e -> e = OverflowError.
Proof.
  intros Hf. destruct u as [a|x]; unfold py_truediv.
  - destruct (Z.eqb_spec f 0); [done|].
    destruct (round _); [done| |done]. by intros [= <-].
  - cbn [as_float bind].
    destruct (to_float f) as [y|e'] eqn:Hy;
      [|apply to_float_raises in Hy; intros [= <-]; done].
    cbn [bind]. by rewrite (to_float_nonzero f y Hf Hy).
Qed.

Lemma encoder_body_raises k f v layer e :
  encoder_body_py k f v layer = Raised e -> e = OverflowError.
Proof.
  revert e. unfold encoder_body_py.
  apply bind_raises; [intros e; apply widened_raises|]. intros x e. revert e.
  apply bind_raises; [intros e; apply binary_raises|]. intros y e. revert e.
  apply bind_raises; [intros e; apply binary_raises|]. done.
Qed.

Lemma decoder_body_raises k f v layer e :
  f <> 0 ->
  decoder_body_py k (Int f) v layer = Raised e -> e = OverflowError.
Proof.
  intros Hf. revert e. unfold decoder_body_py.
  apply bind_raises; [intros e; by apply py_truediv_raises|].
  intros p e. revert e.
  apply bind_raises; [intros e; apply widened_raises|]. done.
Qed.

Lemma for_in_raises {A S} (body : S -> A -> outcome S) l e0 :
  (forall s x e, body s x = Raised e -> e = e0) ->
  forall s e, for_in body l s = Raised e -> e = e0.
Proof.
  intros Hbody. induction l as [|x l IH]; intros s; [done|].
  cbn [for_in]. apply bind_raises; [apply Hbody|done].
Qed.

(** With a factor other than zero, [OverflowError] is the only exception
    of the function. *)
Lemma compute_receptive_field_py_raises depth k f e :
  f <> 0 ->
  compute_receptive_field_py depth k (Int f) = Raised e ->
  e = OverflowError.
Proof.
  intros Hf. revert e. unfold compute_receptive_field_py.
  apply bind_raises.
  { apply for_in_raises. intros s x e. apply encoder_body_raises. }
  intros v1 e. revert e. apply bind_raises.
  { unfold bottom_py. apply bind_raises; [|done].
    intros e. apply widened_raises. }
  intros v2 e. revert e. apply bind_raises; [|done].
  apply for_in_raises. intros s x e. by apply decoder_body_raises.
Qed.

(** With a factor of zero the first division of the decoder loop raises. *)
Lemma compute_receptive_field_py_zero depth k :
  2 <= depth ->
  compute_receptive_field_py depth (Int k) (Int 0) = Raised ZeroDivisionError.
Proof.
  intros Hd. unfold compute_receptive_field_py.
  rewrite encoder_loop_start. cbn zeta. cbn [bind]. unfold bottom_py.
  cbn [fst snd]. rewrite widened_int. cbn [bind].
  destruct (length_layers depth) as [_ Hdec].
  destruct (reversed (range (depth - 1))) as [|layer rest];
    [cbn in Hdec; lia|].
  reflexivity.
Qed.

Lemma compute_receptive_field_py_shallow depth k f :
  depth <= 1 ->
  compute_receptive_field_py depth (Int k) (Int f)
  = Returned (Int (1 + 2 * (k - 1))).
Proof.
  intros Hd. unfold compute_receptive_field_py, reversed, range.
  replace (Z.to_nat (depth - 1)) with 0%nat by lia. cbn.
  do 2 f_equal. lia.
Qed.

End ReceptiveFieldPyFacts.

(** ** Padding *)

Module PaddingFacts.
Import Py PyNum Padding FloatFacts PyNumFacts.

(** *** Halving *)

Lemma exact_floor_half_div d : exact_floor_half d = d / 2.
Proof. unfold exact_floor_half. cbn. by rewrite Z.mul_1_r. Qed.

Lemma exact_ceil_half_div d : exact_ceil_half d = - (- d / 2).
Proof.
  unfold exact_ceil_half, Qceiling. cbn. by rewrite Z.mul_1_r.
Qed.

Lemma halves_sum d : exact_floor_half d + exact_ceil_half d = d.
Proof.
  rewrite exact_floor_half_div, exact_ceil_half_div.
  Z.div_mod_to_equations. lia.
Qed.

Lemma halves_close d :
  exact_floor_half d <= exact_ceil_half d <= exact_floor_half d + 1.
Proof.
  rewrite exact_floor_half_div, exact_ceil_half_div.
  Z.div_mod_to_equations. lia.
Qed.

Lemma halves_nonneg d :
  0 <= d -> 0 <= exact_floor_half d /\ 0 <= exact_ceil_half d.
Proof.
  rewrite exact_floor_half_div, exact_ceil_half_div.
  Z.div_mod_to_equations. lia.
Qed.

Lemma halves_negative d :
  d < 0 -> exact_floor_half d < 0 /\ exact_ceil_half d <= 0.
Proof.
  rewrite exact_floor_half_div, exact_ceil_half_div.
  Z.div_mod_to_equations. lia.
Qed.

(** Below [2^53] in magnitude the division by 2 does not round. *)
Lemma float_halves_exact d :
  Z.abs d < 2 ^ 53 ->
  float_floor_half d = exact_floor_half d
  /\ float_ceil_half d = exact_ceil_half d.
Proof.
  intros Hd. pose proof (nearest_half d Hd) as Hn.
  unfold float_floor_half, float_ceil_half, exact_floor_half,
    exact_ceil_half.
  by rewrite Hn.
Qed.

(** Both calls divide the same two integers, so they overflow together. *)
Lemma halves_cases d :
  (floor_half d = Raised OverflowError /\ ceil_half d = Raised OverflowError)
  \/ (floor_half d = Returned (float_floor_half d)
      /\ ceil_half d = Returned (float_ceil_half d)).
Proof.
  unfold floor_half, ceil_half, py_truediv, Float.round.
  change (2 =? 0) with false. cbv iota. change (inject_Z 2) with 2%Q.
  destruct (Qle_bool _ _); [by left|by right].
Qed.

Lemma halves_return d :
  Z.abs d < 2 ^ 53 ->
  floor_half d = Returned (exact_floor_half d)
  /\ ceil_half d = Returned (exact_ceil_half d).
Proof.
  intros Hd. destruct (float_halves_exact d Hd) as [<- <-].
  destruct (halves_cases d) as [[Hraise _]|Hret]; [|done].
  exfalso. revert Hraise.
  unfold floor_half, py_truediv.
  change (2 =? 0) with false. cbv iota. change (inject_Z 2) with 2%Q.
  rewrite (round_finite _ _ (nearest_half d Hd)); [done|].
  unfold Qdiv. rewrite Qabs_Qmult, Qabs_inject.
  change (Qabs (/ 2)) with (1 # 2)%Q. rewrite Zlt_Qlt in Hd.
  assert (inject_Z (2 ^ 53) < Float.two_power 1024)%Q by reflexivity.
  assert (0 <= inject_Z (Z.abs d))%Q
    by (change 0%Q with (inject_Z 0); rewrite <- Zle_Qle; lia).
  lra.
Qed.

(** The halves of a negative difference are negative, rounded or not. *)
Lemma float_halves_negative d :
  d < 0 -> float_floor_half d < 0 /\ float_ceil_half d <= 0.
Proof.
  intros Hd. destruct (Z.eq_dec d (-1)) as [->|Hne]; [by vm_compute|].
  assert (inject_Z d / 2 <= -1)%Q as Hq.
  { assert (inject_Z d <= inject_Z (-2))%Q as Hle
      by (rewrite <- Zle_Qle; lia).
    change (inject_Z (-2)) with (-2)%Q in Hle.
    unfold Qdiv. change (/ 2)%Q with (1 # 2)%Q. lra. }
  apply nearest_le_m1 in Hq. unfold float_floor_half, float_ceil_half.
  pose proof (Qfloor_resp_le _ _ Hq) as Hf.
  pose proof (Qceiling_resp_le _ _ Hq) as Hc.
  change (-1)%Q with (inject_Z (-1)) in Hf, Hc.
  rewrite Qfloor_Z in Hf. rewrite Qceiling_Z in Hc. lia.
Qed.

(** *** Tuple comparison *)

Lemma tuple_gt_lex a b : tuple_gt a b = true <-> lex_greater a b.
Proof.
  revert b. induction a as [|x a IH]; intros b.
  - split; [done|]. intros (p & x & a' & Ha & _). by destruct p.
  - destruct b as [|y b]; cbn [tuple_gt].
    + split; [|done]. intros _. exists [], x, a. auto.
    + destruct (Z.eqb_spec x y) as [->|Hne].
      * rewrite IH. split.
        -- intros (p & x & a' & -> & Hb). exists (y :: p), x, a'.
           split; [done|]. destruct Hb as [->|(y' & b' & -> & Hlt)]; [auto|].
           right. by exists y', b'.
        -- intros (p & x & a' & Ha & Hb). destruct p as [|z p].
           ++ cbn in Ha. injection Ha as <- <-.
              destruct Hb as [Hb|(y' & b' & Hb & Hlt)]; [done|].
              cbn in Hb. injection Hb as <- <-. lia.
           ++ cbn in Ha. injection Ha as <- ->. exists p, x, a'.
              split; [done|].
              destruct Hb as [Hb|(y' & b' & Hb & Hlt)].
              ** left. by injection Hb.
              ** right. exists y', b'. cbn in Hb. by injection Hb as ->.
      * rewrite Z.ltb_lt. split.
        -- intros Hlt. exists [], x, a. split; [done|]. right. by exists y, b.
        -- intros (p & x' & a' & Ha & Hb). destruct p as [|z p].
           ++ cbn in Ha. injection Ha as <- <-.
              destruct Hb as [Hb|(y' & b' & Hb & Hlt)]; [done|].
              cbn in Hb. by injection Hb as <- <-.
           ++ cbn in Ha. injection Ha as <- ->.
              destruct Hb as [Hb|(y' & b' & Hb & Hlt)];
                cbn in Hb; by injection Hb.
Qed.

Lemma tuple_gt_irrefl a : tuple_gt a a = false.
Proof. induction a as [|x a IH]; [done|]. cbn. by rewrite Z.eqb_refl. Qed.

Lemma tuple_eq_spec a b : tuple_eq a b = true <-> a = b.
Proof.
  revert b. induction a as [|x a IH]; intros [|y b]; cbn; try done.
  rewrite andb_true_iff, Z.eqb_eq, IH. split; [by intros [-> ->]|].
  by intros [= -> ->].
Qed.

Lemma tuple_gt_pointwise_le a b : Forall2 Z.le a b -> tuple_gt a b = false.
Proof.
  induction 1 as [|x y a b Hxy _ IH]; [done|]. cbn.
  destruct (Z.eqb_spec x y); [done|]. apply Z.ltb_ge. lia.
Qed.

(** A smaller element at the first difference hides everything after. *)
Lemma tuple_gt_smaller_first prefix x y a b :
  x < y -> tuple_gt (prefix ++ x :: a) (prefix ++ y :: b) = false.
Proof.
  intros Hxy. induction prefix as [|z p IH]; cbn.
  - destruct (Z.eqb_spec x y); [lia|]. apply Z.ltb_ge. lia.
  - by rewrite Z.eqb_refl.
Qed.

Lemma tuple_eq_differ prefix x y a b :
  x <> y -> tuple_eq (prefix ++ x :: a) (prefix ++ y :: b) = false.
Proof.
  intros Hxy. apply not_true_is_false. rewrite tuple_eq_spec.
  intros Heq. apply app_inv_head in Heq. by injection Heq.
Qed.

(** *** The padding list *)

Lemma pad_twoside_body_pair acc small_size large_size :
  pad_twoside_body acc (small_size, large_size)
  = try lo <- floor_half (large_size - small_size) ;
    try hi <- ceil_half (large_size - small_size) ;
    Returned ((acc ++ [lo]) ++ [hi]).
Proof. reflexivity. Qed.

Lemma pad_twoside_loop (ps : list (Z * Z)) : forall acc : list Z,
  for_in pad_twoside_body ps acc = Raised OverflowError
  \/ for_in pad_twoside_body ps acc
     = Returned
         (acc ++ flat_map (fun '(small_size, large_size) =>
                             [float_floor_half (large_size - small_size);
                              float_ceil_half (large_size - small_size)]) ps).
Proof.
  induction ps as [|[s l] ps IH]; intros acc; cbn [for_in flat_map].
  - right. by rewrite app_nil_r.
  - rewrite pad_twoside_body_pair.
    destruct (halves_cases (l - s)) as [[-> _]|[-> ->]]; [by left|].
    cbn [bind]. destruct (IH ((acc ++ [float_floor_half (l - s)])
                                ++ [float_ceil_half (l - s)])) as [->| ->];
      [by left|right].
    by rewrite <- !app_assoc.
Qed.

(** The loop either overflows or leaves the amounts of every zipped
    dimension. *)
Lemma pad_twoside_cases shape target_size :
  pad_twoside shape target_size = Raised OverflowError
  \/ pad_twoside shape target_size
     = Returned (pad_entries shape target_size).
Proof. apply (pad_twoside_loop _ []). Qed.

Lemma pad_twoside_loop_in_range (ps : list (Z * Z)) : forall acc : list Z,
  Forall (fun '(small_size, large_size) =>
            Z.abs (large_size - small_size) < 2 ^ 53) ps ->
  for_in pad_twoside_body ps acc
  = Returned
      (acc ++ flat_map (fun '(small_size, large_size) =>
                          [float_floor_half (large_size - small_size);
                           float_ceil_half (large_size - small_size)]) ps).
Proof.
  induction ps as [|[s l] ps IH]; intros acc Hr; cbn [for_in flat_map].
  - by rewrite app_nil_r.
  - apply Forall_cons in Hr as [Hd Hr]. rewrite pad_twoside_body_pair.
    destruct (halves_return (l - s) Hd) as [-> ->].
    destruct (float_halves_exact (l - s) Hd) as [-> ->].
    cbn [bind]. rewrite (IH _ Hr). by rewrite <- !app_assoc.
Qed.

Lemma pad_twoside_in_range shape target_size :
  in_exact_range shape target_size ->
  pad_twoside shape target_size = Returned (pad_entries shape target_size).
Proof. apply (pad_twoside_loop_in_range _ []). Qed.

Lemma length_zip {A B} (a : list A) (b : list B) :
  length (zip a b) = Nat.min (length a) (length b).
Proof. revert b. induction a; intros [|??]; cbn; auto. Qed.

Lemma length_pad_entries shape target_size :
  length (pad_entries shape target_size)
  = (2 * Nat.min (length shape) (length target_size))%nat.
Proof.
  rewrite <- length_zip. unfold pad_entries.
  induction (zip shape target_size) as [|[s l] ps IH]; [done|].
  cbn [flat_map length app]. rewrite IH. lia.
Qed.

Lemma nth_pad_entries shape target_size i :
  (i < length shape)%nat -> (i < length target_size)%nat ->
  let d := nth i target_size 0 - nth i shape 0 in
  nth (2 * i) (pad_entries shape target_size) 0 = float_floor_half d
  /\ nth (2 * i + 1) (pad_entries shape target_size) 0 = float_ceil_half d.
Proof.
  revert target_size i.
  induction shape as [|s shape IH]; intros [|l target] i Hs Ht;
    cbn in Hs, Ht; try lia.
  destruct i as [|i]; [done|].
  replace (2 * S i)%nat with (S (S (2 * i))) by lia.
  apply (IH target i); lia.
Qed.

(** What holds of every zipped pair holds of every shared dimension. *)
Lemma Forall_zip_nth (P : Z -> Z -> Prop) shape target_size i :
  Forall (fun '(small_size, large_size) => P small_size large_size)
         (zip shape target_size) ->
  (i < length shape)%nat -> (i < length target_size)%nat ->
  P (nth i shape 0) (nth i target_size 0).
Proof.
  revert target_size i.
  induction shape as [|s shape IH]; intros [|l target] i Hr Hs Ht;
    cbn in Hs, Ht; try lia.
  cbn [zip] in Hr. apply Forall_cons in Hr as [Hd Hr].
  destruct i as [|i]; [done|]. apply (IH target i); [done|lia..].
Qed.

Lemma in_exact_range_nth shape target_size i :
  in_exact_range shape target_size ->
  (i < length shape)%nat -> (i < length target_size)%nat ->
  Z.abs (nth i target_size 0 - nth i shape 0) < 2 ^ 53.
Proof.
  apply (Forall_zip_nth (fun s l => Z.abs (l - s) < 2 ^ 53)).
Qed.

(** When the loop returns, no division has overflowed. *)
Lemma pad_twoside_loop_returned (ps : list (Z * Z)) : forall acc twoside,
  for_in pad_twoside_body ps acc = Returned twoside ->
  Forall (fun '(small_size, large_size) =>
            floor_half (large_size - small_size)
            = Returned (float_floor_half (large_size - small_size))
            /\ ceil_half (large_size - small_size)
               = Returned (float_ceil_half (large_size - small_size))) ps.
Proof.
  induction ps as [|[s l] ps IH]; intros acc twoside; [by constructor|].
  cbn [for_in]. rewrite pad_twoside_body_pair.
  destruct (halves_cases (l - s)) as [[Hf _]|[Hf Hc]]; rewrite Hf; [done|].
  rewrite Hc. cbn [bind]. intros Hloop. constructor; [done|].
  by apply IH in Hloop.
Qed.

Lemma pad_twoside_returned_nth shape target_size twoside i :
  pad_twoside shape target_size = Returned twoside ->
  (i < length shape)%nat -> (i < length target_size)%nat ->
  let d := nth i target_size 0 - nth i shape 0 in
  floor_half d = Returned (float_floor_half d)
  /\ ceil_half d = Returned (float_ceil_half d).
Proof.
  intros Hp. apply pad_twoside_loop_returned in Hp.
  apply (Forall_zip_nth
           (fun s l => floor_half (l - s) = Returned (float_floor_half (l - s))
                       /\ ceil_half (l - s)
                          = Returned (float_ceil_half (l - s)))).
  done.
Qed.

(** Read the way [torch.nn.functional.pad] reads it, the reversed list
    gives dimension [i] the ceiling before and the floor after. *)
Lemma reversed_pad_entries shape target_size i :
  length shape = length target_size -> (i < length shape)%nat ->
  let pad := reversed (pad_entries shape target_size) in
  let d := nth i target_size 0 - nth i shape 0 in
  pad_before pad (length shape) i = float_ceil_half d
  /\ pad_after pad (length shape) i = float_floor_half d.
Proof.
  intros Hlen Hi. cbn zeta. unfold pad_before, pad_after, reversed.
  pose proof (length_pad_entries shape target_size) as Hl.
  rewrite <- Hlen, Nat.min_id in Hl.
  destruct (nth_pad_entries shape target_size i) as [Hf Hc]; [lia..|].
  rewrite !rev_nth by lia. rewrite Hl.
  replace (2 * length shape - S (2 * (length shape - 1 - i)))%nat
    with (2 * i + 1)%nat by lia.
  replace (2 * length shape - S (2 * (length shape - 1 - i) + 1))%nat
    with (2 * i)%nat by lia.
  done.
Qed.

Section WithTorch.
Context `{Torch}.

(** The ways out of [pad_to_size]. *)
Lemma pad_to_size_cases (t : tensor) target :
  (tuple_gt (size t) (dims_of target) = true
   /\ pad_to_size t target = Raised (ValueError (msg (size t) target)))
  \/ (size t = dims_of target /\ pad_to_size t target = Returned t)
  \/ (tuple_gt (size t) (dims_of target) = false
      /\ size t <> dims_of target
      /\ pad_twoside (size t) (dims_of target) = Raised OverflowError
      /\ pad_to_size t target = Raised OverflowError)
  \/ (tuple_gt (size t) (dims_of target) = false
      /\ size t <> dims_of target
      /\ pad_twoside (size t) (dims_of target)
         = Returned (pad_entries (size t) (dims_of target))
      /\ pad_to_size t target
         = functional_pad t
             (reversed (pad_entries (size t) (dims_of target)))).
Proof.
  unfold pad_to_size.
  destruct (tuple_gt (size t) (dims_of target)) eqn:Hgt; [by left|].
  destruct (tuple_eq (size t) (dims_of target)) eqn:Heq.
  - right; left. by apply tuple_eq_spec in Heq.
  - assert (size t <> dims_of target) as Hne.
    { intros Heq'. apply tuple_eq_spec in Heq'. congruence. }
    destruct (pad_twoside_cases (size t) (dims_of target)) as [Hp|Hp];
      rewrite Hp; cbn [bind]; [right; right; left|right; right; right];
      done.
Qed.

Lemma functional_pad_not_ValueError (t : tensor) pad m :
  functional_pad t pad <> Raised (ValueError m).
Proof. unfold functional_pad. by destruct (F_pad t pad). Qed.

Lemma pad_to_size_ValueError (t : tensor) target :
  (exists m, pad_to_size t target = Raised (ValueError m))
  <-> tuple_gt (size t) (dims_of target) = true.
Proof.
  destruct (pad_to_size_cases t target)
    as [[Hgt ->]|[[Heq ->]|[(Hgt & _ & _ & ->)|(Hgt & _ & _ & ->)]]].
  - split; [done|]. intros _. by eexists.
  - rewrite Heq, tuple_gt_irrefl. split; [by intros [? ?]|done].
  - rewrite Hgt. split; [by intros [? ?]|done].
  - rewrite Hgt. split; [|done].
    intros [m Hm]. by apply functional_pad_not_ValueError in Hm.
Qed.

(** In the exact range the halving does not overflow. *)
Lemma pad_to_size_cases_in_range (t : tensor) target :
  in_exact_range (size t) (dims_of target) ->
  (tuple_gt (size t) (dims_of target) = true
   /\ pad_to_size t target = Raised (ValueError (msg (size t) target)))
  \/ (size t = dims_of target /\ pad_to_size t target = Returned t)
  \/ (tuple_gt (size t) (dims_of target) = false
      /\ size t <> dims_of target
      /\ pad_twoside (size t) (dims_of target)
         = Returned (pad_entries (size t) (dims_of target))
      /\ pad_to_size t target
         = functional_pad t
             (reversed (pad_entries (size t) (dims_of target)))).
Proof.
  intros Hr.
  destruct (pad_to_size_cases t target)
    as [Hc|[Hc|[(_ & _ & Hp & _)|Hc]]]; [by left|by right; left| |by right; right].
  rewrite (pad_twoside_in_range _ _ Hr) in Hp. done.
Qed.
End WithTorch.

(** *** The reference tensor *)

Lemma zip_app {A B} (a a' : list A) (b b' : list B) :
  length a = length b -> zip (a ++ a') (b ++ b') = zip a b ++ zip a' b'.
Proof.
  revert b. induction a as [|x a IH]; intros [|y b] Hl; cbn in *; try done.
  rewrite IH; [done|lia].
Qed.

Lemma zip_rev {A B} (a : list A) (b : list B) :
  length a = length b -> zip (rev a) (rev b) = rev (zip a b).
Proof.
  revert b. induction a as [|x a IH]; intros [|y b] Hl; cbn in *; try done.
  rewrite zip_app by (rewrite !length_rev; lia). rewrite IH by lia. done.
Qed.

Lemma pad_pairs_app n l l' :
  length l = (2 * n)%nat -> pad_pairs (l ++ l') = pad_pairs l ++ pad_pairs l'.
Proof.
  revert l. induction n as [|n IH]; intros [|a [|b l]] Hl; cbn in Hl;
    try done; try lia.
  cbn. f_equal. apply IH. lia.
Qed.

Lemma pad_pairs_reversed shape target_size :
  pad_pairs (reversed (pad_entries shape target_size))
  = rev (amount_pairs shape target_size).
Proof.
  unfold reversed, pad_entries, amount_pairs.
  induction (zip shape target_size) as [|[s l] ps IH]; [done|].
  cbn [flat_map map rev app]. rewrite <- app_assoc.
  rewrite (pad_pairs_app (length ps)), IH; [done|].
  rewrite length_rev. clear IH.
  induction ps as [|[s' l'] ps IH]; [done|].
  cbn [flat_map length app]. rewrite IH. lia.
Qed.

Lemma add_amount_pairs shape target_size :
  length shape = length target_size ->
  in_exact_range shape target_size ->
  map (fun '(n, (before, after)) => before + n + after)
      (zip shape (amount_pairs shape target_size))
  = target_size.
Proof.
  unfold amount_pairs, in_exact_range. revert target_size.
  induction shape as [|s shape IH]; intros [|l target] Hl Hr;
    cbn [length] in Hl; try done.
  cbn [zip] in Hr. apply Forall_cons in Hr as [Hd Hr].
  cbn [zip map]. rewrite IH by (done || lia). f_equal.
  destruct (float_halves_exact (l - s) Hd) as [-> ->].
  pose proof (halves_sum (l - s)). lia.
Qed.

Lemma length_amount_pairs shape target_size :
  length shape = length target_size ->
  length (amount_pairs shape target_size) = length shape.
Proof.
  intros Hl. unfold amount_pairs. rewrite length_map, length_zip. lia.
Qed.

Lemma padded_dims_reversed shape target_size :
  length shape = length target_size ->
  in_exact_range shape target_size ->
  padded_dims shape (reversed (pad_entries shape target_size)) = target_size.
Proof.
  intros Hl Hr. unfold padded_dims, amounts.
  rewrite pad_pairs_reversed, length_rev, length_amount_pairs by done.
  rewrite Nat.sub_diag. cbn [repeat]. rewrite app_nil_r.
  rewrite zip_rev by (by rewrite length_amount_pairs).
  rewrite map_rev, rev_involutive. by apply add_amount_pairs.
Qed.

(** On the reference tensor the call to [torch.nn.functional.pad] made by
    [pad_to_size] goes through, and gives the target size, whenever the
    target has as many dimensions as the tensor, none is negative and the
    differences are in the exact range. *)
Lemma dense_pad_reversed (t : dense) target_size :
  length (dims t) = length target_size ->
  in_exact_range (dims t) target_size ->
  Forall (Z.le 0) target_size ->
  exists t',
    dense_pad t (reversed (pad_entries (dims t) target_size)) = Some t'
    /\ dims t' = target_size.
Proof.
  intros Hl Hr Hpos. unfold dense_pad.
  rewrite padded_dims_reversed by done.
  rewrite pad_pairs_reversed.
  rewrite (length_rev (amount_pairs _ _)), length_amount_pairs by done.
  unfold reversed. rewrite length_rev, length_pad_entries, <- Hl, Nat.min_id.
  assert (Nat.even (2 * length (dims t)) = true) as ->.
  { apply Nat.even_spec. by exists (length (dims t)). }
  rewrite Nat.leb_refl.
  assert (forallb (fun n => 0 <=? n) target_size = true) as ->.
  { apply forallb_forall. intros n Hn. apply Z.leb_le.
    rewrite Forall_forall in Hpos. apply Hpos. by apply list_elem_of_In. }
  cbn. by eexists.
Qed.

(** So on the reference tensor [pad_to_size] returns a tensor of the target
    size whenever it does not raise its [ValueError]: it pads where the
    target is larger and crops where it is smaller. *)
Lemma dense_pad_to_size_returns (t : dense) target :
  length (dims t) = length (dims_of target) ->
  in_exact_range (dims t) (dims_of target) ->
  Forall (Z.le 0) (dims_of target) ->
  tuple_gt (dims t) (dims_of target) = false ->
  exists t',
    pad_to_size (H := dense_torch) t target = Returned t'
    /\ dims t' = dims_of target.
Proof.
  intros Hl Hr Hpos Hgt.
  destruct (pad_to_size_cases_in_range (H := dense_torch) t target Hr)
    as [[Hgt' _]|[[Heq ->]|(_ & _ & _ & ->)]].
  - cbn in Hgt'. congruence.
  - by exists t.
  - destruct (dense_pad_reversed t (dims_of target) Hl Hr Hpos)
      as (t' & Ht' & Hd).
    exists t'. split; [|done]. unfold functional_pad.
    cbn [F_pad size tensor dense_torch]. by rewrite Ht'.
Qed.
End PaddingFacts.

(** ** The dataset *)

Create HintDb keeps.

Module NucleiDatasetFacts.
Import Py NucleiDataset.

Lemma getitem_nat {A} (l : list A) (k : nat) x :
  l !! k = Some x -> getitem l (Z.of_nat k) = Returned x.
Proof.
  intros Hk. pose proof (lookup_lt_Some _ _ _ Hk) as Hlt. unfold getitem.
  destruct (Z.ltb_spec (Z.of_nat k) 0) as [|_]; [lia|].
  destruct (Z.leb_spec 0 (Z.of_nat k)) as [_|]; [|lia].
  destruct (Z.ltb_spec (Z.of_nat k) (Z.of_nat (length l))) as [_|]; [|lia].
  cbn. by rewrite Nat2Z.id, Hk.
Qed.

Lemma setitem_nat {A} (l : list A) (k : nat) x :
  (k < length l)%nat -> setitem l (Z.of_nat k) x = Returned (<[k := x]> l).
Proof.
  intros Hlt. unfold setitem.
  destruct (Z.ltb_spec (Z.of_nat k) 0) as [|_]; [lia|].
  destruct (Z.leb_spec 0 (Z.of_nat k)) as [_|]; [|lia].
  destruct (Z.ltb_spec (Z.of_nat k) (Z.of_nat (length l))) as [_|]; [|lia].
  cbn. by rewrite Nat2Z.id.
Qed.

Lemma range_seq n : range (Z.of_nat n) = map Z.of_nat (seq 0 n).
Proof. unfold range. by rewrite Nat2Z.id. Qed.

Section WithLibs.
Context `{Libs}.

Lemma loadable_loaded_from root name :
  loadable root name <-> exists img mask, loaded_from root name img mask.
Proof.
  split.
  - intros (i0 & i1 & m0 & m1 & ? & ? & ? & ?).
    exists (inp_transforms i1), (transforms_ToTensor m1), i0, i1, m0, m1.
    auto 10.
  - intros (img & mask & i0 & i1 & m0 & m1 & ? & ? & ? & ? & ? & ?).
    exists i0, i1, m0, m1. auto.
Qed.

(** *** One iteration of the loading loop *)

Lemma load_sample_returns root names imgs masks (k : nat) name lists :
  names !! k = Some name ->
  length imgs = length names -> length masks = length names ->
  load_sample root names (imgs, masks) (Z.of_nat k) = Returned lists ->
  exists img mask,
    loaded_from root name img mask
    /\ lists = (<[k := img]> imgs, <[k := mask]> masks).
Proof.
  intros Hname Hi Hm. pose proof (lookup_lt_Some _ _ _ Hname) as Hlt.
  unfold load_sample. rewrite (getitem_nat _ _ _ Hname). cbn [bind fst snd].
  destruct (Image_open (os_path_join root name "image.tif"))
    as [i0|] eqn:Hi0; [|done]. cbn [bind].
  destruct (Image_load i0) as [i1|] eqn:Hi1; [|done]. cbn [bind].
  rewrite setitem_nat by lia. cbn [bind].
  destruct (Image_open (os_path_join root name "mask.tif"))
    as [m0|] eqn:Hm0; [|done]. cbn [bind].
  destruct (Image_load m0) as [m1|] eqn:Hm1; [|done]. cbn [bind].
  rewrite setitem_nat by lia. cbn [bind]. intros [= <-].
  exists (inp_transforms i1), (transforms_ToTensor m1). split; [|done].
  exists i0, i1, m0, m1. auto 10.
Qed.

Lemma load_sample_succeeds root names imgs masks (k : nat) name :
  names !! k = Some name ->
  length imgs = length names -> length masks = length names ->
  loadable root name ->
  exists lists, load_sample root names (imgs, masks) (Z.of_nat k)
                = Returned lists.
Proof.
  intros Hname Hi Hm (i0 & i1 & m0 & m1 & Hi0 & Hi1 & Hm0 & Hm1).
  pose proof (lookup_lt_Some _ _ _ Hname) as Hlt.
  unfold load_sample. rewrite (getitem_nat _ _ _ Hname). cbn [bind fst snd].
  rewrite Hi0. cbn [bind]. rewrite Hi1. cbn [bind].
  rewrite setitem_nat by lia. cbn [bind].
  rewrite Hm0. cbn [bind]. rewrite Hm1. cbn [bind].
  rewrite setitem_nat by lia. cbn [bind]. by eexists.
Qed.

Lemma filled_step root names k name imgs masks img mask :
  names !! k = Some name ->
  filled root names k (imgs, masks) ->
  loaded_from root name img mask ->
  filled root names (S k) (<[k := img]> imgs, <[k := mask]> masks).
Proof.
  intros Hname (Hi & Hm & Hk) Hload. cbn [fst snd] in *.
  pose proof (lookup_lt_Some _ _ _ Hname) as Hlt.
  split_and!; cbn [fst snd]; [by rewrite length_insert..|].
  intros i name' Hlt' Hname'. destruct (decide (i = k)) as [->|Hne].
  - exists img, mask. rewrite !list_lookup_insert_eq by lia.
    split_and!; [done..|]. congruence.
  - rewrite !list_lookup_insert_ne by done. apply Hk; [lia|done].
Qed.

Lemma loop_returns root names m : forall k lists lists',
  (k + m = length names)%nat ->
  filled root names k lists ->
  for_each (load_sample root names) (map Z.of_nat (seq k m)) lists
    = Returned lists' ->
  filled root names (length names) lists'.
Proof.
  induction m as [|m IH]; intros k [imgs masks] lists' Hkm Hfill.
  - cbn. intros [= <-]. by replace (length names) with k by lia.
  - cbn [seq map for_each].
    destruct (lookup_lt_is_Some_2 names k) as [name Hname]; [lia|].
    destruct (load_sample root names (imgs, masks) (Z.of_nat k))
      as [lists|] eqn:Hstep; [|done]. cbn [bind].
    destruct Hfill as (Hi & Hm & Hk).
    destruct (load_sample_returns _ _ _ _ _ _ _ Hname Hi Hm Hstep)
      as (img & mask & Hload & ->).
    apply IH; [lia|]. by apply (filled_step _ _ _ name).
Qed.

Lemma loop_succeeds root names m : forall k lists,
  (k + m = length names)%nat ->
  (forall name, name ∈ names -> loadable root name) ->
  filled root names k lists ->
  exists lists',
    for_each (load_sample root names) (map Z.of_nat (seq k m)) lists
      = Returned lists'.
Proof.
  induction m as [|m IH]; intros k [imgs masks] Hkm Hall Hfill.
  - cbn. by eexists.
  - cbn [seq map for_each].
    destruct (lookup_lt_is_Some_2 names k) as [name Hname]; [lia|].
    destruct Hfill as (Hi & Hm & Hk).
    destruct (load_sample_succeeds root names imgs masks k name)
      as [lists Hstep]; [done..| |].
    { apply Hall. by eapply list_elem_of_lookup_2. }
    rewrite Hstep. cbn [bind].
    destruct (load_sample_returns _ _ _ _ _ _ _ Hname Hi Hm Hstep)
      as (img & mask & Hload & ->).
    apply IH; [lia|done|]. by apply (filled_step _ _ _ name).
Qed.

Lemma filled_start root names :
  filled root names 0
    (replicate (length names) PyNone, replicate (length names) PyNone).
Proof.
  split_and!; cbn [fst snd]; [by rewrite length_replicate..|]. lia.
Qed.

(** *** The constructor *)

Lemma init_returns root tr itr d :
  __init__ root tr itr = Returned d ->
  os_listdir root = Returned (samples d)
  /\ root_dir d = root /\ transform d = tr /\ img_transform d = itr
  /\ aligned d.
Proof.
  unfold __init__. destruct (os_listdir root) as [names|]; [|done].
  cbn [bind]. rewrite range_seq.
  destruct (for_each _ _ _) as [lists|] eqn:Hloop; [|done].
  cbn [bind]. intros [= <-]. cbn. split_and!; try done.
  apply (loop_returns root names (length names) 0) in Hloop;
    [|done|apply filled_start].
  destruct Hloop as (Hi & Hm & Hk).
  unfold aligned. cbn. split_and!; [congruence|done|].
  intros i name Hname. apply Hk; [|done]. by eapply lookup_lt_Some.
Qed.

Lemma init_succeeds root tr itr names :
  os_listdir root = Returned names ->
  (forall name, name ∈ names -> loadable root name) ->
  exists d, __init__ root tr itr = Returned d.
Proof.
  intros Hls Hall. unfold __init__. rewrite Hls. cbn [bind].
  rewrite range_seq.
  destruct (loop_succeeds root names (length names) 0
              (replicate (length names) PyNone,
               replicate (length names) PyNone))
    as [lists ->]; [done|done|apply filled_start|].
  cbn [bind]. by eexists.
Qed.

(** *** The methods leave the instance alone *)

Lemma keeps_self_ret {A} (a : A) : keeps_self (ret a).
Proof. done. Qed.

Lemma keeps_self_lift {A} (o : outcome A) : keeps_self (lift o).
Proof. done. Qed.

Lemma keeps_self_attr {A} (field : dataset -> A) : keeps_self (attr field).
Proof. done. Qed.

Lemma keeps_self_torch_seed : keeps_self torch_seed.
Proof. intros h. unfold torch_seed. by destruct (fresh_seed _). Qed.

Lemma keeps_self_torch_manual_seed seed :
  keeps_self (torch_manual_seed seed).
Proof. done. Qed.

Lemma keeps_self_call f x : keeps_self (call f x).
Proof. intros h. unfold call. by destruct (f x _). Qed.

Lemma keeps_self_mbind {A B} (m : M A) (k : A -> M B) :
  keeps_self m -> (forall a, keeps_self (k a)) -> keeps_self (mbind m k).
Proof.
  intros Hm Hk h. unfold mbind. specialize (Hm h).
  destruct (m h) as [[a|e] h']; cbn in *; [|done].
  by rewrite Hk.
Qed.

#[local] Hint Resolve keeps_self_ret keeps_self_lift keeps_self_attr
  keeps_self_torch_seed keeps_self_torch_manual_seed keeps_self_call
  : keeps.

Ltac keeps :=
  repeat first
    [ apply keeps_self_mbind; [|intros ?]
    | match goal with |- keeps_self (match ?x with _ => _ end) =>
        destruct x end
    | solve [auto with keeps] ].

Lemma keeps_self_len : keeps_self __len__.
Proof. unfold __len__. keeps. Qed.

Lemma keeps_self_getitem idx : keeps_self (__getitem__ idx).
Proof. unfold __getitem__. keeps. Qed.

Lemma perform_self op h : self (perform op h) = self h.
Proof.
  destruct op; cbn; [apply keeps_self_len|apply keeps_self_getitem].
Qed.

Lemma perform_all_self ops h :
  self (fold_left (fun h op => perform op h) ops h) = self h.
Proof.
  revert h. induction ops as [|op ops IH]; intros h; [done|].
  cbn. by rewrite IH, perform_self.
Qed.
End WithLibs.

End NucleiDatasetFacts.

(** ** Normalization *)

Module NormalizationFacts.
Import Normalization.

Lemma unnormalize_normalized (x : Q) :
  ((((x - (1 # 2)) / (1 # 2)) + 1) / 2 == x)%Q.
Proof. field. Qed.

End NormalizationFacts.

(** * The properties of the specification *)

Import Py PyNum ReceptiveField ReceptiveFieldMore ReceptiveFieldPy.
Import Padding NucleiDataset Normalization.
Import FloatFacts PyNumFacts ReceptiveFieldFacts ReceptiveFieldMoreFacts.
Import ReceptiveFieldPyFacts PaddingFacts NucleiDatasetFacts.
Import NormalizationFacts.




(** C3. [compute_receptive_field(1, 3, 2)] is 5, which is [1 + 2*(3-1)], and
    neither the encoder loop nor the decoder loop runs an iteration. On
    Python numbers the result is the [int] 5: no division is made. *)
Theorem compute_receptive_field_depth_one :
  compute_receptive_field 1 3 2 = 5%Q
  /\ (5 == 1 + 2 * (3 - 1))%Q
  /\ encoder_layers 1 = []
  /\ decoder_layers 1 = []
  /\ compute_receptive_field_py 1 (Int 3) (Int 2) = Returned (Int 5).
Proof. split_and!; reflexivity. Qed.

(** C1. At a tensor of shape (1,4,4) and the target (2,3,3) the target is
    smaller in the last two dimensions, yet [pad_to_size] raises no
    [ValueError]: the shapes are compared as tuples, the first dimension
    settles the comparison, and [torch.nn.functional.pad] is called with
    negative amounts, which crop the tensor to (2,3,3). *)
Theorem pad_to_size_smaller_target_not_refused :
  let t := ones [1; 4; 4] in
  let target := Tuple [2; 3; 3] in
  nth 1 (dims_of target) 0 < nth 1 (dims t) 0
  /\ nth 2 (dims_of target) 0 < nth 2 (dims t) 0
  /\ pad_to_size (H := dense_torch) t target
     = functional_pad (H := dense_torch) t [0; -1; 0; -1; 1; 0]
  /\ (forall m, pad_to_size (H := dense_torch) t target
                <> Raised (ValueError m))
  /\ exists t', pad_to_size (H := dense_torch) t target = Returned t'
                /\ dims t' = [2; 3; 3].
Proof.
  cbn zeta. split_and!; [done|done|reflexivity|done|].
  eexists. split; reflexivity.
Qed.

(** C4 (counterexample). A tensor of shape (1) and the target (2^53 + 2):
    the dimension is not larger than the target's, the difference is
    [2^53 + 1], and its half is not a float. The division rounds it to
    [2^52], so both amounts are [2^52]: the second is not the ceiling
    [2^52 + 1] of the half, the two do not make up the difference, and the
    call to [torch.nn.functional.pad] asks for the size [2^53 + 1] instead
    of the target. *)
Lemma pad_to_size_floor_ceil_rounded :
  Forall2 Z.le [1] [2 ^ 53 + 2]
  /\ pad_twoside [1] [2 ^ 53 + 2] = Returned [2 ^ 52; 2 ^ 52]
  /\ exact_floor_half (2 ^ 53 + 2 - 1) = 2 ^ 52
  /\ exact_ceil_half (2 ^ 53 + 2 - 1) = 2 ^ 52 + 1
  /\ 2 ^ 52 + 2 ^ 52 < 2 ^ 53 + 2 - 1
  /\ (forall `{Torch} (t : tensor), size t = [1] ->
        pad_to_size t (Tuple [2 ^ 53 + 2])
        = functional_pad t [2 ^ 52; 2 ^ 52])
  /\ padded_dims [1] [2 ^ 52; 2 ^ 52] = [2 ^ 53 + 1].
Proof.
  assert (pad_twoside [1] [2 ^ 53 + 2] = Returned [2 ^ 52; 2 ^ 52]) as Hpad
    by (by vm_compute).
  split_and!; [|done|by vm_compute..| |by vm_compute].
  - repeat constructor. by vm_compute.
  - intros H t Ht. unfold pad_to_size. rewrite Ht. cbn [dims_of].
    assert (tuple_gt [1] [2 ^ 53 + 2] = false) as -> by (by vm_compute).
    assert (tuple_eq [1] [2 ^ 53 + 2] = false) as -> by (by vm_compute).
    by rewrite Hpad.
Qed.

(** C4. When no dimension of the tensor is larger than the same dimension of
    the target and every difference is below [2^53], [pad_to_size] either
    finds the sizes equal and returns the tensor, or calls
    [torch.nn.functional.pad] with, for every dimension, the ceiling of half
    the difference on one side and its floor on the other, which together
    make up the difference. A tensor of shape (1,4,4) padded to (1,6,6) gets
    (1,1) on both spatial dimensions: the amounts (1,1,1,1), followed by
    (0,0) for the first dimension. *)
Theorem pad_to_size_floor_ceil `{Torch} (t : tensor) (target : size_arg) :
  Forall2 Z.le (size t) (dims_of target) ->
  in_exact_range (size t) (dims_of target) ->
  ((size t = dims_of target /\ pad_to_size t target = Returned t)
   \/ (size t <> dims_of target
       /\ exists twoside,
            pad_twoside (size t) (dims_of target) = Returned twoside
            /\ let pad := reversed twoside in
               pad_to_size t target = functional_pad t pad
               /\ forall i, (i < length (size t))%nat ->
                    let d := nth i (dims_of target) 0 - nth i (size t) 0 in
                    pad_before pad (length (size t)) i = exact_ceil_half d
                    /\ pad_after pad (length (size t)) i = exact_floor_half d
                    /\ 0 <= exact_floor_half d <= exact_ceil_half d
                    /\ exact_floor_half d + exact_ceil_half d = d))
  /\ (forall t0 : tensor, size t0 = [1; 4; 4] ->
        pad_to_size t0 (Tuple [1; 6; 6])
        = functional_pad t0 ([1; 1; 1; 1] ++ [0; 0]))
  /\ (forall values,
        dense_pad (mk_dense [1; 4; 4] values) ([1; 1; 1; 1] ++ [0; 0])
        = dense_pad (mk_dense [1; 4; 4] values) [1; 1; 1; 1]).
Proof.
  intros Hle Hr. split_and!; [| |reflexivity].
  - destruct (pad_to_size_cases_in_range t target Hr)
      as [[Hgt _]|[[Heq Hret]|(_ & Hne & Hp & Hpad)]].
    + by rewrite tuple_gt_pointwise_le in Hgt.
    + by left.
    + right. split; [done|].
      exists (pad_entries (size t) (dims_of target)).
      split; [done|]. cbn zeta. split; [done|]. intros i Hi.
      pose proof (Forall2_length _ _ _ Hle) as Hlen.
      destruct (reversed_pad_entries (size t) (dims_of target) i Hlen Hi)
        as [Hb Ha].
      destruct (float_halves_exact
                  (nth i (dims_of target) 0 - nth i (size t) 0))
        as [Hfl Hce].
      { apply in_exact_range_nth; [done|done|lia]. }
      rewrite Hfl in Ha. rewrite Hce in Hb.
      split_and!; [done|done| | |apply halves_sum].
      * apply halves_nonneg.
        destruct (lookup_lt_is_Some_2 (size t) i Hi) as [x Hx].
        destruct (Forall2_lookup_l _ _ _ _ _ Hle Hx) as (y & Hy & Hxy).
        rewrite (nth_lookup_Some _ _ _ _ Hx), (nth_lookup_Some _ _ _ _ Hy).
        lia.
      * apply halves_close.
  - intros t0 Ht0. unfold pad_to_size. rewrite Ht0. cbn [dims_of].
    assert (tuple_gt [1; 4; 4] [1; 6; 6] = false) as -> by reflexivity.
    assert (tuple_eq [1; 4; 4] [1; 6; 6] = false) as -> by reflexivity.
    assert (pad_twoside [1; 4; 4] [1; 6; 6] = Returned [0; 0; 1; 1; 1; 1])
      as -> by (by vm_compute).
    reflexivity.
Qed.

Lemma pad_to_size_floor_ceil_witness :
  Forall2 Z.le [1; 4; 5] [1; 7; 6]
  /\ in_exact_range [1; 4; 5] [1; 7; 6]
  /\ exists t',
       pad_to_size (H := dense_torch) (ones [1; 4; 5]) (Tuple [1; 7; 6])
       = Returned t'
       /\ dims t' = [1; 7; 6]
       /\ pad_before [1; 0; 2; 1; 0; 0] 3 1 = exact_ceil_half 3
       /\ pad_after [1; 0; 2; 1; 0; 0] 3 1 = exact_floor_half 3.
Proof.
  assert (Forall2 Z.le [1; 4; 5] [1; 7; 6]) as Hle
    by (repeat constructor; cbn; lia).
  assert (in_exact_range [1; 4; 5] [1; 7; 6]) as Hr
    by (repeat constructor).
  split; [exact Hle|]. split; [exact Hr|].
  destruct (pad_to_size_floor_ceil (H := dense_torch)
              (ones [1; 4; 5]) (Tuple [1; 7; 6]) Hle Hr)
    as [[[Heq _]|(_ & twoside & Htwo & Hpad)] _].
  - discriminate Heq.
  - assert (twoside = [0; 0; 1; 2; 0; 1]) as ->.
    { assert (pad_twoside [1; 4; 5] [1; 7; 6] = Returned [0; 0; 1; 2; 0; 1])
        as Hc by (by vm_compute).
      cbn [size dense_torch dims ones dims_of] in Htwo.
      rewrite Hc in Htwo. by injection Htwo. }
    cbn zeta in Hpad. destruct Hpad as [Hcall Hdims].
    destruct (Hdims 1%nat) as (Hb & Ha & _); [cbn; lia|].
    eexists. split; [rewrite Hcall; reflexivity|].
    split; [reflexivity|]. split; [exact Hb|exact Ha].
Defined.

(** C5 (counterexample). A tensor of shape (1,4) and the target (2,-1): the
    first dimension is smaller than the target's, the second is larger, and
    an error is raised all the same. No [ValueError]: the amounts (-2,-3)
    computed for the second dimension go to [torch.nn.functional.pad], which
    cannot crop 4 elements by 5 and raises a [RuntimeError]. With the target
    (2, -2^1025) the half of the difference is too large for a float, and
    [pad_to_size] raises an [OverflowError] before it calls anything. *)
Lemma pad_to_size_later_dimension_raises :
  1 < 2 /\ -1 < 4
  /\ pad_twoside [1; 4] [2; -1] = Returned [0; 1; -3; -2]
  /\ pad_to_size (H := dense_torch) (ones [1; 4]) (Tuple [2; -1])
     = Raised RuntimeError
  /\ (forall `{Torch} (t : tensor), size t = [1; 4] ->
        pad_to_size t (Tuple [2; - 2 ^ 1025]) = Raised OverflowError).
Proof.
  split_and!; [done|done|by vm_compute|by vm_compute|].
  intros H t Ht. unfold pad_to_size. rewrite Ht. cbn [dims_of].
  assert (tuple_gt [1; 4] [2; - 2 ^ 1025] = false) as -> by (by vm_compute).
  assert (tuple_eq [1; 4] [2; - 2 ^ 1025] = false) as -> by (by vm_compute).
  assert (pad_twoside [1; 4] [2; - 2 ^ 1025] = Raised OverflowError) as ->
    by (by vm_compute).
  done.
Qed.

(** C5. [pad_to_size] raises its [ValueError] exactly when the shape of the
    tensor is greater than the target size in the lexicographic order of
    tuples. When the shape is smaller than the target at the first dimension
    where they differ, a later dimension that is larger than the target's
    raises no [ValueError]. Either a division overflows, or the function
    goes on to [torch.nn.functional.pad], whose outcome is its own, and the
    two amounts passed for that dimension are a negative floor and a ceiling
    that is not positive. With every difference below [2^53] in magnitude
    there is no overflow and the two amounts are the floor and the ceiling
    of half the difference, with the negative difference as their sum. On
    the reference tensor the call then returns whenever the target has the
    rank of the tensor, no negative dimension, and is not lexicographically
    smaller: the result has the target size, cropped where the target is
    smaller. *)
Theorem pad_to_size_lexicographic `{Torch} (t : tensor) (target : size_arg) :
  ((exists m, pad_to_size t target = Raised (ValueError m))
   <-> lex_greater (size t) (dims_of target))
  /\ (forall prefix x y a b (j : nat),
        size t = prefix ++ x :: a ->
        dims_of target = prefix ++ y :: b ->
        x < y ->
        (j < length a)%nat -> (j < length b)%nat ->
        nth j b 0 < nth j a 0 ->
        let i := (length prefix + 1 + j)%nat in
        let d := nth j b 0 - nth j a 0 in
        (forall m, pad_to_size t target <> Raised (ValueError m))
        /\ (pad_to_size t target = Raised OverflowError
            \/ exists twoside,
                 pad_twoside (size t) (dims_of target) = Returned twoside
                 /\ pad_to_size t target
                    = functional_pad t (reversed twoside)
                 /\ floor_half d = Returned (nth (2 * i) twoside 0)
                 /\ ceil_half d = Returned (nth (2 * i + 1) twoside 0)
                 /\ nth (2 * i) twoside 0 < 0
                 /\ nth (2 * i + 1) twoside 0 <= 0)
        /\ (in_exact_range (size t) (dims_of target) ->
            exists twoside,
              pad_twoside (size t) (dims_of target) = Returned twoside
              /\ pad_to_size t target = functional_pad t (reversed twoside)
              /\ nth (2 * i) twoside 0 = exact_floor_half d
              /\ nth (2 * i + 1) twoside 0 = exact_ceil_half d
              /\ nth (2 * i) twoside 0 < 0
              /\ nth (2 * i + 1) twoside 0 <= 0
              /\ nth (2 * i) twoside 0 + nth (2 * i + 1) twoside 0 = d))
  /\ (forall (t0 : dense) target0,
        length (dims t0) = length (dims_of target0) ->
        in_exact_range (dims t0) (dims_of target0) ->
        Forall (Z.le 0) (dims_of target0) ->
        ~ lex_greater (dims t0) (dims_of target0) ->
        exists t',
          pad_to_size (H := dense_torch) t0 target0 = Returned t'
          /\ dims t' = dims_of target0).
Proof.
  split_and!.
  - rewrite pad_to_size_ValueError. apply tuple_gt_lex.
  - intros prefix x y a b j Hs Ht Hxy Hja Hjb Hlater. cbn zeta.
    assert (tuple_gt (size t) (dims_of target) = false) as Hgt
      by (rewrite Hs, Ht; by apply tuple_gt_smaller_first).
    assert (size t <> dims_of target) as Hne.
    { rewrite Hs, Ht. intros Heq. apply app_inv_head in Heq.
      injection Heq. lia. }
    destruct (nth_pad_entries (size t) (dims_of target)
                (length prefix + 1 + j)) as [Hf Hc].
    { rewrite Hs, length_app. cbn. lia. }
    { rewrite Ht, length_app. cbn. lia. }
    assert (nth (length prefix + 1 + j) (size t) 0 = nth j a 0) as Hna.
    { rewrite Hs, app_nth2 by lia.
      by replace (length prefix + 1 + j - length prefix)%nat
        with (S j) by lia. }
    assert (nth (length prefix + 1 + j) (dims_of target) 0 = nth j b 0) as Hnb.
    { rewrite Ht, app_nth2 by lia.
      by replace (length prefix + 1 + j - length prefix)%nat
        with (S j) by lia. }
    rewrite Hna, Hnb in Hf, Hc.
    destruct (float_halves_negative (nth j b 0 - nth j a 0))
      as [Hneg Hnpos]; [lia|].
    split_and!.
    + intros m Hm.
      assert (tuple_gt (size t) (dims_of target) = true); [|congruence].
      apply pad_to_size_ValueError. by exists m.
    + destruct (pad_to_size_cases t target)
        as [[Hgt' _]|[[Heq _]|[(_ & _ & _ & Hov)|(_ & _ & Hp & Hcall)]]];
        [congruence|done|by left|right].
      exists (pad_entries (size t) (dims_of target)).
      destruct (pad_twoside_returned_nth (size t) (dims_of target) _
                  (length prefix + 1 + j) Hp) as [Hfr Hcr].
      { rewrite Hs, length_app. cbn. lia. }
      { rewrite Ht, length_app. cbn. lia. }
      rewrite Hna, Hnb in Hfr, Hcr.
      rewrite Hf, Hc. split_and!; done.
    + intros Hr.
      destruct (pad_to_size_cases_in_range t target Hr)
        as [[Hgt' _]|[[Heq _]|(_ & _ & Hp & Hcall)]]; [congruence|done|].
      exists (pad_entries (size t) (dims_of target)).
      destruct (float_halves_exact (nth j b 0 - nth j a 0)) as [Hfl Hce].
      { rewrite <- Hna, <- Hnb. apply in_exact_range_nth; [done|..].
        - rewrite Hs, length_app. cbn. lia.
        - rewrite Ht, length_app. cbn. lia. }
      rewrite Hf, Hc.
      pose proof (halves_sum (nth j b 0 - nth j a 0)) as Hsum.
      rewrite <- Hfl, <- Hce in Hsum. split_and!; done.
  - intros t0 target0 Hl Hr Hpos Hlex.
    apply dense_pad_to_size_returns; [done..|].
    apply not_true_is_false. by rewrite tuple_gt_lex.
Qed.

Lemma pad_to_size_lexicographic_witness :
  dims (ones [1; 4; 4]) = [] ++ 1 :: [4; 4]
  /\ dims_of (Tuple [2; 3; 3]) = [] ++ 2 :: [3; 3]
  /\ 1 < 2
  /\ nth 0 [3; 3] 0 < nth 0 [4; 4] 0
  /\ in_exact_range [1; 4; 4] [2; 3; 3]
  /\ exists twoside,
       pad_twoside [1; 4; 4] [2; 3; 3] = Returned twoside
       /\ pad_to_size (H := dense_torch) (ones [1; 4; 4]) (Tuple [2; 3; 3])
          = functional_pad (H := dense_torch) (ones [1; 4; 4])
              (reversed twoside)
       /\ nth 2 twoside 0 < 0
       /\ nth 3 twoside 0 <= 0.
Proof.
  assert (1 < 2) as Hfirst by lia.
  assert (nth 0 [3; 3] 0 < nth 0 [4; 4] 0) as Hlater by (cbn; lia).
  assert (in_exact_range [1; 4; 4] [2; 3; 3]) as Hr by (repeat constructor).
  split; [reflexivity|]. split; [reflexivity|].
  split; [exact Hfirst|]. split; [exact Hlater|]. split; [exact Hr|].
  destruct (pad_to_size_lexicographic (H := dense_torch)
              (ones [1; 4; 4]) (Tuple [2; 3; 3])) as (_ & Hrest & _).
  destruct (Hrest [] 1 2 [4; 4] [3; 3] 0%nat eq_refl eq_refl Hfirst)
    as (_ & _ & Hexact); [cbn; lia|cbn; lia|exact Hlater|].
  destruct (Hexact Hr) as (twoside & Htwo & Hcall & _ & _ & Hfloor & Hceil & _).
  exists twoside. split; [exact Htwo|]. split; [exact Hcall|].
  split; [exact Hfloor|exact Hceil].
Defined.

(** C9. Padding a tensor to its own size returns that tensor, whether the
    size is passed as the [torch.Size] itself or as a tuple. *)
Theorem pad_to_size_own_size `{Torch} (t : tensor) :
  pad_to_size t (Size (size t)) = Returned t
  /\ pad_to_size t (Tuple (size t)) = Returned t.
Proof.
  unfold pad_to_size. cbn [dims_of]. rewrite tuple_gt_irrefl.
  assert (tuple_eq (size t) (size t) = true) as ->; [|done].
  by apply tuple_eq_spec.
Qed.


(** C6. A dataset that [__init__] returns has as many images as masks, one
    of each per listed sample, and at every index the image comes from
    [image.tif] and the mask from [mask.tif] of the same sample
    subdirectory. [__len__] and [__getitem__], in any number and order,
    leave the instance as it was, and with it this alignment. *)
Theorem dataset_aligned `{Libs} root tr itr (d : dataset) :
  __init__ root tr itr = Returned d ->
  aligned d
  /\ forall (ops : list operation) g e,
       let h := fold_left (fun h op => perform op h) ops (mk_heap d g e) in
       self h = d /\ aligned (self h).
Proof.
  intros Hinit. destruct (init_returns _ _ _ _ Hinit) as (_ & _ & _ & _ & Hal).
  split; [done|]. intros ops g e. cbn zeta.
  rewrite perform_all_self. done.
Qed.

Lemma dataset_aligned_witness :
  __init__ (H := Example.libs) "nuclei_train_data" None None
  = Returned (Example.two_samples None)
  /\ aligned (Example.two_samples None)
  /\ forall (ops : list operation) g e,
       let h := fold_left (fun h op => perform op h) ops
                  (mk_heap (Example.two_samples None) g e) in
       self h = Example.two_samples None /\ aligned (self h).
Proof.
  assert (__init__ (H := Example.libs) "nuclei_train_data" None None
          = Returned (Example.two_samples None)) as Hinit by reflexivity.
  split; [exact Hinit|].
  exact (dataset_aligned (H := Example.libs) _ _ _ _ Hinit).
Defined.

(** C7. With a paired transform, [__getitem__] applies it to the image and
    to the mask from the same generator state, the one the drawn seed puts
    the generator in: the generator is seeded with that seed right before
    each of the two applications. The image-only transform, if any, runs
    after both. *)
Theorem getitem_same_seed `{Libs} (d : dataset) (f : callable) idx g e
    (image0 mask0 : obj) :
  transform d = Some f ->
  getitem (loaded_imgs d) idx = Returned image0 ->
  getitem (loaded_masks d) idx = Returned mask0 ->
  let seed := fst (fresh_seed e) in
  let image1 := fst (f image0 (seeded seed)) in
  let mask1 := fst (f mask0 (seeded seed)) in
  let g1 := snd (f mask0 (seeded seed)) in
  fst (__getitem__ idx (mk_heap d g e))
  = Returned (match img_transform d with
              | Some it => fst (it image1 g1)
              | None => image1
              end, mask1).
Proof.
  intros Htr Himg Hmask. cbn zeta.
  unfold __getitem__, mbind, attr, lift, ret, torch_seed, torch_manual_seed,
    call. cbn [self generator entropy_source fst snd].
  rewrite Himg, Hmask, Htr. cbn [self generator entropy_source fst snd].
  destruct (fresh_seed e) as [seed e'].
  cbn [self generator entropy_source fst snd].
  destruct (f image0 (seeded seed)) as [image1 g0].
  cbn [self generator entropy_source fst snd].
  destruct (f mask0 (seeded seed)) as [mask1 g1].
  cbn [self generator entropy_source fst snd].
  destruct (img_transform d) as [it|]; [|done].
  cbn [self generator entropy_source fst snd].
  by destruct (it image1 g1).
Qed.

Lemma getitem_same_seed_witness :
  let d := Example.two_samples (Some Example.random_flip) in
  transform d = Some Example.random_flip
  /\ getitem (loaded_imgs d) 1
     = Returned (Some "normalized gray nuclei_train_data/s2/image.tif"%string)
  /\ getitem (loaded_masks d) 1
     = Returned (Some "nuclei_train_data/s2/mask.tif"%string)
  /\ fst (__getitem__ (H := Example.libs) 1 (mk_heap d 7 4))
     = Returned
         (Some "flipped normalized gray nuclei_train_data/s2/image.tif"%string,
          Some "flipped nuclei_train_data/s2/mask.tif"%string).
Proof.
  cbn zeta. split; [reflexivity|]. split; [reflexivity|].
  split; [reflexivity|].
  exact (getitem_same_seed (H := Example.libs)
           (Example.two_samples (Some Example.random_flip))
           Example.random_flip 1 7 4 _ _ eq_refl eq_refl eq_refl).
Defined.

(** C8. Over a root directory whose [N] entries are all sample
    subdirectories, each with an [image.tif] and a [mask.tif] that load, the
    constructor returns a dataset, and [__len__] of it is [N]. *)
Theorem dataset_len `{Libs} root tr itr (names : list string) :
  os_listdir root = Returned names ->
  (forall name, name ∈ names -> loadable root name) ->
  exists d : dataset,
    __init__ root tr itr = Returned d
    /\ forall g e,
         fst (__len__ (mk_heap d g e)) = Returned (Z.of_nat (length names)).
Proof.
  intros Hls Hall.
  destruct (init_succeeds root tr itr names Hls Hall) as [d Hd].
  exists d. split; [done|]. intros g e.
  destruct (init_returns _ _ _ _ Hd) as (Hls' & _).
  rewrite Hls in Hls'. injection Hls' as ->. done.
Qed.

Lemma dataset_len_witness :
  os_listdir (Libs := Example.libs) "nuclei_train_data"
  = Returned ["s1"; "s2"]%string
  /\ (forall name, loadable (H := Example.libs) "nuclei_train_data" name)
  /\ exists d : dataset (H := Example.libs),
       __init__ "nuclei_train_data" None None = Returned d
       /\ forall g e, fst (__len__ (mk_heap d g e)) = Returned 2.
Proof.
  assert (forall name, loadable (H := Example.libs) "nuclei_train_data" name)
    as Hall.
  { intros name. unfold loadable. cbn. do 4 eexists. repeat split. }
  split; [reflexivity|]. split; [exact Hall|].
  exact (dataset_len (H := Example.libs) "nuclei_train_data" None None
           ["s1"; "s2"]%string eq_refl (fun name _ => Hall name)).
Defined.

(** C10. [unnormalize] undoes the normalization applied when the images are
    loaded: on every element, [unnormalize((x - 0.5) / 0.5)] is [x], in exact
    rational arithmetic. *)
Theorem unnormalize_load_time_normalize (t : elements) :
  Forall2 Qeq (unnormalize (load_time_normalize t)) t
  /\ forall x : Q,
       Forall2 Qeq (unnormalize [((x - (1 # 2)) / (1 # 2))%Q]) [x].
Proof.
  split.
  - unfold unnormalize, load_time_normalize, Normalize, div_scalar,
      add_scalar, sub_scalar.
    induction t as [|x t IH]; cbn [map]; constructor; [|done].
    apply unnormalize_normalized.
  - intros x. repeat constructor. cbn. apply unnormalize_normalized.
Qed.

(** * Further properties of the code *)

(** ** The receptive field *)


(** X1. For a downsampling factor [f] other than zero the loops of
    [compute_receptive_field] add up to
    [f^n * (1 + 2(k-1)(n+1)) + 2(k-1)(1 + f + ... + f^(n-1))], where [k] is
    the kernel size and [n = depth - 1] the number of downsampling
    levels ([n = 0] for a depth below 1). *)
Theorem compute_receptive_field_closed_form
    (depth : Z) (kernel_size downsample_factor : Q) :
  ~ (downsample_factor == 0)%Q ->
  (compute_receptive_field depth kernel_size downsample_factor
   == closed_form kernel_size downsample_factor (Z.to_nat (depth - 1)))%Q.
Proof.
  intros Hf. rewrite compute_receptive_field_unrolled.
  by apply unrolled_closed_form.
Qed.

Lemma compute_receptive_field_closed_form_witness :
  ~ (2 == 0)%Q
  /\ (compute_receptive_field 4 3 2 == closed_form 3 2 3)%Q
  /\ (closed_form 3 2 3 == 164)%Q.
Proof.
  assert (~ (2 == 0)%Q) as Hf by lra.
  split; [exact Hf|].
  split; [exact (compute_receptive_field_closed_form 4 3 2 Hf)|reflexivity].
Defined.

(** X2. For an integer kernel size and downsampling factor of at least 1
    whose closed form is below [2^53], [compute_receptive_field] returns
    that whole number, although the decoder loop computes it with true
    division: as an [int] when the depth is at most 1 and no division is
    made, as a [float] otherwise. It is the value of the function read over
    exact rationals. *)
Theorem compute_receptive_field_whole_number
    (depth kernel_size downsample_factor : Z) :
  1 <= kernel_size -> 1 <= downsample_factor ->
  closed_form_int kernel_size downsample_factor (Z.to_nat (depth - 1))
    < 2 ^ 53 ->
  exists v x,
    compute_receptive_field_py depth (Int kernel_size)
      (Int downsample_factor) = Returned v
    /\ exact v x
    /\ x = closed_form_int kernel_size downsample_factor
             (Z.to_nat (depth - 1))
    /\ (inject_Z x
        == compute_receptive_field depth (inject_Z kernel_size)
             (inject_Z downsample_factor))%Q
    /\ is_float v = (2 <=? depth).
Proof.
  intros Hk Hf Hb.
  destruct (compute_receptive_field_py_exact depth kernel_size
              downsample_factor Hk Hf Hb) as (v & Hv & Hx & Hkind).
  exists v, (closed_form_int kernel_size downsample_factor
               (Z.to_nat (depth - 1))).
  split_and!; [done..| |done].
  rewrite compute_receptive_field_unrolled.
  symmetry. apply closed_form_int_unrolled. lia.
Qed.

Lemma compute_receptive_field_whole_number_witness :
  1 <= 3 /\ 1 <= 2 /\ closed_form_int 3 2 (Z.to_nat (4 - 1)) < 2 ^ 53
  /\ exists v x,
       compute_receptive_field_py 4 (Int 3) (Int 2) = Returned v
       /\ exact v x
       /\ x = closed_form_int 3 2 (Z.to_nat (4 - 1))
       /\ (inject_Z x
           == compute_receptive_field 4 (inject_Z 3) (inject_Z 2))%Q
       /\ is_float v = (2 <=? 4).
Proof.
  assert (1 <= 3) as Hk by lia.
  assert (1 <= 2) as Hf by lia.
  assert (closed_form_int 3 2 (Z.to_nat (4 - 1)) < 2 ^ 53) as Hb
    by reflexivity.
  split; [exact Hk|]. split; [exact Hf|]. split; [exact Hb|].
  exact (compute_receptive_field_whole_number 4 3 2 Hk Hf Hb).
Defined.



(** X4. Two special cases, for a depth of at least 1 and results below
    [2^53]. Without downsampling (a factor of 1) every one of the
    [2 * depth - 1] pairs of convolutions adds [2 * (kernel_size - 1)]. With
    a kernel size of 1 the convolutions add nothing and the result is the
    factor to the power [depth - 1]. *)
Theorem compute_receptive_field_special_cases
    (depth kernel_size downsample_factor : Z) :
  1 <= depth ->
  (1 <= kernel_size ->
   1 + 2 * (kernel_size - 1) * (2 * depth - 1) < 2 ^ 53 ->
   exists v,
     compute_receptive_field_py depth (Int kernel_size) (Int 1) = Returned v
     /\ exact v (1 + 2 * (kernel_size - 1) * (2 * depth - 1)))
  /\ (1 <= downsample_factor ->
      downsample_factor ^ (depth - 1) < 2 ^ 53 ->
      exists v,
        compute_receptive_field_py depth (Int 1) (Int downsample_factor)
        = Returned v
        /\ exact v (downsample_factor ^ (depth - 1))).
Proof.
  intros Hd. split.
  - intros Hk Hb.
    pose proof (closed_form_int_one_factor kernel_size
                  (Z.to_nat (depth - 1))) as Hc.
    rewrite Z2Nat.id in Hc by lia.
    replace (2 * (depth - 1) + 1) with (2 * depth - 1) in Hc by lia.
    destruct (compute_receptive_field_py_exact depth kernel_size 1)
      as (v & Hv & Hx & _); [done|lia|by rewrite Hc|].
    exists v. by rewrite <- Hc.
  - intros Hf Hb.
    pose proof (closed_form_int_one_kernel downsample_factor
                  (Z.to_nat (depth - 1))) as Hc.
    rewrite Z2Nat.id in Hc by lia.
    destruct (compute_receptive_field_py_exact depth 1 downsample_factor)
      as (v & Hv & Hx & _); [lia|done|by rewrite Hc|].
    exists v. by rewrite <- Hc.
Qed.

Lemma compute_receptive_field_special_cases_witness :
  1 <= 3
  /\ (exists v, compute_receptive_field_py 3 (Int 3) (Int 1) = Returned v
                /\ exact v 21)
  /\ (exists v, compute_receptive_field_py 3 (Int 1) (Int 2) = Returned v
                /\ exact v 4).
Proof.
  assert (1 <= 3) as Hd by lia.
  split; [exact Hd|].
  destruct (compute_receptive_field_special_cases 3 3 2 Hd) as [Hone Hk].
  split.
  - apply Hone; [lia|reflexivity].
  - apply Hk; [lia|reflexivity].
Defined.

(** X5. With an integer kernel size and factor, [compute_receptive_field]
    raises a [ZeroDivisionError] exactly when the downsampling factor is
    zero and the depth is at least 2, that is when the decoder loop runs at
    all; the only other exception it can raise is the [OverflowError] of the
    float arithmetic. *)
Theorem compute_receptive_field_zero_division
    (depth kernel_size downsample_factor : Z) :
  (compute_receptive_field_py depth (Int kernel_size) (Int downsample_factor)
   = Raised ZeroDivisionError
   <-> downsample_factor = 0 /\ 2 <= depth)
  /\ (forall e,
        compute_receptive_field_py depth (Int kernel_size)
          (Int downsample_factor) = Raised e ->
        e = ZeroDivisionError \/ e = OverflowError).
Proof.
  assert (downsample_factor <> 0 ->
          forall e,
            compute_receptive_field_py depth (Int kernel_size)
              (Int downsample_factor) = Raised e ->
            e = OverflowError) as Hnonzero.
  { intros Hf e. by apply compute_receptive_field_py_raises. }
  split; [split|].
  - intros Hraise. destruct (Z.eq_dec downsample_factor 0) as [Hz|Hnz].
    + split; [done|]. destruct (Z.le_gt_cases 2 depth) as [|Hshallow]; [done|].
      rewrite compute_receptive_field_py_shallow in Hraise by lia. done.
    + by apply Hnonzero in Hraise.
  - intros [-> Hdeep]. by apply compute_receptive_field_py_zero.
  - intros e Hraise. destruct (Z.eq_dec downsample_factor 0) as [->|Hnz].
    + destruct (Z.le_gt_cases 2 depth) as [Hdeep|Hshallow].
      * rewrite compute_receptive_field_py_zero in Hraise by done.
        left. by injection Hraise.
      * rewrite compute_receptive_field_py_shallow in Hraise by lia. done.
    + right. by apply Hnonzero.
Qed.

Lemma compute_receptive_field_zero_division_witness :
  compute_receptive_field_py 2 (Int 3) (Int 0) = Raised ZeroDivisionError
  /\ compute_receptive_field_py 1 (Int 3) (Int 0) = Returned (Int 5)
  /\ compute_receptive_field_py 1014 (Int 3) (Int 2) = Raised OverflowError.
Proof.
  split; [|split].
  - apply (compute_receptive_field_zero_division 2 3 0). split; [done|lia].
  - reflexivity.
  - by vm_compute.
Defined.

(** X6. For an image whose height and width are below [2^52] and a field of
    view that is a whole number below [2^52], [plot_receptive_field]
    computes the four bounds of the square it draws without rounding: they
    are half the width, or the height, minus and plus half the field of
    view, a square with the field of view as its side around the centre of
    the image. This is so for the field of view of every depth, kernel size
    and factor of at least 1 whose closed form is below [2^52], and the
    square is then not degenerate. *)
Theorem receptive_field_box_square (shape0 shape1 : Z) :
  0 <= shape0 < 2 ^ 52 -> 0 <= shape1 < 2 ^ 52 ->
  (forall (fov : num) (x : Z),
     0 <= x < 2 ^ 52 -> exact fov x ->
     exists b,
       receptive_field_box shape0 shape1 fov = Returned b
       /\ denotes (xmin b) ((inject_Z shape1 - inject_Z x) / 2)
       /\ denotes (xmax b) ((inject_Z shape1 + inject_Z x) / 2)
       /\ denotes (ymin b) ((inject_Z shape0 - inject_Z x) / 2)
       /\ denotes (ymax b) ((inject_Z shape0 + inject_Z x) / 2))
  /\ (forall depth kernel_size downsample_factor,
        1 <= kernel_size -> 1 <= downsample_factor ->
        closed_form_int kernel_size downsample_factor (Z.to_nat (depth - 1))
          < 2 ^ 52 ->
        exists fov x b,
          compute_receptive_field_py depth (Int kernel_size)
            (Int downsample_factor) = Returned fov
          /\ exact fov x /\ 0 < x
          /\ receptive_field_box shape0 shape1 fov = Returned b
          /\ denotes (xmin b) ((inject_Z shape1 - inject_Z x) / 2)
          /\ denotes (xmax b) ((inject_Z shape1 + inject_Z x) / 2)
          /\ denotes (ymin b) ((inject_Z shape0 - inject_Z x) / 2)
          /\ denotes (ymax b) ((inject_Z shape0 + inject_Z x) / 2)).
Proof.
  intros H0 H1.
  assert (forall (fov : num) (x : Z),
     0 <= x < 2 ^ 52 -> exact fov x ->
     exists b,
       receptive_field_box shape0 shape1 fov = Returned b
       /\ denotes (xmin b) ((inject_Z shape1 - inject_Z x) / 2)
       /\ denotes (xmax b) ((inject_Z shape1 + inject_Z x) / 2)
       /\ denotes (ymin b) ((inject_Z shape0 - inject_Z x) / 2)
       /\ denotes (ymax b) ((inject_Z shape0 + inject_Z x) / 2)) as Hbox.
  { intros fov x Hx Hfov. unfold receptive_field_box.
    destruct (py_truediv_two (Int shape1) shape1 eq_refl)
      as (w & -> & Hw); [lia|].
    destruct (py_truediv_two (Int shape0) shape0 eq_refl)
      as (h & -> & Hh); [lia|].
    destruct (py_truediv_two fov x Hfov) as (f & -> & Hf); [lia|].
    cbn [bind].
    destruct (py_sub_halves w f shape1 x Hw Hf) as (x0 & -> & Hx0); [lia|].
    destruct (py_add_halves w f shape1 x Hw Hf) as (x1 & -> & Hx1); [lia|].
    destruct (py_sub_halves h f shape0 x Hh Hf) as (y0 & -> & Hy0); [lia|].
    destruct (py_add_halves h f shape0 x Hh Hf) as (y1 & -> & Hy1); [lia|].
    cbn [bind]. eexists. split; [done|]. by cbn. }
  split; [exact Hbox|].
  intros depth k f Hk Hf Hb.
  destruct (compute_receptive_field_py_exact depth k f Hk Hf)
    as (fov & Hfov & Hx & _); [lia|].
  pose proof (closed_form_int_positive k f (Z.to_nat (depth - 1)) Hk Hf).
  destruct (Hbox fov (closed_form_int k f (Z.to_nat (depth - 1))))
    as (b & Hret & Hb'); [lia|done|].
  by exists fov, (closed_form_int k f (Z.to_nat (depth - 1))), b.
Qed.

Lemma receptive_field_box_square_witness :
  0 <= 256 < 2 ^ 52
  /\ exists b,
       receptive_field_box 256 256 (Float (Float.Finite 164)) = Returned b
       /\ denotes (xmin b) ((inject_Z 256 - inject_Z 164) / 2)
       /\ denotes (xmax b) ((inject_Z 256 + inject_Z 164) / 2)
       /\ denotes (ymin b) ((inject_Z 256 - inject_Z 164) / 2)
       /\ denotes (ymax b) ((inject_Z 256 + inject_Z 164) / 2).
Proof.
  assert (0 <= 256 < 2 ^ 52) as Hs by (by vm_compute).
  assert (0 <= 164 < 2 ^ 52) as Hx by (by vm_compute).
  split; [exact Hs|].
  destruct (receptive_field_box_square 256 256 Hs Hs) as [Hbox _].
  destruct (Hbox (Float (Float.Finite 164)) 164 Hx)
    as (b & Hb & H0 & H1 & H2 & H3); [reflexivity|].
  exists b. split; [exact Hb|].
  split; [exact H0|]. split; [exact H1|]. split; [exact H2|exact H3].
Defined.

(** ** Padding *)

Module PaddingMoreFacts.
Import Py PyNum Padding PaddingFacts.

Lemma lex_greater_same_rank a b :
  length a = length b -> lex_greater a b ->
  exists i, (i < length a)%nat /\ nth i b 0 < nth i a 0.
Proof.
  intros Hl (prefix & x & a' & -> & Hb). exists (length prefix).
  rewrite length_app. cbn [length]. split; [lia|].
  destruct Hb as [->|(y & b' & -> & Hlt)].
  - rewrite length_app in Hl. cbn in Hl. lia.
  - by rewrite !nth_middle.
Qed.

Lemma length_reversed_entries shape target_size :
  length (reversed (pad_entries shape target_size))
  = (2 * Nat.min (length shape) (length target_size))%nat.
Proof. unfold reversed. by rewrite length_rev, length_pad_entries. Qed.

(** The reversed list read by [torch.nn.functional.pad] when the target has
    at most as many dimensions as the tensor. *)
Lemma reversed_pad_entries_short shape target_size i :
  (length target_size <= length shape)%nat -> (i < length shape)%nat ->
  let pad := reversed (pad_entries shape target_size) in
  let shift := (length shape - length target_size)%nat in
  ((i < shift)%nat ->
   pad_before pad (length shape) i = 0 /\ pad_after pad (length shape) i = 0)
  /\ ((shift <= i)%nat ->
      let d := nth (i - shift) target_size 0 - nth (i - shift) shape 0 in
      pad_before pad (length shape) i = float_ceil_half d
      /\ pad_after pad (length shape) i = float_floor_half d).
Proof.
  intros Hk Hi. cbn zeta. unfold pad_before, pad_after, reversed.
  pose proof (length_pad_entries shape target_size) as Hl.
  rewrite Nat.min_r in Hl by done.
  split.
  - intros Hlow. split; apply nth_overflow; rewrite length_rev, Hl; lia.
  - intros Hhigh.
    destruct (nth_pad_entries shape target_size
                (i - (length shape - length target_size)))
      as [Hf Hc]; [lia..|].
    rewrite !rev_nth by lia. rewrite Hl.
    replace (2 * length target_size - S (2 * (length shape - 1 - i)))%nat
      with (2 * (i - (length shape - length target_size)) + 1)%nat by lia.
    replace (2 * length target_size - S (2 * (length shape - 1 - i) + 1))%nat
      with (2 * (i - (length shape - length target_size)))%nat by lia.
    done.
Qed.

Lemma tuple_gt_longer_target a b extra :
  length a = length b -> tuple_gt a (b ++ extra) = tuple_gt a b.
Proof.
  revert b. induction a as [|x a IH]; intros [|y b] Hl; cbn in Hl; try lia.
  - by destruct extra.
  - cbn. destruct (x =? y); [apply IH; lia|done].
Qed.

Lemma tuple_eq_longer_target a b extra :
  length a = length b -> extra <> [] -> tuple_eq a (b ++ extra) = false.
Proof.
  intros Hl Hne. apply not_true_is_false. rewrite tuple_eq_spec. intros ->.
  rewrite length_app in Hl. destruct extra; [done|]. cbn in Hl. lia.
Qed.

Lemma zip_longer_target {A B} (a : list A) (b extra : list B) :
  (length a <= length b)%nat -> zip a (b ++ extra) = zip a b.
Proof.
  revert b. induction a as [|x a IH]; intros [|y b] Hl; cbn in *;
    try done; try lia.
  rewrite IH; [done|lia].
Qed.

Lemma pad_entries_same shape :
  pad_entries shape shape = repeat 0 (2 * length shape).
Proof.
  unfold pad_entries. induction shape as [|x shape IH]; [done|].
  cbn [zip flat_map length app]. rewrite IH, Z.sub_diag.
  replace (2 * S (length shape))%nat with (S (S (2 * length shape))) by lia.
  done.
Qed.

Lemma in_exact_range_same shape : in_exact_range shape shape.
Proof.
  unfold in_exact_range. induction shape as [|x shape IH]; [constructor|].
  cbn [zip]. constructor; [|done]. by rewrite Z.sub_diag.
Qed.

(** From a size to itself the loop leaves zeros. *)
Lemma pad_twoside_same shape :
  pad_twoside shape shape = Returned (repeat 0 (2 * length shape)).
Proof.
  rewrite pad_twoside_in_range by apply in_exact_range_same.
  by rewrite pad_entries_same.
Qed.

Lemma rev_repeat {A} (x : A) n : rev (repeat x n) = repeat x n.
Proof.
  induction n as [|n IH]; [done|]. cbn [repeat rev]. rewrite IH.
  clear IH. induction n as [|n IH]; [done|]. cbn. by rewrite IH.
Qed.

Lemma length_pad_pairs n l :
  length l = (2 * n)%nat -> length (pad_pairs l) = n.
Proof.
  revert l. induction n as [|n IH]; intros [|a [|b l]] Hl; cbn in Hl;
    try done; try lia.
  cbn. f_equal. apply IH. lia.
Qed.

End PaddingMoreFacts.

Import PaddingMoreFacts.

(** X7. Between a tensor and a target of the same rank the [ValueError] is
    never a false alarm: when [pad_to_size] raises it, some dimension of the
    tensor really is larger than that dimension of the target, and the
    message names both sizes. *)
Theorem pad_to_size_refusal_sound `{Torch} (t : tensor) (target : size_arg)
    (m : string) :
  length (size t) = length (dims_of target) ->
  pad_to_size t target = Raised (ValueError m) ->
  m = msg (size t) target
  /\ exists i, (i < length (size t))%nat
               /\ nth i (dims_of target) 0 < nth i (size t) 0.
Proof.
  intros Hl Hraise.
  destruct (pad_to_size_cases t target)
    as [[Hgt Hval]|[[Heq Hret]|[(_ & _ & _ & Hov)|(_ & _ & _ & Hpad)]]].
  - rewrite Hval in Hraise. injection Hraise as <-. split; [done|].
    apply lex_greater_same_rank; [done|]. by apply tuple_gt_lex.
  - congruence.
  - congruence.
  - rewrite Hpad in Hraise. by apply functional_pad_not_ValueError in Hraise.
Qed.

Lemma pad_to_size_refusal_sound_witness :
  let t := ones [2; 3; 3] in
  let target := Tuple [1; 4; 4] in
  length (dims t) = length (dims_of target)
  /\ pad_to_size (H := dense_torch) t target
     = Raised (ValueError (msg (dims t) target))
  /\ exists i, (i < 3)%nat /\ nth i [1; 4; 4] 0 < nth i [2; 3; 3] 0.
Proof.
  cbn zeta. split; [reflexivity|]. split; [reflexivity|].
  destruct (pad_to_size_refusal_sound (H := dense_torch)
              (ones [2; 3; 3]) (Tuple [1; 4; 4]) _ eq_refl eq_refl)
    as [_ Hex].
  exact Hex.
Defined.

(** X8. Once the size check is passed (shape not lexicographically greater
    than, and not equal to, the target) [pad_to_size] runs the loop and
    hands its list, reversed, to [torch.nn.functional.pad]. Whenever the
    loop returns, the [pad] argument has two entries for every dimension
    shared by the tensor and the target: its length is even and it never
    reaches past the tensor's first dimension. The loop returns whenever
    every difference is below [2^53] in magnitude. *)
Theorem pad_to_size_pad_argument `{Torch} (t : tensor) (target : size_arg) :
  tuple_gt (size t) (dims_of target) = false ->
  size t <> dims_of target ->
  pad_to_size t target
  = (try twoside <- pad_twoside (size t) (dims_of target) ;
     functional_pad t (reversed twoside))
  /\ (forall twoside,
        pad_twoside (size t) (dims_of target) = Returned twoside ->
        let pad := reversed twoside in
        pad_to_size t target = functional_pad t pad
        /\ length pad
           = (2 * Nat.min (length (size t)) (length (dims_of target)))%nat
        /\ Nat.even (length pad) = true
        /\ (length (pad_pairs pad) <= length (size t))%nat)
  /\ (in_exact_range (size t) (dims_of target) ->
      exists twoside,
        pad_twoside (size t) (dims_of target) = Returned twoside).
Proof.
  intros Hgt Hne.
  assert (pad_to_size t target
          = (try twoside <- pad_twoside (size t) (dims_of target) ;
             functional_pad t (reversed twoside))) as Hcall.
  { unfold pad_to_size. rewrite Hgt.
    destruct (tuple_eq (size t) (dims_of target)) eqn:Heq; [|done].
    by apply tuple_eq_spec in Heq. }
  split_and!; [done| |].
  - intros twoside Htwo. cbn zeta. rewrite Hcall, Htwo. cbn [bind].
    destruct (pad_twoside_cases (size t) (dims_of target)) as [Hp|Hp];
      rewrite Hp in Htwo; [done|]. injection Htwo as <-.
    pose proof (length_reversed_entries (size t) (dims_of target)) as Hl.
    split_and!; [done|done| |].
    + rewrite Hl. apply Nat.even_spec. by eexists.
    + rewrite (length_pad_pairs _ _ Hl). lia.
  - intros Hr. eexists. by apply pad_twoside_in_range.
Qed.

Lemma pad_to_size_pad_argument_witness :
  let t := ones [1; 4; 4] in
  let target := Tuple [1; 6] in
  tuple_gt (dims t) (dims_of target) = false
  /\ dims t <> dims_of target
  /\ pad_twoside (dims t) (dims_of target) = Returned [0; 0; 1; 1]
  /\ pad_to_size (H := dense_torch) t target
     = functional_pad (H := dense_torch) t [1; 1; 0; 0]
  /\ length (reversed [0; 0; 1; 1]) = 4%nat.
Proof.
  cbn zeta.
  assert (dims (ones [1; 4; 4]) <> dims_of (Tuple [1; 6])) as Hne by done.
  assert (pad_twoside (dims (ones [1; 4; 4])) (dims_of (Tuple [1; 6]))
          = Returned [0; 0; 1; 1]) as Htwo by (by vm_compute).
  split; [reflexivity|]. split; [exact Hne|]. split; [exact Htwo|].
  destruct (pad_to_size_pad_argument (H := dense_torch)
              (ones [1; 4; 4]) (Tuple [1; 6]) eq_refl Hne)
    as (_ & Hrest & _).
  destruct (Hrest [0; 0; 1; 1] Htwo) as (Hcall & Hlen & _).
  split; [exact Hcall|exact Hlen].
Defined.

(** X9. Provided [torch.nn.functional.pad] gives every dimension its size
    plus the two amounts passed for it, a tensor that [pad_to_size] returns
    for a target of the tensor's rank, with every difference below [2^53]
    in magnitude, has exactly the target size, also where the target is
    smaller than the tensor and the amounts are negative. *)
Theorem pad_to_size_reaches_target `{Torch} (t t' : tensor)
    (target : size_arg) :
  (forall (t0 t1 : tensor) pad,
     F_pad t0 pad = Some t1 -> size t1 = padded_dims (size t0) pad) ->
  length (size t) = length (dims_of target) ->
  in_exact_range (size t) (dims_of target) ->
  pad_to_size t target = Returned t' ->
  size t' = dims_of target.
Proof.
  intros Hlaw Hl Hr Hret.
  destruct (pad_to_size_cases_in_range t target Hr)
    as [[_ Hval]|[[Heq Hsame]|(_ & _ & _ & Hpad)]].
  - congruence.
  - rewrite Hsame in Hret. by injection Hret as <-.
  - rewrite Hpad in Hret. unfold functional_pad in Hret.
    destruct (F_pad t _) as [t1|] eqn:Hcall; [|done].
    injection Hret as <-. rewrite (Hlaw _ _ _ Hcall).
    by apply padded_dims_reversed.
Qed.

Lemma dense_pad_size_law (t0 t1 : dense) pad :
  dense_pad t0 pad = Some t1 -> dims t1 = padded_dims (dims t0) pad.
Proof.
  unfold dense_pad. destruct (_ && _); [|done]. by intros [= <-].
Qed.

Lemma pad_to_size_reaches_target_witness :
  in_exact_range [1; 4; 5] [2; 3; 8]
  /\ exists t',
       pad_to_size (H := dense_torch) (ones [1; 4; 5]) (Size [2; 3; 8])
       = Returned t'
       /\ dims t' = [2; 3; 8].
Proof.
  assert (in_exact_range [1; 4; 5] [2; 3; 8]) as Hr by (repeat constructor).
  split; [exact Hr|].
  assert (exists t',
            pad_to_size (H := dense_torch) (ones [1; 4; 5]) (Size [2; 3; 8])
            = Returned t') as [t' Ht'].
  { eexists. by vm_compute. }
  exists t'. split; [exact Ht'|].
  exact (pad_to_size_reaches_target (H := dense_torch)
           (ones [1; 4; 5]) t' (Size [2; 3; 8])
           dense_pad_size_law eq_refl Hr Ht').
Defined.

(** X10. A target with fewer dimensions than the tensor is not refused
    unless it compares smaller: the amounts are computed by pairing the
    leading dimensions of the tensor with the target, but
    [torch.nn.functional.pad] applies them to the trailing dimensions. With
    [shift] the difference of the ranks and every difference below [2^53]
    in magnitude, dimension [i >= shift] gets the ceiling and the floor of
    half the difference computed for dimension [i - shift], and the first
    [shift] dimensions get none. *)
Theorem pad_to_size_short_target `{Torch} (t : tensor) (target : size_arg)
    (i : nat) :
  (length (dims_of target) < length (size t))%nat ->
  tuple_gt (size t) (dims_of target) = false ->
  (i < length (size t))%nat ->
  in_exact_range (size t) (dims_of target) ->
  exists twoside,
    pad_twoside (size t) (dims_of target) = Returned twoside
    /\ let pad := reversed twoside in
       let shift := (length (size t) - length (dims_of target))%nat in
       pad_to_size t target = functional_pad t pad
       /\ ((i < shift)%nat ->
           pad_before pad (length (size t)) i = 0
           /\ pad_after pad (length (size t)) i = 0)
       /\ ((shift <= i)%nat ->
           let d := nth (i - shift) (dims_of target) 0
                    - nth (i - shift) (size t) 0 in
           pad_before pad (length (size t)) i = exact_ceil_half d
           /\ pad_after pad (length (size t)) i = exact_floor_half d).
Proof.
  intros Hk Hgt Hi Hr.
  exists (pad_entries (size t) (dims_of target)). cbn zeta.
  destruct (pad_to_size_cases_in_range t target Hr)
    as [[Hgt' _]|[[Heq _]|(_ & _ & Hp & Hpad)]].
  - congruence.
  - rewrite Heq in Hk. lia.
  - split; [done|]. split; [done|].
    destruct (reversed_pad_entries_short (size t) (dims_of target) i)
      as [Hlow Hhigh]; [lia|done|].
    split; [done|]. intros Hshift. cbn zeta in Hhigh.
    destruct (Hhigh Hshift) as [Hb Ha].
    destruct (float_halves_exact
                (nth (i - (length (size t) - length (dims_of target)))
                     (dims_of target) 0
                 - nth (i - (length (size t) - length (dims_of target)))
                       (size t) 0)) as [Hfl Hce].
    { apply in_exact_range_nth; [done|lia..]. }
    by rewrite <- Hfl, <- Hce.
Qed.

Lemma pad_to_size_short_target_witness :
  let t := ones [1; 4; 4] in
  let target := Tuple [1; 6] in
  (length (dims_of target) < length (dims t))%nat
  /\ tuple_gt (dims t) (dims_of target) = false
  /\ in_exact_range (dims t) (dims_of target)
  /\ pad_to_size (H := dense_torch) t target
     = functional_pad (H := dense_torch) t [1; 1; 0; 0]
  /\ pad_before [1; 1; 0; 0] 3 2 = exact_ceil_half (6 - 4)
  /\ pad_before [1; 1; 0; 0] 3 1 = exact_ceil_half (1 - 1)
  /\ exists t', pad_to_size (H := dense_torch) t target = Returned t'
                /\ dims t' = [1; 4; 6].
Proof.
  cbn zeta.
  assert (Nat.lt (length (dims_of (Tuple [1; 6])))
                 (length (dims (ones [1; 4; 4])))) as Hk by (cbn; lia).
  assert (in_exact_range (dims (ones [1; 4; 4])) (dims_of (Tuple [1; 6])))
    as Hr by (repeat constructor).
  assert (pad_twoside (dims (ones [1; 4; 4])) (dims_of (Tuple [1; 6]))
          = Returned [0; 0; 1; 1]) as Htwo by (by vm_compute).
  split; [exact Hk|]. split; [reflexivity|]. split; [exact Hr|].
  destruct (pad_to_size_short_target (H := dense_torch)
              (ones [1; 4; 4]) (Tuple [1; 6]) 2 Hk eq_refl)
    as (twoside & Htwo2 & Hcall & _ & Hlast); [cbn; lia|exact Hr|].
  destruct (pad_to_size_short_target (H := dense_torch)
              (ones [1; 4; 4]) (Tuple [1; 6]) 1 Hk eq_refl)
    as (twoside' & Htwo1 & _ & _ & Hmid); [cbn; lia|exact Hr|].
  cbn [size dense_torch] in Htwo2, Htwo1.
  rewrite Htwo in Htwo2, Htwo1.
  injection Htwo2 as <-. injection Htwo1 as <-.
  split; [exact Hcall|].
  split; [apply Hlast; cbn; lia|].
  split; [apply Hmid; cbn; lia|].
  eexists. split; [by vm_compute|reflexivity].
Defined.

(** X11. Dimensions the target has beyond the rank of the tensor are
    ignored: what [pad_to_size] does is what it does for the target cut to
    the tensor's rank, the loop and then the call to
    [torch.nn.functional.pad]. In particular a target that only extends the
    tensor's own size does not return the tensor itself, as an equal target
    does, but the result of [torch.nn.functional.pad] with all amounts
    zero. *)
Theorem pad_to_size_long_target `{Torch} (t : tensor) (target : size_arg)
    (leading extra : list Z) :
  dims_of target = leading ++ extra ->
  length (size t) = length leading ->
  extra <> [] ->
  tuple_gt (size t) leading = false ->
  pad_to_size t target
  = (try twoside <- pad_twoside (size t) leading ;
     functional_pad t (reversed twoside))
  /\ (size t = leading ->
      pad_to_size t target
      = functional_pad t (repeat 0 (2 * length (size t)))).
Proof.
  intros Ht Hl Hne Hgt.
  assert (pad_to_size t target
          = (try twoside <- pad_twoside (size t) leading ;
             functional_pad t (reversed twoside)))
    as Hcall.
  { unfold pad_to_size. rewrite Ht.
    rewrite tuple_gt_longer_target, Hgt by done.
    rewrite tuple_eq_longer_target by done.
    unfold pad_twoside. rewrite zip_longer_target by lia. done. }
  split; [done|]. intros Heq. rewrite Hcall, <- Heq, pad_twoside_same.
  cbn [bind]. unfold reversed. by rewrite rev_repeat.
Qed.

Lemma pad_to_size_long_target_witness :
  let t := ones [4; 4] in
  dims_of (Tuple [4; 4; 1]) = [4; 4] ++ [1]
  /\ length (dims t) = length [4; 4]
  /\ [1] <> []
  /\ tuple_gt (dims t) [4; 4] = false
  /\ pad_to_size (H := dense_torch) t (Tuple [4; 4; 1])
     = functional_pad (H := dense_torch) t [0; 0; 0; 0].
Proof.
  cbn zeta. assert ([1] <> @nil Z) as Hne by done.
  split; [reflexivity|]. split; [reflexivity|]. split; [exact Hne|].
  split; [reflexivity|].
  destruct (pad_to_size_long_target (H := dense_torch)
              (ones [4; 4]) (Tuple [4; 4; 1]) [4; 4] [1]
              eq_refl eq_refl Hne eq_refl) as [_ Hzero].
  exact (Hzero eq_refl).
Defined.

(** ** The dataset *)

Module NucleiDatasetMoreFacts.
Import Py NucleiDataset NucleiDatasetMore NucleiDatasetFacts.

Lemma getitem_in_range {A} (l : list A) idx :
  - Z.of_nat (length l) <= idx < Z.of_nat (length l) ->
  exists x, getitem l idx = Returned x.
Proof.
  intros Hidx. unfold getitem.
  set (i := if idx <? 0 then idx + Z.of_nat (length l) else idx).
  assert (0 <= i < Z.of_nat (length l)) as Hi.
  { unfold i. destruct (Z.ltb_spec idx 0); lia. }
  destruct (Z.leb_spec 0 i); [|lia].
  destruct (Z.ltb_spec i (Z.of_nat (length l))); [|lia]. cbn.
  destruct (lookup_lt_is_Some_2 l (Z.to_nat i)) as [x ->]; [lia|].
  by exists x.
Qed.

Lemma getitem_out_of_range {A} (l : list A) idx :
  ~ (- Z.of_nat (length l) <= idx < Z.of_nat (length l)) ->
  getitem l idx = Raised IndexError.
Proof.
  intros Hidx. unfold getitem.
  destruct (Z.ltb_spec idx 0);
    destruct (Z.leb_spec 0 (idx + Z.of_nat (length l)));
    destruct (Z.leb_spec 0 idx);
    destruct (Z.ltb_spec (idx + Z.of_nat (length l)) (Z.of_nat (length l)));
    destruct (Z.ltb_spec idx (Z.of_nat (length l)));
    cbn; try done; lia.
Qed.

Lemma getitem_Raised {A} (l : list A) idx err :
  getitem l idx = Raised err -> err = IndexError.
Proof.
  unfold getitem. destruct (_ && _); [|by intros [= <-]].
  destruct (l !! _); [done|by intros [= <-]].
Qed.

Lemma getitem_wrap {A} (l : list A) idx :
  - Z.of_nat (length l) <= idx < 0 ->
  getitem l idx = getitem l (idx + Z.of_nat (length l)).
Proof.
  intros Hidx. unfold getitem.
  destruct (Z.ltb_spec idx 0); [|lia].
  destruct (Z.ltb_spec (idx + Z.of_nat (length l)) 0); [lia|]. done.
Qed.

Section WithLibs.
Context `{Libs}.

Lemma sample_outcome_loadable root name :
  loadable root name <-> exists pair, sample_outcome root name = Returned pair.
Proof.
  unfold sample_outcome, loadable. split.
  - intros (i0 & i1 & m0 & m1 & -> & Hi1 & -> & Hm1). cbn [bind].
    rewrite Hi1. cbn [bind]. rewrite Hm1. cbn [bind]. by eexists.
  - intros [pair Hpair].
    destruct (Image_open (os_path_join root name "image.tif"))
      as [i0|]; [|done]. cbn [bind] in Hpair.
    destruct (Image_load i0) as [i1|] eqn:Hi1; [|done]. cbn [bind] in Hpair.
    destruct (Image_open (os_path_join root name "mask.tif"))
      as [m0|]; [|done]. cbn [bind] in Hpair.
    destruct (Image_load m0) as [m1|] eqn:Hm1; [|done].
    by exists i0, i1, m0, m1.
Qed.

Lemma load_sample_raises root names imgs masks (k : nat) name e :
  names !! k = Some name ->
  length imgs = length names -> length masks = length names ->
  sample_outcome root name = Raised e ->
  load_sample root names (imgs, masks) (Z.of_nat k) = Raised e.
Proof.
  intros Hname Hi Hm. pose proof (lookup_lt_Some _ _ _ Hname) as Hlt.
  unfold load_sample, sample_outcome.
  rewrite (getitem_nat _ _ _ Hname). cbn [bind fst snd].
  destruct (Image_open (os_path_join root name "image.tif"))
    as [i0|]; cbn [bind]; [|by intros [= ->]].
  destruct (Image_load i0) as [i1|]; cbn [bind]; [|by intros [= ->]].
  rewrite setitem_nat by lia. cbn [bind].
  destruct (Image_open (os_path_join root name "mask.tif"))
    as [m0|]; cbn [bind]; [|by intros [= ->]].
  destruct (Image_load m0) as [m1|]; cbn [bind]; [done|by intros [= ->]].
Qed.

Lemma loop_raises root names bad e j : forall k m lists,
  (k + m = length names)%nat -> (j < m)%nat ->
  filled root names k lists ->
  (forall i name, (k <= i < k + j)%nat -> names !! i = Some name ->
                  loadable root name) ->
  names !! (k + j)%nat = Some bad ->
  sample_outcome root bad = Raised e ->
  for_each (load_sample root names) (map Z.of_nat (seq k m)) lists
  = Raised e.
Proof.
  induction j as [|j IH]; intros k m [imgs masks] Hkm Hjm Hfill Hgood Hbad He;
    (destruct m as [|m]; [lia|]); cbn [seq map for_each];
    destruct Hfill as (Hi & Hm & Hk); cbn [fst snd] in Hi, Hm.
  - rewrite Nat.add_0_r in Hbad.
    by rewrite (load_sample_raises _ _ _ _ _ _ _ Hbad Hi Hm He).
  - destruct (lookup_lt_is_Some_2 names k) as [name Hname]; [lia|].
    destruct (load_sample_succeeds root names imgs masks k name)
      as [lists Hstep]; [done..| |].
    { apply (Hgood k); [lia|done]. }
    rewrite Hstep. cbn [bind].
    destruct (load_sample_returns _ _ _ _ _ _ _ Hname Hi Hm Hstep)
      as (img & mask & Hload & ->).
    apply IH; [lia|lia| | |by replace (S k + j)%nat with (k + S j)%nat by lia
               |done].
    + apply (filled_step _ _ _ name); [done| |done]. by split_and!.
    + intros i name' Hrange. apply Hgood. lia.
Qed.

Lemma getitem_served (d : dataset) idx g e image0 mask0 :
  getitem (loaded_imgs d) idx = Returned image0 ->
  getitem (loaded_masks d) idx = Returned mask0 ->
  __getitem__ idx (mk_heap d g e) = served d image0 mask0 g e.
Proof.
  intros Himg Hmask.
  unfold __getitem__, served, paired, mbind, attr, lift, ret, torch_seed,
    torch_manual_seed, call. cbn [self generator entropy_source fst snd].
  rewrite Himg, Hmask. cbn [self generator entropy_source fst snd].
  destruct (transform d) as [f|];
    cbn [self generator entropy_source fst snd].
  - destruct (fresh_seed e) as [seed e'].
    cbn [self generator entropy_source fst snd].
    destruct (f image0 (seeded seed)) as [image1 g0].
    cbn [self generator entropy_source fst snd].
    destruct (f mask0 (seeded seed)) as [mask1 g1].
    cbn [self generator entropy_source fst snd].
    destruct (img_transform d) as [it|]; [|done].
    cbn [self generator entropy_source fst snd].
    by destruct (it image1 g1).
  - cbn [self generator entropy_source fst snd].
    destruct (img_transform d) as [it|]; [|done].
    cbn [self generator entropy_source fst snd].
    by destruct (it image0 g).
Qed.

Lemma getitem_raises (d : dataset) idx g e :
  getitem (loaded_imgs d) idx = Raised IndexError
  \/ getitem (loaded_masks d) idx = Raised IndexError ->
  __getitem__ idx (mk_heap d g e) = (Raised IndexError, mk_heap d g e).
Proof.
  intros Hraise.
  unfold __getitem__, mbind, attr, lift. cbn [self fst snd].
  destruct (getitem (loaded_imgs d) idx) as [image0|err] eqn:Himg.
  - destruct Hraise as [|Hmask]; [done|]. by rewrite Hmask.
  - by rewrite (getitem_Raised _ _ _ Himg).
Qed.

Lemma served_returns (d : dataset) image0 mask0 g e :
  exists pair h', served d image0 mask0 g e = (Returned pair, h').
Proof.
  unfold served. destruct (paired d image0 mask0 g e) as [[[i1 m1] g1] e1].
  destruct (img_transform d); by do 2 eexists.
Qed.

End WithLibs.

End NucleiDatasetMoreFacts.

Import NucleiDatasetMore NucleiDatasetMoreFacts.

(** X12. The constructor is all or nothing: it returns a dataset exactly
    when the root directory can be listed and every entry of the listing has
    an [image.tif] and a [mask.tif] that open and load. One entry that does
    not, and no dataset is built. *)
Theorem init_all_or_nothing `{Libs} root tr itr :
  (exists d : dataset, __init__ root tr itr = Returned d)
  <-> exists names,
        os_listdir root = Returned names
        /\ forall name, name ∈ names -> loadable root name.
Proof.
  split.
  - intros [d Hd]. exists (samples d).
    destruct (init_returns _ _ _ _ Hd) as (Hls & Hroot & _ & _ & Hal).
    split; [done|]. intros name Hin.
    apply list_elem_of_lookup_1 in Hin as [i Hi].
    destruct Hal as (_ & _ & Hsamples).
    destruct (Hsamples i name Hi) as (img & mask & _ & _ & Hload).
    apply loadable_loaded_from. rewrite Hroot in Hload. eauto.
  - intros (names & Hls & Hall). by eapply init_succeeds.
Qed.

Lemma init_all_or_nothing_witness :
  (exists d : dataset (H := Example.libs),
     __init__ "nuclei_train_data" None None = Returned d)
  /\ ~ (exists d : dataset (H := BrokenExample.libs),
          __init__ "nuclei_train_data" None None = Returned d).
Proof.
  split.
  - apply (init_all_or_nothing (H := Example.libs)).
    exists ["s1"; "s2"]%string. split; [reflexivity|].
    intros name _. unfold loadable. cbn. do 4 eexists. repeat split.
  - intros Hd.
    apply (init_all_or_nothing (H := BrokenExample.libs)) in Hd
      as (names & Hls & Hall).
    injection Hls as <-.
    destruct (Hall "s2"%string) as (i0 & i1 & m0 & m1 & _ & _ & Hm0 & _).
    + apply list_elem_of_In. cbn. auto.
    + discriminate Hm0.
Defined.

(** X13. When a sample fails to load, the constructor raises the error of
    the first such sample in the order of the listing, from the first of its
    four calls that raises. *)
Theorem init_first_error `{Libs} root tr itr (good : list string)
    (bad : string) (rest : list string) (e : exn) :
  os_listdir root = Returned (good ++ bad :: rest) ->
  (forall name, name ∈ good -> loadable root name) ->
  sample_outcome root bad = Raised e ->
  __init__ root tr itr = Raised e.
Proof.
  intros Hls Hgood Hbad. unfold __init__. rewrite Hls. cbn [bind].
  rewrite range_seq.
  rewrite (loop_raises root (good ++ bad :: rest) bad e (length good) 0
             (length (good ++ bad :: rest))); [done|done| | | | |done].
  - rewrite length_app. cbn. lia.
  - apply filled_start.
  - intros i name Hi Hname. apply Hgood.
    rewrite lookup_app_l in Hname by lia. by eapply list_elem_of_lookup_2.
  - cbn [Nat.add]. by rewrite list_lookup_middle.
Qed.

Lemma init_first_error_witness :
  os_listdir (Libs := BrokenExample.libs) "nuclei_train_data"
  = Returned (["s1"%string] ++ "s2"%string :: ["s3"%string])
  /\ sample_outcome (H := BrokenExample.libs) "nuclei_train_data" "s2"
     = Raised (OSError "nuclei_train_data/s2/mask.tif")
  /\ __init__ (H := BrokenExample.libs) "nuclei_train_data" None None
     = Raised (OSError "nuclei_train_data/s2/mask.tif").
Proof.
  split; [reflexivity|]. split; [reflexivity|].
  apply (init_first_error (H := BrokenExample.libs) "nuclei_train_data"
           None None ["s1"]%string "s2"%string ["s3"]%string _ eq_refl);
    [|reflexivity].
  intros name Hin. apply list_elem_of_In in Hin. destruct Hin as [<-|[]].
  unfold loadable. cbn. do 4 eexists. repeat split.
Defined.

(** X14. On a dataset the constructor returned, with [N] samples,
    [__getitem__] returns a pair for every index from [-N] to [N - 1] and
    raises an [IndexError] for every other index, leaving the instance, the
    generator and the entropy source untouched; on an empty dataset that is
    every index. *)
Theorem getitem_bounds `{Libs} root tr itr (d : dataset) idx g e :
  __init__ root tr itr = Returned d ->
  let N := Z.of_nat (length (samples d)) in
  (- N <= idx < N ->
   exists pair h', __getitem__ idx (mk_heap d g e) = (Returned pair, h'))
  /\ (~ (- N <= idx < N) ->
      __getitem__ idx (mk_heap d g e) = (Raised IndexError, mk_heap d g e)).
Proof.
  intros Hinit. cbn zeta.
  destruct (init_returns _ _ _ _ Hinit) as (_ & _ & _ & _ & Hlen & Hlen' & _).
  split.
  - intros Hidx.
    destruct (getitem_in_range (loaded_imgs d) idx) as [image0 Himg]; [lia|].
    destruct (getitem_in_range (loaded_masks d) idx) as [mask0 Hmask]; [lia|].
    rewrite (getitem_served _ _ _ _ _ _ Himg Hmask). apply served_returns.
  - intros Hidx. apply getitem_raises. left.
    apply getitem_out_of_range. lia.
Qed.

Lemma getitem_bounds_witness :
  let d := Example.two_samples None in
  __init__ (H := Example.libs) "nuclei_train_data" None None = Returned d
  /\ (exists pair h', __getitem__ (-2) (mk_heap d 0 0) = (Returned pair, h'))
  /\ __getitem__ 2 (mk_heap d 0 0) = (Raised IndexError, mk_heap d 0 0)
  /\ __getitem__ (-3) (mk_heap d 0 0) = (Raised IndexError, mk_heap d 0 0).
Proof.
  cbn zeta.
  assert (__init__ (H := Example.libs) "nuclei_train_data" None None
          = Returned (Example.two_samples None)) as Hinit by reflexivity.
  split; [exact Hinit|].
  split; [|split].
  - apply (getitem_bounds (H := Example.libs) _ _ _ _ (-2) 0 0 Hinit).
    cbn. lia.
  - apply (getitem_bounds (H := Example.libs) _ _ _ _ 2 0 0 Hinit).
    cbn. lia.
  - apply (getitem_bounds (H := Example.libs) _ _ _ _ (-3) 0 0 Hinit).
    cbn. lia.
Defined.

(** X15. A negative index counts from the end: on a dataset the constructor
    returned, with [N] samples, [__getitem__] at an index from [-N] to [-1]
    does what it does at that index plus [N]. *)
Theorem getitem_negative_index `{Libs} root tr itr (d : dataset) idx g e :
  __init__ root tr itr = Returned d ->
  let N := Z.of_nat (length (samples d)) in
  - N <= idx < 0 ->
  __getitem__ idx (mk_heap d g e) = __getitem__ (idx + N) (mk_heap d g e).
Proof.
  intros Hinit. cbn zeta. intros Hidx.
  destruct (init_returns _ _ _ _ Hinit) as (_ & _ & _ & _ & Hlen & Hlen' & _).
  unfold __getitem__, mbind, attr, lift. cbn [self fst snd].
  rewrite (getitem_wrap (loaded_imgs d) idx) by lia.
  rewrite (getitem_wrap (loaded_masks d) idx) by lia.
  by rewrite <- Hlen, Hlen'.
Qed.

Lemma getitem_negative_index_witness :
  let d := Example.two_samples (Some Example.random_flip) in
  __init__ (H := Example.libs) "nuclei_train_data"
    (Some Example.random_flip) None = Returned d
  /\ - 2 <= -1 < 0
  /\ __getitem__ (-1) (mk_heap d 7 4) = __getitem__ 1 (mk_heap d 7 4).
Proof.
  cbn zeta.
  assert (__init__ (H := Example.libs) "nuclei_train_data"
            (Some Example.random_flip) None
          = Returned (Example.two_samples (Some Example.random_flip)))
    as Hinit by reflexivity.
  assert (- 2 <= -1 < 0) as Hidx by lia.
  split; [exact Hinit|]. split; [exact Hidx|].
  exact (getitem_negative_index (H := Example.libs) _ _ _ _ (-1) 7 4
           Hinit Hidx).
Defined.

(** X16. Without a paired transform [__getitem__] draws no seed and never
    reseeds the generator: the mask it returns is the stored mask, the
    entropy source is left alone, and the generator moves only as far as the
    image-only transform moves it. With neither transform the call is a pure
    read: the stored pair comes back and the heap is unchanged. *)
Theorem getitem_without_paired_transform `{Libs} (d : dataset) idx g e
    (image0 mask0 : obj) :
  transform d = None ->
  getitem (loaded_imgs d) idx = Returned image0 ->
  getitem (loaded_masks d) idx = Returned mask0 ->
  __getitem__ idx (mk_heap d g e)
  = match img_transform d with
    | Some it =>
        (Returned (fst (it image0 g), mask0),
         mk_heap d (snd (it image0 g)) e)
    | None => (Returned (image0, mask0), mk_heap d g e)
    end.
Proof.
  intros Htr Himg Hmask. rewrite (getitem_served _ _ _ _ _ _ Himg Hmask).
  unfold served, paired. by rewrite Htr.
Qed.

Lemma getitem_without_paired_transform_witness :
  let d := Example.two_samples None in
  transform d = None
  /\ __getitem__ (H := Example.libs) 0 (mk_heap d 7 4)
     = (Returned (Some "normalized gray nuclei_train_data/s1/image.tif"%string,
                  Some "nuclei_train_data/s1/mask.tif"%string),
        mk_heap d 7 4).
Proof.
  cbn zeta. split; [reflexivity|].
  exact (getitem_without_paired_transform (H := Example.libs)
           (Example.two_samples None) 0 7 4 _ _ eq_refl eq_refl eq_refl).
Defined.

(** X17. With a paired transform the state of torch's generator before the
    call has no influence on what [__getitem__] returns nor on the state it
    leaves: the generator is reseeded from the seed [torch.seed()] draws, so
    seeding it beforehand does not make the transformed samples
    reproducible. *)
Theorem getitem_ignores_generator `{Libs} (d : dataset) (f : callable)
    idx g g' e :
  transform d = Some f ->
  fst (__getitem__ idx (mk_heap d g e))
  = fst (__getitem__ idx (mk_heap d g' e))
  /\ ((exists pair, fst (__getitem__ idx (mk_heap d g e)) = Returned pair) ->
      __getitem__ idx (mk_heap d g e) = __getitem__ idx (mk_heap d g' e)).
Proof.
  intros Htr.
  destruct (getitem (loaded_imgs d) idx) as [image0|err] eqn:Himg.
  - destruct (getitem (loaded_masks d) idx) as [mask0|err] eqn:Hmask.
    + rewrite !(getitem_served _ _ _ _ _ _ Himg Hmask).
      unfold served, paired. rewrite Htr. done.
    + pose proof (getitem_Raised _ _ _ Hmask) as ->.
      rewrite !getitem_raises by auto. split; [done|]. by intros [pair Hp].
  - pose proof (getitem_Raised _ _ _ Himg) as ->.
    rewrite !getitem_raises by auto. split; [done|]. by intros [pair Hp].
Qed.

Lemma getitem_ignores_generator_witness :
  let d := Example.two_samples (Some Example.random_flip) in
  transform d = Some Example.random_flip
  /\ __getitem__ (H := Example.libs) 1 (mk_heap d 7 4)
     = __getitem__ (H := Example.libs) 1 (mk_heap d 42 4)
  /\ fst (__getitem__ (H := Example.libs) 1 (mk_heap d 7 4))
     <> fst (__getitem__ (H := Example.libs) 1 (mk_heap d 7 5)).
Proof.
  cbn zeta. split; [reflexivity|].
  destruct (getitem_ignores_generator (H := Example.libs)
              (Example.two_samples (Some Example.random_flip))
              Example.random_flip 1 7 42 4 eq_refl) as [_ Hsame].
  split; [apply Hsame; eexists; reflexivity|discriminate].
Defined.

(** ** Normalization *)

Module NormalizationMoreFacts.
Import Normalization.

Lemma normalize_unnormalized (x : Q) :
  ((((x + 1) / 2) - (1 # 2)) / (1 # 2) == x)%Q.
Proof. field. Qed.

Lemma unnormalize_range (x : Q) :
  (0 <= (x + 1) / 2 <= 1)%Q <-> (-1 <= x <= 1)%Q.
Proof.
  unfold Qdiv. change (/ 2)%Q with (1 # 2)%Q. split; intros [? ?]; split; lra.
Qed.

Lemma normalize_range (x : Q) :
  (-1 <= (x - (1 # 2)) / (1 # 2) <= 1)%Q <-> (0 <= x <= 1)%Q.
Proof.
  unfold Qdiv. change (/ (1 # 2))%Q with 2%Q. split; intros [? ?]; split; lra.
Qed.

End NormalizationMoreFacts.

Import NormalizationMoreFacts.

(** X18. The round trip in the other direction: normalizing what
    [unnormalize] returns, with the mean and standard deviation used at load
    time, gives back every element. *)
Theorem load_time_normalize_unnormalize (t : elements) :
  Forall2 Qeq (load_time_normalize (unnormalize t)) t.
Proof.
  unfold unnormalize, load_time_normalize, Normalize, div_scalar,
    add_scalar, sub_scalar.
  induction t as [|x t IH]; cbn [map]; constructor; [|done].
  apply normalize_unnormalized.
Qed.

(** X19. Over exact rationals, [unnormalize] takes exactly the elements
    between -1 and 1 to elements between 0 and 1, and the normalization at
    load time takes exactly the elements between 0 and 1 to elements between
    -1 and 1: an image with pixel values in [0, 1] is stored with values in
    [-1, 1] and shown again with values in [0, 1]. The rounding of the
    tensor's floats is not part of this statement. *)
Theorem unnormalize_unit_range (t : elements) :
  (Forall (fun y => 0 <= y <= 1)%Q (unnormalize t)
   <-> Forall (fun x => -1 <= x <= 1)%Q t)
  /\ (Forall (fun y => -1 <= y <= 1)%Q (load_time_normalize t)
      <-> Forall (fun x => 0 <= x <= 1)%Q t).
Proof.
  unfold unnormalize, load_time_normalize, Normalize, div_scalar,
    add_scalar, sub_scalar.
  rewrite !map_map, !Forall_map. split; apply Forall_iff; intros x; cbn.
  - apply unnormalize_range.
  - apply normalize_range.
Qed.

(** ** Strict growth of the receptive field *)

Module ReceptiveFieldGrowth.
Import ReceptiveField ReceptiveFieldMore ReceptiveFieldFacts.
Import ReceptiveFieldMoreFacts ReceptiveFieldPyFacts.

Lemma power_positive f n : (1 <= f)%Q -> (1 <= power f n)%Q.
Proof.
  intros Hf. induction n as [|n IH]; cbn [power]; [lra|].
  assert (0 <= (f - 1) * power f n)%Q by (apply Qmult_le_0_compat; lra).
  lra.
Qed.

Lemma geometric_nonneg f n : (1 <= f)%Q -> (0 <= geometric f n)%Q.
Proof.
  intros Hf. induction n as [|n IH]; cbn [geometric]; [lra|].
  pose proof (power_positive f n Hf). lra.
Qed.

Lemma levels_nonneg n : (0 <= inject_Z (Z.of_nat n))%Q.
Proof. unfold Qle. cbn. lia. Qed.

(** What one more level adds. *)
Lemma closed_form_step k f n :
  (closed_form k f (S n) - closed_form k f n
   == power f n
      * ((f - 1) * (1 + 2 * (k - 1) * (inject_Z (Z.of_nat n) + 2))
         + 2 * (2 * (k - 1))))%Q.
Proof.
  unfold closed_form. cbn [power geometric].
  rewrite Nat2Z.inj_succ. unfold Z.succ. rewrite !inject_Z_plus.
  change (inject_Z 1) with 1%Q. ring.
Qed.

(** What a larger kernel adds. *)
Lemma closed_form_kernel k k' f n :
  (closed_form k' f n - closed_form k f n
   == (k' - k)
      * (2 * (power f n * inject_Z (Z.of_nat n + 1) + geometric f n)))%Q.
Proof. unfold closed_form. ring. Qed.

Lemma closed_form_step_sign k f n :
  (1 <= k)%Q -> (1 <= f)%Q ->
  (closed_form k f n < closed_form k f (S n))%Q
  <-> ~ ((k == 1)%Q /\ (f == 1)%Q).
Proof.
  intros Hk Hf. pose proof (closed_form_step k f n) as Hstep.
  pose proof (power_positive f n Hf) as Hp.
  pose proof (levels_nonneg n) as Hn.
  set (c := (1 + 2 * (k - 1) * (inject_Z (Z.of_nat n) + 2))%Q) in *.
  assert (1 <= c)%Q as Hc.
  { unfold c.
    assert (0 <= (k - 1) * (inject_Z (Z.of_nat n) + 2))%Q
      by (apply Qmult_le_0_compat; lra).
    lra. }
  set (D := ((f - 1) * c + 2 * (2 * (k - 1)))%Q) in *.
  assert (0 <= (f - 1) * (c - 1))%Q as Hfc
    by (apply Qmult_le_0_compat; lra).
  split.
  - intros Hlt [Hk1 Hf1].
    assert (D == 0)%Q as HD by (unfold D; rewrite Hk1, Hf1; ring).
    rewrite HD in Hstep. lra.
  - intros Hnot.
    assert (0 < D)%Q as HD.
    { unfold D. destruct (Qlt_le_dec 1 k) as [Hk1|Hk1]; [lra|].
      destruct (Qlt_le_dec 1 f) as [Hf1|Hf1]; [lra|].
      exfalso. apply Hnot. split; lra. }
    assert (0 < power f n * D)%Q by (apply Qmult_lt_0_compat; lra).
    lra.
Qed.

Lemma closed_form_kernel_sign k k' f n :
  (1 <= f)%Q -> (k < k')%Q -> (closed_form k f n < closed_form k' f n)%Q.
Proof.
  intros Hf Hk. pose proof (closed_form_kernel k k' f n) as Hdiff.
  pose proof (power_positive f n Hf) as Hp.
  pose proof (geometric_nonneg f n Hf) as Hg.
  pose proof (levels_nonneg n) as Hn.
  assert (1 <= power f n * inject_Z (Z.of_nat n + 1))%Q as Hprod.
  { rewrite inject_Z_plus. change (inject_Z 1) with 1%Q.
    assert (0 <= power f n * inject_Z (Z.of_nat n))%Q
      by (apply Qmult_le_0_compat; lra).
    lra. }
  assert (0 < (k' - k)
              * (2 * (power f n * inject_Z (Z.of_nat n + 1)
                      + geometric f n)))%Q
    by (apply Qmult_lt_0_compat; lra).
  lra.
Qed.

(** The same on integers. *)
Lemma inject_Z_is_1 z : (inject_Z z == 1)%Q <-> z = 1.
Proof. change 1%Q with (inject_Z 1). apply inject_Z_injective. Qed.

Lemma closed_form_int_step_sign k f n :
  1 <= k -> 1 <= f ->
  closed_form_int k f n < closed_form_int k f (S n) <-> ~ (k = 1 /\ f = 1).
Proof.
  intros Hk Hf. rewrite Zlt_Qlt, <- !closed_form_inject.
  rewrite closed_form_step_sign by (by apply inject_Z_ge_1).
  by rewrite !inject_Z_is_1.
Qed.

Lemma closed_form_int_kernel_sign k k' f n :
  1 <= f -> k < k' -> closed_form_int k f n < closed_form_int k' f n.
Proof.
  intros Hf Hk. rewrite Zlt_Qlt, <- !closed_form_inject.
  apply closed_form_kernel_sign; [by apply inject_Z_ge_1|].
  by rewrite <- Zlt_Qlt.
Qed.

End ReceptiveFieldGrowth.

Import ReceptiveFieldGrowth.

(** X20. For an integer depth, kernel size and factor of at least 1 with
    the closed form of the next depth below [2^53], one more level makes the
    receptive field strictly larger, except when the kernel size and the
    factor are both 1, where it stays 1; and a smaller kernel size of at
    least 1 always gives a strictly smaller result. *)
Theorem compute_receptive_field_strict
    (depth kernel_size downsample_factor : Z) :
  1 <= depth -> 1 <= kernel_size -> 1 <= downsample_factor ->
  closed_form_int kernel_size downsample_factor (Z.to_nat depth) < 2 ^ 53 ->
  exists v v' x x',
    compute_receptive_field_py depth (Int kernel_size)
      (Int downsample_factor) = Returned v
    /\ compute_receptive_field_py (depth + 1) (Int kernel_size)
         (Int downsample_factor) = Returned v'
    /\ exact v x /\ exact v' x'
    /\ (x < x' <-> ~ (kernel_size = 1 /\ downsample_factor = 1))
    /\ (forall kernel_size', 1 <= kernel_size' < kernel_size ->
          exists v'' x'',
            compute_receptive_field_py depth (Int kernel_size')
              (Int downsample_factor) = Returned v''
            /\ exact v'' x'' /\ x'' < x).
Proof.
  intros Hd Hk Hf Hb.
  set (n := Z.to_nat (depth - 1)).
  assert (Z.to_nat depth = S n) as Hn by lia. rewrite Hn in Hb.
  pose proof (closed_form_int_mono_depth kernel_size downsample_factor
                n (S n) Hk Hf ltac:(lia)) as Hle.
  destruct (compute_receptive_field_py_exact depth kernel_size
              downsample_factor Hk Hf) as (v & Hv & Hx & _); [fold n; lia|].
  destruct (compute_receptive_field_py_exact (depth + 1) kernel_size
              downsample_factor Hk Hf) as (v' & Hv' & Hx' & _).
  { replace (Z.to_nat (depth + 1 - 1)) with (S n) by lia. done. }
  replace (Z.to_nat (depth + 1 - 1)) with (S n) in Hx' by lia.
  fold n in Hx.
  exists v, v', (closed_form_int kernel_size downsample_factor n),
    (closed_form_int kernel_size downsample_factor (S n)).
  split_and!; [done..| |].
  - by apply closed_form_int_step_sign.
  - intros k' [Hk1 Hk2].
    pose proof (closed_form_int_kernel_sign k' kernel_size downsample_factor
                  n Hf Hk2) as Hlt.
    destruct (compute_receptive_field_py_exact depth k'
                downsample_factor Hk1 Hf) as (v'' & Hv'' & Hx'' & _);
      [fold n; lia|].
    by exists v'', (closed_form_int k' downsample_factor n).
Qed.

Lemma compute_receptive_field_strict_witness :
  1 <= 3 /\ 1 <= 3 /\ 1 <= 2
  /\ closed_form_int 3 2 (Z.to_nat 3) < 2 ^ 53
  /\ exists v v' x x',
       compute_receptive_field_py 3 (Int 3) (Int 2) = Returned v
       /\ compute_receptive_field_py (3 + 1) (Int 3) (Int 2) = Returned v'
       /\ exact v x /\ exact v' x' /\ x < x'.
Proof.
  assert (1 <= 3) as Hd by lia.
  assert (1 <= 2) as Hf by lia.
  assert (closed_form_int 3 2 (Z.to_nat 3) < 2 ^ 53) as Hb by reflexivity.
  split; [exact Hd|]. split; [exact Hd|]. split; [exact Hf|].
  split; [exact Hb|].
  destruct (compute_receptive_field_strict 3 3 2 Hd Hd Hf Hb)
    as (v & v' & x & x' & Hv & Hv' & Hx & Hx' & Hdepth & _).
  exists v, v', x, x'.
  split; [exact Hv|]. split; [exact Hv'|]. split; [exact Hx|].
  split; [exact Hx'|]. apply Hdepth. intros [Hk1 _]. discriminate Hk1.
Defined.

(** X21. Beyond [2^53] the result is a rounded one. At depth 49 with a
    kernel size of 3 and a factor of 2 the closed form is
    [201 * 2^48 - 4], which no float holds: the function returns the float
    [201 * 2^48]. *)
Theorem compute_receptive_field_rounds :
  closed_form_int 3 2 (Z.to_nat (49 - 1)) = 201 * 2 ^ 48 - 4
  /\ 2 ^ 53 < closed_form_int 3 2 (Z.to_nat (49 - 1))
  /\ compute_receptive_field_py 49 (Int 3) (Int 2)
     = Returned (Float (Float.Finite (inject_Z (201 * 2 ^ 48)))).
Proof. split_and!; by vm_compute. Qed.

(** X22. Read over exact rationals, without rounding and without
    exceptions, the function is positive and does not decrease when the
    depth or the kernel size grows, for every depth of at least 1 and every
    rational kernel size and downsampling factor of at least 1. *)
Theorem exact_receptive_field_positive_monotone
    (depth : Z) (kernel_size downsample_factor : Q) :
  1 <= depth -> (1 <= kernel_size)%Q -> (1 <= downsample_factor)%Q ->
  (0 < compute_receptive_field depth kernel_size downsample_factor)%Q
  /\ (forall depth', depth <= depth' ->
        (compute_receptive_field depth kernel_size downsample_factor
         <= compute_receptive_field depth' kernel_size downsample_factor)%Q)
  /\ (forall kernel_size', (kernel_size <= kernel_size')%Q ->
        (compute_receptive_field depth kernel_size downsample_factor
         <= compute_receptive_field depth kernel_size' downsample_factor)%Q).
Proof.
  intros Hd Hk Hf. split_and!.
  - rewrite compute_receptive_field_unrolled. by apply unrolled_positive.
  - intros depth' Hdd. rewrite !compute_receptive_field_unrolled.
    apply unrolled_mono_depth; [done..|lia].
  - intros k' Hkk. rewrite !compute_receptive_field_unrolled.
    by apply unrolled_mono_kernel.
Qed.

Lemma exact_receptive_field_positive_monotone_witness :
  1 <= 2 /\ (1 <= 3)%Q /\ (1 <= 2)%Q
  /\ (0 < compute_receptive_field 2 3 2)%Q
  /\ (forall depth', 2 <= depth' ->
        (compute_receptive_field 2 3 2 <= compute_receptive_field depth' 3 2)%Q)
  /\ (forall kernel_size', (3 <= kernel_size')%Q ->
        (compute_receptive_field 2 3 2
         <= compute_receptive_field 2 kernel_size' 2)%Q).
Proof.
  assert (1 <= 2) as Hd by lia.
  assert (1 <= 3)%Q as Hk by lra.
  assert (1 <= 2)%Q as Hf by lra.
  split; [exact Hd|]. split; [exact Hk|]. split; [exact Hf|].
  exact (exact_receptive_field_positive_monotone 2 3 2 Hd Hk Hf).
Defined.
